(** * serverless-staking: the resilience layer

    A shallow embedding of the record cache ([utils/cache.ts]), the rate
    limiter ([utils/rate-limit.ts]), the backing-store client
    ([db-service.ts]) and the read/write orchestration
    ([stake/service.ts]), together with the properties the design
    document states about them.

    Modelling conventions.
    - A JavaScript [number] that the code only ever uses as an integer is a
      [Z]; where parsing can produce [NaN] (the fields of a stake rebuilt
      from the cache) it is a [number := option Z] with [None] for [NaN].
      Numbers with a fractional part and the infinities are outside the
      model.  A number read from a text is rounded to the nearest double.
    - Strings are held as their UTF-8 bytes.
    - The Redis client parses what it reads as JSON before it hands it
      over; the model follows it on the integers and on the literals
      [null], [true] and [false].
    - The Redis service and the SQL database are explicit components of a
      [World]; every round trip consults a fault schedule, so that a
      command can be made to throw.
    - [async] functions are run to completion one after the other;
      [Promise.all] over a mapped array runs the calls left to right.
    - [console.error], [console.log] and [setTimeout] delays are recorded
      in the world's trace; a delay also advances the clock. *)

From Stdlib Require Import ZArith String Ascii Decimal DecimalString DecimalZ DecimalPos DecimalFacts.
From stdpp Require Import gmap strings list fin_maps sorting.

Local Open Scope Z_scope.

(* ================================================================== *)
(** * JavaScript numbers and strings *)
(* ================================================================== *)

(** [None] is [NaN] (and, for a [Date], the invalid date). *)
Definition number : Type := option Z.

(** The decimal rendering of an integer, as [Number.prototype.toString]
    and template literals produce it. *)
Definition decimal (z : Z) : string := NilZero.string_of_int (Z.to_int z).

Definition toString (n : number) : string :=
  match n with
  | Some z => decimal z
  | None => "NaN"
  end.

(** The value of a decimal numeral: digits, with a minus sign before
    them or without. *)
Definition numeral (s : string) : option Z :=
  Z.of_int <$> NilZero.int_of_string s.

(** [Number.MAX_SAFE_INTEGER] and [Number.isSafeInteger]. *)
Definition MAX_SAFE_INTEGER : Z := 9007199254740991.

Definition isSafeInteger (z : Z) : bool :=
  (- MAX_SAFE_INTEGER <=? z) && (z <=? MAX_SAFE_INTEGER).

(** The double nearest to an integer, ties to the even significand: the
    number that JavaScript holds when it reads the integer.  An integer
    of at most 53 bits is held as it is. *)
Definition nearest_double (z : Z) : Z :=
  let a := Z.abs z in
  if a <? 2 ^ 53 then z
  else
    let e := Z.log2 a - 52 in
    let q := Z.shiftr a e in
    let r := Z.land a (Z.ones e) in
    let half := 2 ^ (e - 1) in
    let q' := if (half <? r) || ((r =? half) && Z.odd q) then q + 1 else q in
    Z.sgn z * Z.shiftl q' e.

Definition code (c : ascii) : Z := Z.of_N (N_of_ascii c).

Definition is_digit (c : ascii) : bool := (48 <=? code c) && (code c <=? 57).

(** The value of a hexadecimal digit. *)
Definition hex_digit (c : ascii) : option Z :=
  let n := code c in
  if (48 <=? n) && (n <=? 57) then Some (n - 48)
  else if (97 <=? n) && (n <=? 102) then Some (n - 87)
  else if (65 <=? n) && (n <=? 70) then Some (n - 55)
  else None.

(** Whether three bytes encode a character of [StrWhiteSpaceChar] that
    takes three bytes: U+1680, U+2000 to U+200A, U+2028, U+2029, U+202F,
    U+205F, U+3000 and U+FEFF. *)
Definition white_space3 (n1 n2 n3 : Z) : bool :=
  (n1 =? 225) && (n2 =? 154) && (n3 =? 128)
  || (n1 =? 226) && (n2 =? 128)
     && ((128 <=? n3) && (n3 <=? 138) || (n3 =? 168) || (n3 =? 169)
         || (n3 =? 175))
  || (n1 =? 226) && (n2 =? 129) && (n3 =? 159)
  || (n1 =? 227) && (n2 =? 128) && (n3 =? 128)
  || (n1 =? 239) && (n2 =? 187) && (n3 =? 191).

(** The string without the white space and line terminators it starts
    with: the ASCII ones, U+00A0, and those of three bytes. *)
Fixpoint trim_start (s : string) : string :=
  match s with
  | String c s1 =>
      let n := code c in
      if (9 <=? n) && (n <=? 13) || (n =? 32) then trim_start s1
      else
        match s1 with
        | String c2 s2 =>
            if (n =? 194) && (code c2 =? 160) then trim_start s2
            else
              match s2 with
              | String c3 s3 =>
                  if white_space3 n (code c2) (code c3) then trim_start s3
                  else s
              | EmptyString => s
              end
        | EmptyString => s
        end
  | EmptyString => s
  end.

(** A leading sign: whether it is a minus, and what follows it. *)
Definition strip_sign (s : string) : bool * string :=
  match s with
  | String c s' =>
      if code c =? 45 then (true, s')
      else if code c =? 43 then (false, s')
      else (false, s)
  | EmptyString => (false, s)
  end.

Definition signed (negative : bool) (z : Z) : Z := if negative then - z else z.

(** The longest prefix of decimal digits, and what follows it. *)
Fixpoint leading_digits (s : string) : string * string :=
  match s with
  | String c s' =>
      if is_digit c
      then let '(ds, rest) := leading_digits s' in (String c ds, rest)
      else (EmptyString, s)
  | EmptyString => (EmptyString, EmptyString)
  end.

(** The integer that a string of decimal digits denotes. *)
Definition digits_value (ds : string) : Z :=
  match NilEmpty.uint_of_string ds with
  | Some u => Z.of_uint u
  | None => 0
  end.

(** The integer that the longest prefix of hexadecimal digits denotes;
    [None] when there is no such digit. *)
Fixpoint hex_value (acc : option Z) (s : string) : option Z :=
  match s with
  | String c s' =>
      match hex_digit c with
      | Some d => hex_value (Some (16 * default 0 acc + d)) s'
      | None => acc
      end
  | EmptyString => acc
  end.

(** What follows [0x] or [0X], when the string starts with one of
    them. *)
Definition hex_prefix (s : string) : option string :=
  match s with
  | String c (String x s') =>
      if (code c =? 48) && ((code x =? 120) || (code x =? 88))
      then Some s' else None
  | _ => None
  end.

(** [parseInt(s)], without a radix: white space is skipped, then a sign;
    after [0x] the digits are hexadecimal; the longest prefix of digits
    gives the value, whatever follows it, and no digit gives [NaN].  The
    result is a number of JavaScript, so an integer of more than 53 bits
    is rounded.  Beyond the range of the doubles (309 digits and more)
    JavaScript gives an infinity, which the model does not have: the
    rounded integer stands for it. *)
Definition parseInt (s : string) : number :=
  let '(negative, s1) := strip_sign (trim_start s) in
  match hex_prefix s1 with
  | Some s2 => nearest_double ∘ signed negative <$> hex_value None s2
  | None =>
      let '(ds, _) := leading_digits s1 in
      match ds with
      | EmptyString => None
      | _ => Some (nearest_double (signed negative (digits_value ds)))
      end
  end.

(** The exponent part of a decimal literal, when there is one: [e] or
    [E], a sign or none, and at least one digit. *)
Definition exponent_part (s : string) : Z :=
  match s with
  | String x s1 =>
      if (code x =? 101) || (code x =? 69) then
        let '(negative, s2) := strip_sign s1 in
        let '(ds, _) := leading_digits s2 in
        match ds with
        | EmptyString => 0
        | _ => signed negative (digits_value ds)
        end
      else 0
  | EmptyString => 0
  end.

(** The digits of a fraction, when the string starts with a point, and
    what follows them. *)
Definition fraction_part (s : string) : string * string :=
  match s with
  | String c s' => if code c =? 46 then leading_digits s' else (EmptyString, s)
  | EmptyString => (EmptyString, s)
  end.

(** [parseFloat(s)], as far as the integers go: white space is skipped,
    then a sign; the longest prefix that is a decimal literal (digits, a
    fraction, an exponent) gives the value, and no such prefix gives
    [NaN].  A value that is an integer is rounded to the nearest double,
    as for [parseInt].  A value with a fractional part, and [Infinity],
    are numbers that the model does not have: they are rendered as
    [None] and not followed further. *)
Definition parseFloat (s : string) : number :=
  let '(negative, s1) := strip_sign (trim_start s) in
  let '(whole, s2) := leading_digits s1 in
  let '(fraction, s3) := fraction_part s2 in
  match whole +:+ fraction with
  | EmptyString => None
  | ds =>
      let scale := exponent_part s3 - Z.of_nat (String.length fraction) in
      let n := digits_value ds in
      if 0 <=? scale
      then Some (nearest_double (signed negative (n * 10 ^ scale)))
      else if n mod 10 ^ (- scale) =? 0
           then Some (nearest_double (signed negative (n / 10 ^ (- scale))))
           else None
  end.

(** A string of decimal digits. *)
Fixpoint all_digits (s : string) : bool :=
  match s with
  | String c s' => is_digit c && all_digits s'
  | EmptyString => true
  end.

(** What the Redis client hands back for a stored text.  It parses the
    text as JSON and hands back the value, but keeps the text itself
    when that fails and when the value is a number that is not a safe
    integer.  Of JSON the model follows the integers, in the form in
    which [toString] prints them, and the three literals; any other text
    is handed back as it is. *)
Inductive Reply : Type :=
  | ReplyNull
  | ReplyBoolean (b : bool)
  | ReplyNumber (z : Z)
  | ReplyString (s : string).

Definition json_integer (s : string) : option Z :=
  match numeral s with
  | Some z => if String.eqb (decimal z) s then Some z else None
  | None => None
  end.

Definition deserialize (s : string) : Reply :=
  match json_integer s with
  | Some z => if isSafeInteger z then ReplyNumber z else ReplyString s
  | None =>
      if String.eqb s "null" then ReplyNull
      else if String.eqb s "true" then ReplyBoolean true
      else if String.eqb s "false" then ReplyBoolean false
      else ReplyString s
  end.

(** [String(v)], which is what [parseInt], [parseFloat] and a template
    literal make of a value before they read it. *)
Definition String_ (v : Reply) : string :=
  match v with
  | ReplyNull => "null"
  | ReplyBoolean true => "true"
  | ReplyBoolean false => "false"
  | ReplyNumber z => decimal z
  | ReplyString s => s
  end.

(** [parseInt(data.f)] and [parseFloat(data.f)] where the field may be
    missing ([undefined]). *)
Definition parseIntField (f : option Reply) : number :=
  f ≫= parseInt ∘ String_.

Definition parseFloatField (f : option Reply) : number :=
  f ≫= parseFloat ∘ String_.

(** Truthiness of a string and of a number. *)
Definition truthy_string (s : string) : bool :=
  match s with EmptyString => false | _ => true end.

Definition truthy_Z (z : Z) : bool := negb (z =? 0).

Definition truthy_Reply (v : Reply) : bool :=
  match v with
  | ReplyNull => false
  | ReplyBoolean b => b
  | ReplyNumber z => truthy_Z z
  | ReplyString s => truthy_string s
  end.

(** [a || b] where [a] is [string | null]. *)
Definition or_else (a : option string) (b : string) : string :=
  match a with
  | Some s => if truthy_string s then s else b
  | None => b
  end.

Fixpoint starts_with (p s : string) : bool :=
  match p, s with
  | EmptyString, _ => true
  | String a p', String b s' => if Ascii.eqb a b then starts_with p' s' else false
  | String _ _, EmptyString => false
  end.

(* ================================================================== *)
(** * Errors ([utils/errors.ts]) *)
(* ================================================================== *)

Inductive Error : Type :=
  | RateLimitError (message : string)
  | DatabaseError (message : string)
  | PlainError (message : string)      (* [new Error(message)] *)
  | RangeError                         (* [toISOString] of an invalid date *)
  | RedisError                         (* thrown by the Redis client *)
  | SqlError.                          (* thrown by the SQL client *)

Definition instanceof_RateLimitError (e : Error) : bool :=
  match e with RateLimitError _ => true | _ => false end.

Definition instanceof_DatabaseError (e : Error) : bool :=
  match e with DatabaseError _ => true | _ => false end.

(* ================================================================== *)
(** * The key-value service *)
(* ================================================================== *)

(** One key space; a key holds a counter, a list or a hash.  [rexp]
    gives the absolute time (milliseconds) at which a key expires. *)
Inductive RVal : Type :=
  | VInt (n : Z)
  | VList (l : list string)
  | VHash (h : gmap string string).

Record Redis : Type := mkRedis {
  rdata : gmap string RVal;
  rexp : gmap string Z
}.

Definition empty_redis : Redis := mkRedis ∅ ∅.

Definition expired (r : Redis) (t : Z) (k : string) : bool :=
  match rexp r !! k with
  | Some deadline => deadline <? t
  | None => false
  end.

(** What a command issued at time [t] sees under key [k]: a key is gone
    once the clock has passed its deadline.  The service and the program
    read the same clock. *)
Definition rget (r : Redis) (t : Z) (k : string) : option RVal :=
  if expired r t k then None else rdata r !! k.

(** Store [v] under [k]; a key that had expired starts afresh, without a
    deadline. *)
Definition rput (r : Redis) (t : Z) (k : string) (v : RVal) : Redis :=
  mkRedis (<[k := v]> (rdata r))
          (if expired r t k then delete k (rexp r) else rexp r).

Definition rdel (r : Redis) (k : string) : Redis :=
  mkRedis (delete k (rdata r)) (delete k (rexp r)).

(** Commands.  [None] is a WRONGTYPE reply. *)

Definition redis_hset (k : string) (fields : gmap string string)
    (t : Z) (r : Redis) : option Redis :=
  match rget r t k with
  | None => Some (rput r t k (VHash fields))
  | Some (VHash h) => Some (rput r t k (VHash (fields ∪ h)))
  | Some _ => None
  end.

Definition redis_expire (k : string) (seconds : Z) (t : Z) (r : Redis) : Redis :=
  match rget r t k with
  | None => r
  | Some _ =>
      if seconds <=? 0 then rdel r k
      else mkRedis (rdata r) (<[k := t + seconds * 1000]> (rexp r))
  end.

Definition redis_del (ks : list string) (r : Redis) : Redis :=
  foldr (λ k acc, rdel acc k) r ks.

Definition redis_rpush (k : string) (vs : list string) (t : Z) (r : Redis)
    : option Redis :=
  match rget r t k with
  | None => Some (rput r t k (VList vs))
  | Some (VList l) => Some (rput r t k (VList (l ++ vs)))
  | Some _ => None
  end.

Definition redis_lpush (k : string) (v : string) (t : Z) (r : Redis)
    : option (unit * Redis) :=
  match rget r t k with
  | None => Some (tt, rput r t k (VList [v]))
  | Some (VList l) => Some (tt, rput r t k (VList (v :: l)))
  | Some _ => None
  end.

Fixpoint index_of (v : string) (l : list string) : option Z :=
  match l with
  | [] => None
  | x :: l' => if String.eqb x v then Some 0 else Z.succ <$> index_of v l'
  end.

(** [LPOS]: the index of the first match, or [null]. *)
Definition redis_lpos (k : string) (v : string) (t : Z) (r : Redis)
    : option (option Z * Redis) :=
  match rget r t k with
  | None => Some (None, r)
  | Some (VList l) => Some (index_of v l, r)
  | Some _ => None
  end.

(** [LRANGE] on a list value, with Redis's treatment of negative and
    out-of-range indexes. *)
Definition lrange_list (l : list string) (start stop : Z) : list string :=
  let len := Z.of_nat (length l) in
  let start := if start <? 0 then Z.max 0 (start + len) else start in
  let stop := if stop <? 0 then stop + len else stop in
  let stop := Z.min stop (len - 1) in
  if stop <? start then []
  else take (Z.to_nat (stop - start + 1)) (drop (Z.to_nat start) l).

Definition redis_lrange (k : string) (start stop : Z) (t : Z) (r : Redis)
    : option (list string * Redis) :=
  match rget r t k with
  | None => Some ([], r)
  | Some (VList l) => Some (lrange_list l start stop, r)
  | Some _ => None
  end.

(** [HGETALL]: the client hands back [null] for a missing key, modelled
    as the empty field map. *)
Definition redis_hgetall (k : string) (t : Z) (r : Redis)
    : option (gmap string string * Redis) :=
  match rget r t k with
  | None => Some (∅, r)
  | Some (VHash h) => Some (h, r)
  | Some _ => None
  end.

Definition redis_incr (k : string) (t : Z) (r : Redis) : option (Z * Redis) :=
  match rget r t k with
  | None => Some (1, rput r t k (VInt 1))
  | Some (VInt n) => Some (n + 1, rput r t k (VInt (n + 1)))
  | Some _ => None
  end.

(** [GET] on a counter key: [Some None] is [nil]. *)
Definition redis_get (k : string) (t : Z) (r : Redis) : option (option Z) :=
  match rget r t k with
  | None => Some None
  | Some (VInt n) => Some (Some n)
  | Some _ => None
  end.

(** [KEYS prefix*]: the live keys that start with [prefix].  The only
    pattern the code issues is a literal prefix followed by a star. *)
Definition redis_keys (prefix : string) (t : Z) (r : Redis)
    : option (list string * Redis) :=
  Some ((map_to_list
           (filter (λ kv, starts_with prefix kv.1 = true
                          ∧ expired r t kv.1 = false) (rdata r))).*1, r).

(** The commands that the code queues on a pipeline. *)
Inductive Command : Type :=
  | HSET (k : string) (fields : gmap string string)
  | EXPIRE (k : string) (seconds : Z)
  | DEL (ks : list string)
  | RPUSH (k : string) (vs : list string).

Definition run_command (t : Z) (c : Command) (r : Redis) : option Redis :=
  match c with
  | HSET k fields => redis_hset k fields t r
  | EXPIRE k seconds => Some (redis_expire k seconds t r)
  | DEL ks => Some (redis_del ks r)
  | RPUSH k vs => redis_rpush k vs t r
  end.

(** Every queued command is run; a command that replies with an error
    leaves the store as it was and makes [exec] throw at the end. *)
Fixpoint run_pipeline (t : Z) (cs : list Command) (r : Redis) : Redis * bool :=
  match cs with
  | [] => (r, true)
  | c :: cs' =>
      match run_command t c r with
      | Some r' => run_pipeline t cs' r'
      | None => ((run_pipeline t cs' r).1, false)
      end
  end.

(* ================================================================== *)
(** * The relational store *)
(* ================================================================== *)

(** A row of the [stakes] table. *)
Record Row : Type := mkRow {
  r_id : Z;
  r_amount : Z;
  r_period : Z;
  r_user_id : Z;
  r_created_at : Z
}.

(** [rows] is kept in insertion order; [next_id] is the [SERIAL]
    sequence. *)
Record Db : Type := mkDb {
  rows : list Row;
  next_id : Z
}.

Definition empty_db : Db := mkDb [] 1.

(** [INSERT ... RETURNING]: [created_at] defaults to the current time. *)
Definition sql_insert (amount period user_id : Z) (t : Z) (d : Db)
    : list Row * Db :=
  let row := mkRow (next_id d) amount period user_id t in
  ([row], mkDb (rows d ++ [row]) (next_id d + 1)).

(** [ORDER BY created_at DESC], as an insertion sort. *)
Fixpoint insert_desc (x : Row) (l : list Row) : list Row :=
  match l with
  | [] => [x]
  | y :: l' =>
      if r_created_at y <=? r_created_at x then x :: y :: l'
      else y :: insert_desc x l'
  end.

Definition order_by_created_at_desc (l : list Row) : list Row :=
  foldr insert_desc [] l.

(** [SELECT ... WHERE user_id = $1 ORDER BY created_at DESC LIMIT $2
    OFFSET $3]. *)
Definition sql_select (user_id limit offset : Z) (d : Db) : list Row :=
  take (Z.to_nat limit)
    (drop (Z.to_nat offset)
       (order_by_created_at_desc
          (filter (λ row, r_user_id row = user_id) (rows d)))).

(* ================================================================== *)
(** * Worlds and computations *)
(* ================================================================== *)

(** A fault schedule: the head of [pending] says whether the next round
    trip throws; once [pending] is used up, [thereafter] does. *)
Record Faults : Type := mkFaults {
  pending : list bool;
  thereafter : bool
}.

Definition no_faults : Faults := mkFaults [] false.
Definition always_failing : Faults := mkFaults [] true.

Definition next_fault (f : Faults) : bool * Faults :=
  match pending f with
  | [] => (thereafter f, f)
  | b :: bs => (b, mkFaults bs (thereafter f))
  end.

Inductive Event : Type :=
  | ConsoleError (text : string)
  | ConsoleLog (text : string)
  | Sleep (ms : Z).

Record World : Type := mkWorld {
  redis : Redis;
  db : Db;
  now : Z;
  redis_faults : Faults;
  db_faults : Faults;
  trace : list Event
}.

Definition set_redis (r : Redis) (w : World) : World :=
  mkWorld r (db w) (now w) (redis_faults w) (db_faults w) (trace w).
Definition set_db (d : Db) (w : World) : World :=
  mkWorld (redis w) d (now w) (redis_faults w) (db_faults w) (trace w).
Definition set_redis_faults (f : Faults) (w : World) : World :=
  mkWorld (redis w) (db w) (now w) f (db_faults w) (trace w).
Definition set_db_faults (f : Faults) (w : World) : World :=
  mkWorld (redis w) (db w) (now w) (redis_faults w) f (trace w).
Definition emit (e : Event) (w : World) : World :=
  mkWorld (redis w) (db w) (now w) (redis_faults w) (db_faults w) (trace w ++ [e]).
Definition advance (ms : Z) (w : World) : World :=
  mkWorld (redis w) (db w) (now w + ms) (redis_faults w) (db_faults w) (trace w).

Inductive Outcome (A : Type) : Type :=
  | Ok (a : A)
  | Throw (e : Error).
Arguments Ok {A} a.
Arguments Throw {A} e.

(** An asynchronous function: it runs in a world and either returns or
    throws. *)
Definition M (A : Type) : Type := World → Outcome A * World.

Definition ret {A} (a : A) : M A := λ w, (Ok a, w).
Definition throw {A} (e : Error) : M A := λ w, (Throw e, w).

Definition bind {A B} (m : M A) (k : A → M B) : M B := λ w,
  match m w with
  | (Ok a, w') => k a w'
  | (Throw e, w') => (Throw e, w')
  end.

(** [try { m } catch (error) { handler error }]. *)
Definition try_catch {A} (m : M A) (handler : Error → M A) : M A := λ w,
  match m w with
  | (Ok a, w') => (Ok a, w')
  | (Throw e, w') => handler e w'
  end.

Notation "'let*' x ':=' m 'in' k" := (bind m (λ x, k))
  (at level 10, x name, m at level 100, k at level 200).
Notation "m ;; k" := (bind m (λ _, k))
  (at level 100, k at level 200, right associativity).

(** [await Promise.all(xs.map(f))]. *)
Fixpoint mapM {A B} (f : A → M B) (xs : list A) : M (list B) :=
  match xs with
  | [] => ret []
  | x :: xs' => let* y := f x in let* ys := mapM f xs' in ret (y :: ys)
  end.

Definition console_error (text : string) : M unit := λ w,
  (Ok tt, emit (ConsoleError text) w).
Definition console_log (text : string) : M unit := λ w,
  (Ok tt, emit (ConsoleLog text) w).
Definition Date_now : M Z := λ w, (Ok (now w), w).

(** [await new Promise(resolve => setTimeout(resolve, ms))]. *)
Definition sleep (ms : Z) : M unit := λ w,
  (Ok tt, emit (Sleep ms) (advance ms w)).

(** One round trip to the key-value service. *)
Definition redis_call {A} (cmd : Z → Redis → option (A * Redis)) : M A := λ w,
  let '(fail, fs) := next_fault (redis_faults w) in
  let w1 := set_redis_faults fs w in
  if fail then (Throw RedisError, w1)
  else match cmd (now w) (redis w) with
       | Some (a, r') => (Ok a, set_redis r' w1)
       | None => (Throw RedisError, w1)
       end.

(** [await pipeline.exec()]: one round trip for the queued commands. *)
Definition pipeline_exec (cs : list Command) : M unit := λ w,
  let '(fail, fs) := next_fault (redis_faults w) in
  let w1 := set_redis_faults fs w in
  if fail then (Throw RedisError, w1)
  else let '(r', ok) := run_pipeline (now w) cs (redis w) in
       (if ok then Ok tt else Throw RedisError, set_redis r' w1).

(** One round trip to the database; a failed round trip changes nothing. *)
Definition sql_call {A} (query : Z → Db → A * Db) : M A := λ w,
  let '(fail, fs) := next_fault (db_faults w) in
  let w1 := set_db_faults fs w in
  if fail then (Throw SqlError, w1)
  else let '(a, d') := query (now w) (db w) in (Ok a, set_db d' w1).

(* ================================================================== *)
(** * [db-service.ts] *)
(* ================================================================== *)

(** [Stake]: the fields are [number]s because [getCachedStake] rebuilds
    them with [parseInt]; [createdAt] is a [Date], held as its time
    value. *)
Record Stake : Type := mkStake {
  s_id : number;
  s_amount : number;
  s_period : number;
  s_userId : number;
  s_createdAt : number
}.

(** "Convert the database result to match our Stake interface". *)
Definition stake_of_row (row : Row) : Stake :=
  mkStake (Some (r_id row)) (Some (r_amount row)) (Some (r_period row))
          (Some (r_user_id row)) (Some (r_created_at row)).

(** [Error ... (attempt ${attempt}/3):] *)
Definition attempt_of_3 (what : string) (attempt : Z) : string :=
  what +:+ " (attempt " +:+ decimal attempt +:+ "/3):".

(** The loop [for (let attempt = 1; attempt <= 3; attempt++) { try {
    return body } catch { log; if (attempt === 3) throw new
    DatabaseError(final); sleep(500 * attempt) } }] that [init],
    [createStake] and [getStakes] each spell out.  [remaining] counts the
    iterations still allowed; falling out of the loop throws [after]. *)
Fixpoint db_attempts {A} (remaining : nat) (attempt : Z)
    (what final after : string) (body : M A) : M A :=
  match remaining with
  | O => throw (DatabaseError after)
  | S remaining' =>
      try_catch body (λ _,
        console_error (attempt_of_3 what attempt) ;;
        if attempt =? 3 then throw (DatabaseError final)
        else sleep (500 * attempt) ;;
             db_attempts remaining' (attempt + 1) what final after body)
  end.

Module DbService.

Definition init : M unit :=
  db_attempts 3 1
    "Error initializing database"
    "Failed to initialize database after multiple attempts"
    "Failed to initialize database after multiple attempts"
    (sql_call (λ _ d, (tt, d)) ;;
     console_log "Database initialized successfully").

Definition createStake (userId amount period : Z) : M Stake :=
  db_attempts 3 1
    "Error creating stake in database"
    "Failed to create stake in database after multiple attempts"
    "Failed to create stake in database"
    (let* result := sql_call (sql_insert amount period userId) in
     match result with
     | [] => throw (DatabaseError "Failed to create stake: No result returned")
     | row :: _ => ret (stake_of_row row)
     end).

Definition getStakes (userId page limit : Z) : M (list Stake) :=
  db_attempts 3 1
    "Error retrieving stakes from database"
    "Failed to retrieve stakes from database after multiple attempts"
    "Failed to retrieve stakes from database"
    (let offset := (page - 1) * limit in
     let* result := sql_call (λ _ d, (sql_select userId limit offset d, d)) in
     ret (stake_of_row <$> result)).

End DbService.

(* ================================================================== *)
(** * [utils/cache.ts] *)
(* ================================================================== *)

Definition MAX_CACHE_RETRIES : Z := 2.

Record CacheConfig : Type := mkCacheConfig {
  ttl : Z;
  staleWhileRevalidate : bool;
  staleTime : option Z
}.

Module defaultCacheConfigs.
Definition stake : CacheConfig := mkCacheConfig 300 true (Some 300).
Definition user : CacheConfig := mkCacheConfig 600 true (Some 600).
Definition shortLived : CacheConfig := mkCacheConfig 60 false None.
End defaultCacheConfigs.

(** [config.staleWhileRevalidate && config.staleTime], as a condition. *)
Definition stale_extension (config : CacheConfig) : bool :=
  staleWhileRevalidate config &&
  match staleTime config with
  | Some s => truthy_Z s
  | None => false
  end.

(** The expiry both [cacheStake] and [cacheStakes] set. *)
Definition expiry_seconds (config : CacheConfig) : Z :=
  if stale_extension config
  then ttl config + default 0 (staleTime config)
  else ttl config.

(** [Error ... (attempt ${attempt + 1}/${MAX_CACHE_RETRIES + 1}):] *)
Definition cache_attempt (what : string) (attempt : Z) : string :=
  what +:+ " (attempt " +:+ decimal (attempt + 1) +:+ "/"
       +:+ decimal (MAX_CACHE_RETRIES + 1) +:+ "):".

(** The loop [for (let attempt = 0; attempt <= MAX_CACHE_RETRIES;
    attempt++) { try { return body } catch { log; if (attempt ===
    MAX_CACHE_RETRIES) { log; return fallback } sleep(200 * (attempt +
    1)) } }] of the three cache functions; falling out of the loop
    returns [fallback] as well. *)
Fixpoint cache_attempts {A} (remaining : nat) (attempt : Z)
    (what final : string) (fallback : A) (body : M A) : M A :=
  match remaining with
  | O => ret fallback
  | S remaining' =>
      try_catch body (λ _,
        console_error (cache_attempt what attempt) ;;
        if attempt =? MAX_CACHE_RETRIES
        then console_error final ;; ret fallback
        else sleep (200 * (attempt + 1)) ;;
             cache_attempts remaining' (attempt + 1) what final fallback body)
  end.

(** [d.toISOString()].  The calendar rendering is replaced by the decimal
    time value; it throws on an invalid date as the original does. *)
Definition toISOString (d : number) : M string :=
  match d with
  | Some ms => ret (decimal ms)
  | None => throw RangeError
  end.

(** [new Date(s)] for a string written by [toISOString]. *)
Definition new_Date (s : option string) : number := s ≫= numeral.

Definition stake_fields (stake : Stake) (created cached_at : string)
    : gmap string string :=
  list_to_map
    [ ("id", toString (s_id stake));
      ("amount", toString (s_amount stake));
      ("period", toString (s_period stake));
      ("userId", toString (s_userId stake));
      ("createdAt", created);
      ("_cached_at", cached_at) ].

Definition cacheStake (stake : Stake) (config : CacheConfig) : M unit :=
  let stakeKey := "stake:" +:+ toString (s_id stake) in
  cache_attempts (Z.to_nat (MAX_CACHE_RETRIES + 1)) 0
    "Error caching stake"
    "Failed to cache stake after multiple attempts:"
    tt
    (let* created := toISOString (s_createdAt stake) in
     let* t := Date_now in
     pipeline_exec
       [ HSET stakeKey (stake_fields stake created (decimal t));
         EXPIRE stakeKey (expiry_seconds config) ] ;;
     let userStakesKey := "user:" +:+ toString (s_userId stake) +:+ ":stake_ids" in
     let* exists_ := redis_call (redis_lpos userStakesKey (toString (s_id stake))) in
     match exists_ with
     | None => redis_call (redis_lpush userStakesKey (toString (s_id stake)))
     | Some _ => ret tt
     end).

Record Cached : Type := mkCached {
  c_stake : option Stake;
  isStale : bool
}.

(** The body of the [try] in [getCachedStake], once [hgetall] has
    replied with the texts [data]: the client hands each of them over
    as a value. *)
Definition read_cached (config : CacheConfig) (data : gmap string string)
    (t : Z) : Cached :=
  if decide (data = ∅) then mkCached None false
  else
    let field name := deserialize <$> data !! name in
    let stale :=
      match field "_cached_at" with
      | Some cached_at =>
          if staleWhileRevalidate config && truthy_Reply cached_at then
            match parseInt (String_ cached_at) with
            | Some cachedAt => ttl config * 1000 <? t - cachedAt
            | None => false
            end
          else false
      | None => false
      end in
    mkCached
      (Some (mkStake (parseIntField (field "id"))
                     (parseFloatField (field "amount"))
                     (parseIntField (field "period"))
                     (parseIntField (field "userId"))
                     (new_Date (data !! "createdAt"))))
      stale.

Definition getCachedStake (stakeId : string) (config : CacheConfig) : M Cached :=
  let stakeKey := "stake:" +:+ stakeId in
  cache_attempts (Z.to_nat (MAX_CACHE_RETRIES + 1)) 0
    "Error getting cached stake"
    "Failed to get cached stake after multiple attempts:"
    (mkCached None false)
    (let* data := redis_call (redis_hgetall stakeKey) in
     let* t := Date_now in
     ret (read_cached config data t)).

Definition page_key (userId page limit : Z) : string :=
  "user:" +:+ decimal userId +:+ ":stakes:page:" +:+ decimal page
          +:+ ":limit:" +:+ decimal limit.

Definition cacheStakes (stakes : list Stake) (userId page limit : Z)
    (config : CacheConfig) : M unit :=
  mapM (λ stake, cacheStake stake config) stakes ;;
  let pageKey := page_key userId page limit in
  let stakeIds := (λ stake, toString (s_id stake)) <$> stakes in
  cache_attempts (Z.to_nat (MAX_CACHE_RETRIES + 1)) 0
    "Error caching stakes list"
    "Failed to cache stakes list after multiple attempts:"
    tt
    (pipeline_exec
       (DEL [pageKey] ::
        if 0 <? Z.of_nat (length stakeIds)
        then [ RPUSH pageKey stakeIds; EXPIRE pageKey (expiry_seconds config) ]
        else [])).

(* ================================================================== *)
(** * [utils/rate-limit.ts] *)
(* ================================================================== *)

Record RateLimitConfig : Type := mkRateLimitConfig {
  limit : Z;
  window : Z;
  identifier : string
}.

Inductive ConfigKey : Type := auth | stakeCreate | stakeGet | global.

Definition defaultRateLimits (configKey : ConfigKey) : RateLimitConfig :=
  match configKey with
  | auth => mkRateLimitConfig 10 60 "auth"
  | stakeCreate => mkRateLimitConfig 20 60 "stake:create"
  | stakeGet => mkRateLimitConfig 60 60 "stake:get"
  | global => mkRateLimitConfig 100 60 "global"
  end.

(** The Lua script, run by the service as one indivisible command.  It
    replies with [{count, exceeded}]. *)
Definition luaScript (key : string) (limit window : Z) (t : Z) (r : Redis)
    : option ((Z * Z) * Redis) :=
  match redis_get key t r with
  | None => None
  | Some current =>
      let count := match current with Some c => c | None => 0 end in
      if limit <=? count then Some ((count, 1), r)
      else
        match redis_incr key t r with
        | None => None
        | Some (count', r') =>
            Some ((count', 0),
                  if count' =? 1 then redis_expire key window t r' else r')
        end
  end.

(** The counter key: the user id is used only when it is truthy. *)
Definition rate_limit_key (ip : string) (userId : option Z)
    (config : RateLimitConfig) : string :=
  match userId with
  | Some uid =>
      if truthy_Z uid
      then "ratelimit:" +:+ identifier config +:+ ":user:" +:+ decimal uid
      else "ratelimit:" +:+ identifier config +:+ ":ip:" +:+ ip
  | None => "ratelimit:" +:+ identifier config +:+ ":ip:" +:+ ip
  end.

Definition checkRateLimit (ip : string) (userId : option Z)
    (config : RateLimitConfig) : M unit :=
  let key := rate_limit_key ip userId config in
  try_catch
    (let* result := redis_call (luaScript key (limit config) (window config)) in
     let exceeded := result.2 =? 1 in
     if exceeded
     then throw (RateLimitError ("Rate limit exceeded for " +:+ identifier config))
     else ret tt)
    (λ error,
       if instanceof_RateLimitError error then throw error
       else console_error "Error checking rate limit:").

(** The two headers of a request that [applyRateLimit] reads. *)
Record Request : Type := mkRequest {
  CF_Connecting_IP : option string;
  X_Forwarded_For : option string
}.

Definition client_ip (request : Request) : string :=
  or_else (CF_Connecting_IP request) (or_else (X_Forwarded_For request) "unknown").

Definition applyRateLimit (request : Request) (userId : option Z)
    (configKey : ConfigKey) : M unit :=
  let ip := client_ip request in
  let config := defaultRateLimits configKey in
  checkRateLimit ip userId (defaultRateLimits global) ;;
  checkRateLimit ip userId config.

(* ================================================================== *)
(** * [stake/service.ts] *)
(* ================================================================== *)

Record CreateStakeDto : Type := mkCreateStakeDto {
  dto_amount : Z;
  dto_period : Z
}.

Record PaginationDto : Type := mkPaginationDto {
  dto_page : option Z;
  dto_limit : option Z
}.

Record CreateResult : Type := mkCreateResult {
  success : bool;
  stakeId : number
}.

Record Item : Type := mkItem {
  item_id : number;
  item_amount : number;
  item_period : number
}.

Record StakesResult : Type := mkStakesResult {
  items : list Item;
  fromCache : bool
}.

Definition format_item (stake : Stake) : Item :=
  mkItem (s_id stake) (s_amount stake) (s_period stake).

Definition page_pattern_prefix (userId : Z) : string :=
  "user:" +:+ decimal userId +:+ ":stakes:page:".

Definition createStake (userId : Z) (createStakeDto : CreateStakeDto)
    : M CreateResult :=
  try_catch
    (DbService.init ;;
     let* dbStake :=
       DbService.createStake userId (dto_amount createStakeDto)
                             (dto_period createStakeDto) in
     cacheStake dbStake defaultCacheConfigs.stake ;;
     let counterKey := "user:" +:+ decimal userId +:+ ":stakes" in
     redis_call (redis_incr counterKey) ;;
     let* keys := redis_call (redis_keys (page_pattern_prefix userId)) in
     (if 0 <? Z.of_nat (length keys)
      then redis_call (λ _ r, Some (tt, redis_del keys r)) ;;
           console_log ("Invalidated " +:+ decimal (Z.of_nat (length keys))
                        +:+ " cached stake lists for user " +:+ decimal userId)
      else ret tt) ;;
     ret (mkCreateResult true (s_id dbStake)))
    (λ error,
       if instanceof_DatabaseError error then throw error
       else throw (PlainError "Failed to create stake. Please try again later.")).

Definition is_present (result : Cached) : bool :=
  match c_stake result with Some _ => true | None => false end.

(** The fast path of [getStakes]: the items to return when the cached
    page resolves completely and freshly, [None] to fall through. *)
Definition from_cached (cachedStakeIds : list string) (cachedStakes : list Cached)
    : option (list Item) :=
  let present := List.filter is_present cachedStakes in
  let needsRefresh := existsb isStale present in
  let stakes := omap c_stake present in
  if (length stakes =? length cachedStakeIds)%nat && negb needsRefresh
  then Some (format_item <$> stakes)
  else None.

Definition getStakes (userId : Z) (paginationDto : PaginationDto)
    : M StakesResult :=
  try_catch
    (let page := default 1 (dto_page paginationDto) in
     let limit := default 20 (dto_limit paginationDto) in
     let pageKey := page_key userId page limit in
     let* cachedStakeIds := redis_call (redis_lrange pageKey 0 (limit - 1)) in
     let* hit :=
       if 0 <? Z.of_nat (length cachedStakeIds) then
         let* cachedStakes :=
           mapM (λ id, getCachedStake id defaultCacheConfigs.stake)
                cachedStakeIds in
         ret (from_cached cachedStakeIds cachedStakes)
       else ret None in
     match hit with
     | Some items => ret (mkStakesResult items true)
     | None =>
         DbService.init ;;
         let* dbStakes := DbService.getStakes userId page limit in
         cacheStakes dbStakes userId page limit defaultCacheConfigs.stake ;;
         ret (mkStakesResult (format_item <$> dbStakes) false)
     end)
    (λ error,
       if instanceof_DatabaseError error then throw error
       else throw (PlainError "Failed to retrieve stakes. Please try again later.")).

(** Worlds to run the code in. *)
Definition initial_world : World :=
  mkWorld empty_redis empty_db 0 no_faults no_faults [].

Definition healthy (w : World) : Prop :=
  redis_faults w = no_faults ∧ db_faults w = no_faults.

(* ================================================================== *)
(** * Requests, validation and responses *)
(* ================================================================== *)

(** A JSON value, as [request.json()] hands it over.  Numbers are
    integers, as everywhere in this model. *)
#[warnings="-register-all"] Inductive Json : Type :=
  | JNull
  | JBool (b : bool)
  | JNumber (n : Z)
  | JString (s : string)
  | JArray (items : list Json)
  | JObject (fields : gmap string Json).

(** The name zod gives to the type of a value in its messages. *)
Definition zod_type (v : Json) : string :=
  match v with
  | JNull => "null"
  | JBool _ => "boolean"
  | JNumber _ => "number"
  | JString _ => "string"
  | JArray _ => "array"
  | JObject _ => "object"
  end.

Definition truthy_Json (v : Json) : bool :=
  match v with
  | JNull => false
  | JBool b => b
  | JNumber n => truthy_Z n
  | JString s => truthy_string s
  | JArray _ | JObject _ => true
  end.

(** What [Number(s)] can be, as far as the checks of the pagination
    schema can tell: a finite number that is not an integer is known by
    its floor. *)
Inductive JsNumber : Type :=
  | NaN
  | Integer (z : Z)
  | Fractional (floor : Z)
  | Infinite (negative : bool).

Definition isInteger (x : JsNumber) : bool :=
  match x with Integer _ => true | _ => false end.

(** [x > bound] and [x <= bound] for an integer [bound]. *)
Definition greater_than (bound : Z) (x : JsNumber) : bool :=
  match x with
  | NaN => false
  | Integer z => bound <? z
  | Fractional floor => bound <=? floor
  | Infinite negative => negb negative
  end.

Definition at_most (bound : Z) (x : JsNumber) : bool :=
  match x with
  | NaN => false
  | Integer z => z <=? bound
  | Fractional floor => floor <? bound
  | Infinite negative => negative
  end.

(** What the program takes from its host: the conversion of a string to
    a number, the text of the errors that the client libraries raise,
    and the two functions of the [jsonwebtoken] package, each of which
    can throw. *)
Class Host : Type := {
  Number_ : string → JsNumber;
  library_message : Error → string;
  (** [sign({sub, username}, secret, {expiresIn: '1h'})]: the token, or
      the message of the error it throws (on a missing secret, for
      one). *)
  jwt_sign : Z → string → string → string + string;
  jwt_verify : string → string → option Json
}.

(** ** Errors ([utils/errors.ts]) *)

(** What the route handlers catch: the application errors that are
    raised at their level, the [SyntaxError] of a body that is not JSON,
    and the errors that come up from the service functions. *)
Inductive Failure : Type :=
  | ValidationError (message : string) (errors : list string)
  | AuthenticationError (message : string)
  | AuthorizationError (message : string)
  | NotFoundError (message : string)
  | MethodNotAllowedError (message : string)
  | ExternalServiceError (message : string)
  | SyntaxError (message : string)
  | Raised (e : Error).

(** [error instanceof AppError], with the status code of the class. *)
Definition statusCode (f : Failure) : option Z :=
  match f with
  | ValidationError _ _ => Some 400
  | AuthenticationError _ => Some 401
  | AuthorizationError _ => Some 403
  | NotFoundError _ => Some 404
  | MethodNotAllowedError _ => Some 405
  | ExternalServiceError _ => Some 502
  | Raised (RateLimitError _) => Some 429
  | Raised (DatabaseError _) => Some 500
  | SyntaxError _ | Raised _ => None
  end.

Definition Failure_message `{Host} (f : Failure) : string :=
  match f with
  | ValidationError message _
  | AuthenticationError message
  | AuthorizationError message
  | NotFoundError message
  | MethodNotAllowedError message
  | ExternalServiceError message
  | SyntaxError message => message
  | Raised (RateLimitError message)
  | Raised (DatabaseError message)
  | Raised (PlainError message) => message
  | Raised RangeError => "Invalid time value"
  | Raised e => library_message e
  end.

(** The body of a response, before [JSON.stringify]. *)
Inductive Body : Type :=
  | CreatedBody (result : CreateResult)
  | StakesBody (result : StakesResult)
  | TokenBody (token : string)
  | ErrorBody (error : string) (errors : option (list string))
              (message : option string).

Record Response : Type := mkResponse {
  body : Body;
  status : Z;
  headers : list (string * string)
}.

Definition json_headers : list (string * string) :=
  [("Content-Type", "application/json")].

(** [handleError]: an application error gives its own status and
    message; anything else is logged and gives 500. *)
Definition handleError `{Host} (error : Failure) (w : World)
    : Response * World :=
  match statusCode error with
  | Some code =>
      match error with
      | ValidationError message errors =>
          (mkResponse (ErrorBody message (Some errors) None) code json_headers,
           w)
      | _ =>
          (mkResponse (ErrorBody (Failure_message error) None None) code
                      json_headers,
           w)
      end
  | None =>
      (mkResponse
         (ErrorBody "Internal server error" None
                    (Some (Failure_message error)))
         500 json_headers,
       emit (ConsoleError "Unexpected error:") w)
  end.

(** ** Computations of the route handlers *)

Inductive Attempt (A : Type) : Type :=
  | Done (a : A)
  | Failed (f : Failure).
Arguments Done {A} a.
Arguments Failed {A} f.

Definition Route (A : Type) : Type := World → Attempt A * World.

Definition resolve {A} (a : A) : Route A := λ w, (Done a, w).
Definition reject {A} (f : Failure) : Route A := λ w, (Failed f, w).

Definition andThen {A B} (m : Route A) (k : A → Route B) : Route B := λ w,
  match m w with
  | (Done a, w') => k a w'
  | (Failed f, w') => (Failed f, w')
  end.

(** A call of a function of the lower layers. *)
Definition await {A} (m : M A) : Route A := λ w,
  match m w with
  | (Ok a, w') => (Done a, w')
  | (Throw e, w') => (Failed (Raised e), w')
  end.

(** A function that returns or throws without touching the world. *)
Definition call {A} (r : Failure + A) : Route A :=
  match r with
  | inl f => reject f
  | inr a => resolve a
  end.

Notation "'let+' x ':=' m 'in' k" := (andThen m (λ x, k))
  (at level 10, x name, m at level 100, k at level 200).
Notation "m ;;; k" := (andThen m (λ _, k))
  (at level 100, k at level 200, right associativity).

(** ** Validation ([stake/validation.ts], [auth/validation.ts]) *)

Definition check (ok : bool) (message : string) : list string :=
  if ok then [] else [message].

(** The issues of a field, or its value. *)
Definition issues {A} (r : list string + A) : list string :=
  match r with inl l => l | inr _ => [] end.

(** [z.number({required_error, invalid_type_error})] followed by
    refinements, on a field that may be missing. *)
Definition z_number (required_error invalid_type_error : string)
    (refinements : Z → list string) (v : option Json) : list string + Z :=
  match v with
  | None => inl [required_error]
  | Some (JNumber n) =>
      match refinements n with
      | [] => inr n
      | found => inl found
      end
  | Some _ => inl [invalid_type_error]
  end.

(** [s.length]: the number of UTF-16 code units of a string, counted
    on its UTF-8 bytes.  A byte that starts a character of up to three
    bytes counts for one unit, one that starts a character of four
    bytes for two (a surrogate pair), and a continuation byte for
    none. *)
Fixpoint js_length (s : string) : nat :=
  match s with
  | EmptyString => O
  | String c s' =>
      let units :=
        if (128 <=? code c) && (code c <? 192) then 0%nat
        else if 240 <=? code c then 2%nat
        else 1%nat in
      (units + js_length s')%nat
  end.

(** [z.string({required_error, invalid_type_error}).min(n, message)]. *)
Definition z_string_min (required_error invalid_type_error : string)
    (n : nat) (message : string) (v : option Json) : list string + string :=
  match v with
  | None => inl [required_error]
  | Some (JString s) =>
      if (js_length s <? n)%nat then inl [message] else inr s
  | Some _ => inl [invalid_type_error]
  end.

(** [z.object({...}).parse(data)] on something that is not an object. *)
Definition expected_object (data : Json) : list string :=
  ["Expected object, received " +:+ zod_type data].

Definition createStakeSchema_parse (data : Json)
    : list string + CreateStakeDto :=
  match data with
  | JObject fields =>
      let amount :=
        z_number "Amount is required" "Amount must be a number"
          (λ n, check (0 <? n) "Amount must be a positive number")
          (fields !! "amount") in
      let period :=
        z_number "Period is required" "Period must be a number"
          (λ n, check (bool_decide (n ∈ [1; 3; 6; 12]))
                      "Period must be one of: 1, 3, 6, or 12 months")
          (fields !! "period") in
      match amount, period with
      | inr a, inr p => inr (mkCreateStakeDto a p)
      | _, _ => inl (issues amount ++ issues period)
      end
  | _ => inl (expected_object data)
  end.

Definition validateCreateStakeRequest (data : Json)
    : Failure + CreateStakeDto :=
  match createStakeSchema_parse data with
  | inr validated =>
      inr (mkCreateStakeDto (dto_amount validated) (dto_period validated))
  | inl errors => inl (ValidationError "Validation failed" errors)
  end.

Record AuthRequest : Type := mkAuthRequest {
  auth_username : string;
  auth_password : string
}.

Definition authSchema_parse (data : Json) : list string + AuthRequest :=
  match data with
  | JObject fields =>
      let username :=
        z_string_min "Username is required" "Username must be a string"
          3 "Username must be at least 3 characters long"
          (fields !! "username") in
      let password :=
        z_string_min "Password is required" "Password must be a string"
          6 "Password must be at least 6 characters long"
          (fields !! "password") in
      match username, password with
      | inr u, inr p => inr (mkAuthRequest u p)
      | _, _ => inl (issues username ++ issues password)
      end
  | _ => inl (expected_object data)
  end.

Definition validateAuthRequest (data : Json) : Failure + AuthRequest :=
  match authSchema_parse data with
  | inr validated => inr validated
  | inl errors => inl (ValidationError "Validation failed" errors)
  end.

(** [z.coerce.number({invalid_type_error}).int(..).positive(..)
    [.max(..)].default(d)]: a missing value stands for the default, any
    other is converted with [Number] and then checked. *)
Definition z_coerce_number `{Host} (invalid_type_error int_message
    positive_message : string) (max : option (Z * string)) (default : Z)
    (v : option string) : list string + Z :=
  let x := match v with
           | None => Integer default
           | Some s => Number_ s
           end in
  match x with
  | NaN => inl [invalid_type_error]
  | _ =>
      let found :=
        check (isInteger x) int_message
        ++ check (greater_than 0 x) positive_message
        ++ match max with
           | Some (bound, message) => check (at_most bound x) message
           | None => []
           end in
      match found, x with
      | [], Integer z => inr z
      | _, _ => inl found
      end
  end.

Record PaginationParams : Type := mkPaginationParams {
  params_page : Z;
  params_limit : Z
}.

Definition paginationSchema_parse `{Host} (page limit : option string)
    : list string + PaginationParams :=
  let page :=
    z_coerce_number "Page must be a number" "Page must be an integer"
      "Page must be a positive number" None 1 page in
  let limit :=
    z_coerce_number "Limit must be a number" "Limit must be an integer"
      "Limit must be a positive number"
      (Some (100, "Limit cannot exceed 100")) 20 limit in
  match page, limit with
  | inr p, inr l => inr (mkPaginationParams p l)
  | _, _ => inl (issues page ++ issues limit)
  end.

(** [value || undefined]. *)
Definition or_undefined (value : option string) : option string :=
  match value with
  | Some s => if truthy_string s then Some s else None
  | None => None
  end.

Definition validatePaginationParams `{Host} (params : gmap string string)
    : Failure + PaginationParams :=
  match paginationSchema_parse (or_undefined (params !! "page"))
                               (or_undefined (params !! "limit")) with
  | inr validated => inr validated
  | inl errors => inl (ValidationError "Validation failed" errors)
  end.

(** ** Users ([user/repository.ts]) *)

Record User : Type := mkUser {
  user_id : Z;
  username : string
}.

Definition users : list User := [mkUser 1 "testuser"].

(** [users.find(user => user.id === id)], for an [id] that can be any
    value or [undefined]. *)
Definition findUserById (id : option Json) : option User :=
  List.find (λ user, match id with
                     | Some (JNumber n) => user_id user =? n
                     | _ => false
                     end) users.

Definition findUserByUsername (name : string) : option User :=
  List.find (λ user, String.eqb (username user) name) users.

(** ** Tokens ([auth/jwt.ts]) *)

Definition generateToken `{Host} (user : User) (secret : string)
    : Failure + string :=
  match jwt_sign (user_id user) (username user) secret with
  | inr token => inr token
  | inl message => inl (Raised (PlainError message))
  end.

(** [verify] throws on a token it does not accept, and on a missing
    one; [verifyToken] turns the throw into [null]. *)
Definition verifyToken `{Host} (token : option string) (secret : string)
    : option Json :=
  token ≫= λ t, jwt_verify t secret.

(** ** Requests *)

Record Env : Type := mkEnv {
  JWT_SECRET : string
}.

(** The parts of a request that the handlers read: [json] is what
    [request.json()] gives, the message of a [SyntaxError] or the parsed
    body. *)
Record HttpRequest : Type := mkHttpRequest {
  method : string;
  origin : Request;
  Authorization : option string;
  json : string + Json;
  searchParams : list (string * string)
}.

Definition request_json (request : HttpRequest) : Route Json :=
  match json request with
  | inl message => reject (SyntaxError message)
  | inr data => resolve data
  end.

(** [Object.fromEntries(entries)]: a later entry overrides an earlier
    one of the same name. *)
Definition fromEntries (entries : list (string * string))
    : gmap string string :=
  list_to_map (reverse entries).

(** [s.split(sep)] for a separator of one character. *)
Fixpoint split (sep : ascii) (s : string) : list string :=
  match s with
  | EmptyString => [EmptyString]
  | String c s' =>
      if Ascii.eqb c sep then EmptyString :: split sep s'
      else match split sep s' with
           | [] => [String c EmptyString]
           | first :: rest => String c first :: rest
           end
  end.

(** ** [middleware/auth.ts] *)

Definition authenticate `{Host} (request : HttpRequest) (env : Env)
    : Failure + User :=
  match Authorization request with
  | Some authHeader =>
      if truthy_string authHeader && starts_with "Bearer " authHeader then
        let token := split " " authHeader !! 1%nat in
        match verifyToken token (JWT_SECRET env) with
        | Some payload =>
            if truthy_Json payload then
              let sub := match payload with
                         | JObject fields => fields !! "sub"
                         | _ => None
                         end in
              match findUserById sub with
              | Some user => inr user
              | None => inl (AuthenticationError "User not found")
              end
            else inl (AuthenticationError "Invalid or expired token")
        | None => inl (AuthenticationError "Invalid or expired token")
        end
      else inl (AuthenticationError "Missing or invalid Authorization header")
  | None => inl (AuthenticationError "Missing or invalid Authorization header")
  end.

(** ** The route handlers ([routes/stake.ts], [routes/auth.ts]) *)

Definition ok_response (b : Body) : Response := mkResponse b 200 json_headers.

Definition require_method (request : HttpRequest) (expected : string)
    : Route unit :=
  if negb (String.eqb (method request) expected)
  then reject (MethodNotAllowedError "Method not allowed")
  else resolve tt.

Definition handleStakePost `{Host} (request : HttpRequest) (user : User)
    : World → Response * World := λ w,
  let attempt :=
    await (console_log ("Creating stake for user " +:+ decimal (user_id user))) ;;;
    require_method request "POST" ;;;
    await (applyRateLimit (origin request) (Some (user_id user)) stakeCreate) ;;;
    let+ body := request_json request in
    let+ validatedData := call (validateCreateStakeRequest body) in
    let+ result := await (createStake (user_id user) validatedData) in
    resolve (ok_response (CreatedBody result)) in
  match attempt w with
  | (Done response, w') => (response, w')
  | (Failed error, w') =>
      handleError error (emit (ConsoleError "Error creating stake:") w')
  end.

Definition handleStakeGet `{Host} (request : HttpRequest) (user : User)
    : World → Response * World := λ w,
  let attempt :=
    await (console_log ("Retrieving stakes for user "
                        +:+ decimal (user_id user))) ;;;
    require_method request "GET" ;;;
    await (applyRateLimit (origin request) (Some (user_id user)) stakeGet) ;;;
    let params := fromEntries (searchParams request) in
    let+ validated := call (validatePaginationParams params) in
    let+ result :=
      await (getStakes (user_id user)
               (mkPaginationDto (Some (params_page validated))
                                (Some (params_limit validated)))) in
    resolve (ok_response (StakesBody result)) in
  match attempt w with
  | (Done response, w') => (response, w')
  | (Failed error, w') =>
      handleError error (emit (ConsoleError "Error retrieving stakes:") w')
  end.

Definition handleAuth `{Host} (request : HttpRequest) (env : Env)
    : World → Response * World := λ w,
  let attempt :=
    require_method request "POST" ;;;
    await (applyRateLimit (origin request) None auth) ;;;
    let+ body := request_json request in
    let+ credentials := call (validateAuthRequest body) in
    match findUserByUsername "testuser" with
    | Some user =>
        let+ token := call (generateToken user (JWT_SECRET env)) in
        resolve (ok_response (TokenBody token))
    | None => reject (AuthenticationError "Invalid credentials")
    end in
  match attempt w with
  | (Done response, w') => (response, w')
  | (Failed error, w') => handleError error w'
  end.

(** A host to run the handlers with: it reads decimal numerals, its
    tokens are the signed fields in clear, and it refuses to sign with
    an empty secret. *)
Definition decimal_host : Host := {|
  Number_ s := match numeral s with Some z => Integer z | None => NaN end;
  library_message _ := "";
  jwt_sign sub name secret :=
    if truthy_string secret
    then inr (secret +:+ "." +:+ decimal sub +:+ "." +:+ name)
    else inl "secretOrPrivateKey must have a value";
  jwt_verify token secret :=
    if String.eqb token (secret +:+ ".1.testuser")
    then Some (JObject {["sub" := JNumber 1]})
    else None
|}.

(* ================================================================== *)
(** * Vocabulary of the properties *)
(* ================================================================== *)

(** The count that the script works with after its [GET]: the stored
    number, or 0 when the key is absent. *)
Definition observed_count (r : Redis) (t : Z) (key : string) : Z :=
  match rget r t key with
  | Some (VInt c) => c
  | _ => 0
  end.

(** Every number stored under [key] is at most [bound]. *)
Definition count_bounded (bound : Z) (key : string) (r : Redis) : Prop :=
  ∀ c, rdata r !! key = Some (VInt c) → c ≤ bound.

(** A sequence of [checkRateLimit] calls for one counter; [delays] gives
    the time that passes before each call.  A call that throws counts as
    a step like any other. *)
Fixpoint run_checks (delays : list Z) (ip : string) (userId : option Z)
    (config : RateLimitConfig) (w : World) : World :=
  match delays with
  | [] => w
  | d :: delays' =>
      run_checks delays' ip userId config
        (checkRateLimit ip userId config (advance d w)).2
  end.

(** The message of the error that reports an exceeded limit. *)
Definition exceeded_error (config : RateLimitConfig) : Error :=
  RateLimitError ("Rate limit exceeded for " +:+ identifier config).

(** The subject part of a counter key. *)
Definition subject_key (ip : string) (userId : option Z) : string :=
  match userId with
  | Some uid => if truthy_Z uid then "user:" +:+ decimal uid else "ip:" +:+ ip
  | None => "ip:" +:+ ip
  end.

(** What a failed attempt of a database loop leaves in the trace before
    the next attempt starts, and the trace of [k] such attempts. *)
Definition failed_attempt (what : string) (attempt : Z) : list Event :=
  [ConsoleError (attempt_of_3 what attempt); Sleep (500 * attempt)].

Definition failed_attempts (what : string) (k : nat) : list Event :=
  mjoin ((λ i, failed_attempt what (Z.of_nat i)) <$> seq 1 k).

(** The time spent sleeping in a trace. *)
Fixpoint slept (tr : list Event) : Z :=
  match tr with
  | [] => 0
  | Sleep ms :: tr' => ms + slept tr'
  | _ :: tr' => slept tr'
  end.

(** The world after a database round trip that failed, and after the
    logging and the delay that follow a failed attempt. *)
Definition db_tick (w : World) : World :=
  set_db_faults (next_fault (db_faults w)).2 w.

Definition after_failed_attempt (what : string) (attempt : Z) (w : World)
    : World :=
  emit (Sleep (500 * attempt))
    (advance (500 * attempt)
       (emit (ConsoleError (attempt_of_3 what attempt)) (db_tick w))).

(** The world in which attempt [k + 1] starts. *)
Definition after_failed_attempts (what : string) (k : nat) (w : World)
    : World :=
  match k with
  | O => w
  | 1%nat => after_failed_attempt what 1 w
  | _ => after_failed_attempt what 2 (after_failed_attempt what 1 w)
  end.

(** A key that a hash command, or a list command, can be applied to. *)
Definition hash_or_nothing (v : option RVal) : Prop :=
  match v with
  | None | Some (VHash _) => True
  | Some _ => False
  end.

Definition list_or_nothing (v : option RVal) : Prop :=
  match v with
  | None | Some (VList _) => True
  | Some _ => False
  end.

Definition stake_key (stake : Stake) : string :=
  "stake:" +:+ toString (s_id stake).

Definition user_stakes_key (stake : Stake) : string :=
  "user:" +:+ toString (s_userId stake) +:+ ":stake_ids".

(** The store after the commands of one attempt of [cacheStake], issued
    at time [t], have all been answered; [None] if one of them is
    answered with an error. *)
Definition cached_store (stake : Stake) (config : CacheConfig)
    (created : string) (t : Z) (r : Redis) : option Redis :=
  let '(r1, ok) :=
    run_pipeline t
      [ HSET (stake_key stake) (stake_fields stake created (decimal t));
        EXPIRE (stake_key stake) (expiry_seconds config) ] r in
  if ok then
    match redis_lpos (user_stakes_key stake) (toString (s_id stake)) t r1 with
    | Some (None, _) =>
        snd <$> redis_lpush (user_stakes_key stake) (toString (s_id stake)) t r1
    | Some (Some _, _) => Some r1
    | None => None
    end
  else None.

(** A number that JavaScript holds exactly: [NaN], or a safe integer;
    and a stake whose numbers are all of that kind. *)
Definition exact (n : number) : bool :=
  match n with
  | Some z => isSafeInteger z
  | None => true
  end.

Definition exact_stake (stake : Stake) : bool :=
  exact (s_id stake) && exact (s_amount stake) && exact (s_period stake)
  && exact (s_userId stake).

(** The stake that a read rebuilds from the fields that [cacheStake]
    wrote: each number as JavaScript reads it back from its text. *)
Definition read_back (stake : Stake) : Stake :=
  mkStake (nearest_double <$> s_id stake) (nearest_double <$> s_amount stake)
          (nearest_double <$> s_period stake)
          (nearest_double <$> s_userId stake) (s_createdAt stake).

(** A computation respects a relation between worlds when the world it
    leaves is related to the one it started in, whatever its outcome. *)
Definition respects {A} (R : relation World) (m : M A) : Prop :=
  ∀ w, R w (m w).2.

(** The relations that serve as frames and invariants. *)
Definition same_db : relation World := λ w w', db w' = db w.
Definition same_redis : relation World := λ w w', redis w' = redis w.
Definition later : relation World := λ w w', now w ≤ now w'.
Definition keeps (I : Redis → Prop) : relation World :=
  λ w w', I (redis w) → I (redis w').

(** A relation that the bookkeeping of a world (trace, clock moving
    forward, fault schedules) cannot break. *)
Class Ambient (R : relation World) : Prop := {
  ambient_preorder :: PreOrder R;
  ambient_emit : ∀ e w, R w (emit e w);
  ambient_advance : ∀ ms w, 0 ≤ ms → R w (advance ms w);
  ambient_redis_faults : ∀ f w, R w (set_redis_faults f w);
  ambient_db_faults : ∀ f w, R w (set_db_faults f w)
}.

(** No key holds an empty list. *)
Definition no_empty_list (r : Redis) : Prop :=
  ∀ k, rdata r !! k ≠ Some (VList []).

(** A command that cannot leave an empty list behind. *)
Definition pushes_something (c : Command) : Prop :=
  match c with
  | RPUSH _ vs => vs ≠ []
  | _ => True
  end.

(** The ids of a cached page as [getStakes] reads them, and what
    [getCachedStake] finds under one id, when the commands are
    answered. *)
Definition cached_page (r : Redis) (t : Z) (userId page limit : Z)
    : list string :=
  match rget r t (page_key userId page limit) with
  | Some (VList l) => lrange_list l 0 (limit - 1)
  | _ => []
  end.

Definition cached_record (config : CacheConfig) (r : Redis) (t : Z)
    (id : string) : Cached :=
  match rget r t ("stake:" +:+ id) with
  | Some (VHash h) => read_cached config h t
  | _ => mkCached None false
  end.

(** Present and not stale. *)
Definition fresh (c : Cached) : bool := is_present c && negb (isStale c).

(** A cached page exists and every id of it resolves to a fresh record. *)
Definition page_hit (r : Redis) (t : Z) (userId page limit : Z) : bool :=
  let ids := cached_page r t userId page limit in
  (0 <? Z.of_nat (length ids))
  && forallb (λ id, fresh (cached_record defaultCacheConfigs.stake r t id)) ids.

(** The keys of the record cache hold values of the right kind. *)
Definition record_keys_typed (r : Redis) (t : Z) : Prop :=
  (∀ id, hash_or_nothing (rget r t ("stake:" +:+ id)))
  ∧ (∀ u, list_or_nothing (rget r t ("user:" +:+ u +:+ ":stake_ids"))).

(** The same, as a check on the stored entries: a key that starts with
    [stake:] holds a hash and a key of the form [user:...:stake_ids]
    holds a list. *)
Fixpoint is_suffix (s k : string) : bool :=
  String.eqb s k
  || match k with
     | EmptyString => false
     | String _ k' => is_suffix s k'
     end.

Definition typed_entry (k : string) (v : RVal) : bool :=
  (if starts_with "stake:" k
   then match v with VHash _ => true | _ => false end
   else true)
  && (if starts_with "user:" k && is_suffix ":stake_ids" k
      then match v with VList _ => true | _ => false end
      else true).

Definition cache_well_typed (r : Redis) : Prop :=
  map_Forall (λ k v, typed_entry k v = true) (rdata r).

(** Owner 7 has one stake, written when the clock read one second, and
    a cached first page, ten milliseconds old. *)
Definition world_with_cached_page : World :=
  let w1 :=
    (createStake 7 (mkCreateStakeDto 500 3) (advance 1000 initial_world)).2 in
  let w2 := (getStakes 7 (mkPaginationDto (Some 1) (Some 20)) w1).2 in
  advance 10 w2.

(** Apply a frame rule and find the instance it needs. *)
Ltac frame rule := apply rule; try exact _.

(** ** Further vocabulary *)

(** The outcomes of a sequence of [checkRateLimit] calls for one
    counter, each made [d] milliseconds after the one before. *)
Fixpoint check_outcomes (delays : list Z) (ip : string) (userId : option Z)
    (config : RateLimitConfig) (w : World) : list (Outcome unit) :=
  match delays with
  | [] => []
  | d :: delays' =>
      let run := checkRateLimit ip userId config (advance d w) in
      run.1 :: check_outcomes delays' ip userId config run.2
  end.

(** The time that a list of delays adds up to. *)
Definition total (delays : list Z) : Z := foldr Z.add 0 delays.

(** Key [k] holds the same value, with the same deadline, in both
    stores; and the same for the stores of two worlds. *)
Definition same_at (k : string) : relation Redis := λ r r',
  rdata r' !! k = rdata r !! k ∧ rexp r' !! k = rexp r !! k.

Definition untouched (k : string) : relation World := λ w w',
  same_at k (redis w) (redis w').

(** The keys that a queued command can write. *)
Definition command_keys (c : Command) : list string :=
  match c with
  | HSET k _ | EXPIRE k _ | RPUSH k _ => [k]
  | DEL ks => ks
  end.

(** No list of the store holds a value twice. *)
Definition ids_unique (r : Redis) : Prop :=
  ∀ k l, rdata r !! k = Some (VList l) → NoDup l.

(** The keys that [createStake] writes for an owner, besides the record
    of the new stake. *)
Definition counter_key (userId : Z) : string :=
  "user:" +:+ decimal userId +:+ ":stakes".

Definition stake_ids_key (userId : Z) : string :=
  "user:" +:+ decimal userId +:+ ":stake_ids".

(** A string without a colon. *)
Fixpoint no_colon (s : string) : bool :=
  match s with
  | EmptyString => true
  | String a s' => negb (Ascii.eqb a ":") && no_colon s'
  end.

(** The user a request is counted under: a missing or falsy id counts
    under the network origin. *)
Definition acting_user (userId : option Z) : option Z :=
  match userId with
  | Some uid => if truthy_Z uid then Some uid else None
  | None => None
  end.

(** The world after a round trip to the key-value service that failed. *)
Definition redis_tick (w : World) : World :=
  set_redis_faults (next_fault (redis_faults w)).2 w.



(** A computation whose throws all satisfy [P]. *)
Definition throws_only {A} (P : Error → Prop) (m : M A) : Prop :=
  ∀ w e w', m w = (Throw e, w') → P e.

(** Every key that belongs to an owner is [user:<id>:<rest>]. *)
Definition owner_key (userId : Z) (rest : string) : string :=
  "user:" +:+ decimal userId +:+ ":" +:+ rest.

(** A string without a space. *)
Fixpoint no_space (s : string) : bool :=
  match s with
  | EmptyString => true
  | String a s' => negb (Ascii.eqb a " ") && no_space s'
  end.

(** A cached record whose numbers are held as the numerals of
    integers, which is how [cacheStake] writes them. *)
Definition integral_field (h : gmap string string) (name : string) : bool :=
  match h !! name with
  | Some s => match json_integer s with Some _ => true | None => false end
  | None => true
  end.

Definition integral_record (v : RVal) : bool :=
  match v with
  | VHash h =>
      forallb (integral_field h)
              ["id"; "amount"; "period"; "userId"; "_cached_at"]
  | _ => true
  end.

Definition cache_holds_integers (r : Redis) : Prop :=
  map_Forall (λ _ v, integral_record v = true) (rdata r).

(* ================================================================== *)
(** * Basic facts *)
(* ================================================================== *)

Section strings.

Lemma append_cons (x : ascii) (p s : string) :
  String x p +:+ s = String x (p +:+ s).
Proof. reflexivity. Qed.

Lemma append_assoc (a b c : string) : (a +:+ b) +:+ c = a +:+ (b +:+ c).
Proof.
  induction a as [|x a IH]; [done |].
  by rewrite !append_cons, IH.
Qed.

Lemma starts_with_append (p s : string) : starts_with p (p +:+ s) = true.
Proof.
  induction p as [|x p IH]; [done |].
  rewrite append_cons. simpl. by rewrite Ascii.eqb_refl.
Qed.

Lemma to_int_not_nil (z : Z) (sign : uint → int) :
  (sign = Pos ∨ sign = Neg) → Z.to_int z ≠ sign Nil.
Proof.
  intros [-> | ->]; destruct z; simpl; try discriminate;
    intros [= H]; by apply Unsigned.to_uint_nonnil in H.
Qed.

(** Reading back a printed integer. *)
Lemma numeral_decimal (z : Z) : numeral (decimal z) = Some z.
Proof.
  unfold numeral, decimal.
  rewrite NilZero.isi; [| apply to_int_not_nil; auto ..].
  simpl. by rewrite DecimalZ.of_to.
Qed.

Lemma decimal_inj (a b : Z) : decimal a = decimal b → a = b.
Proof.
  intros H. apply (f_equal numeral) in H.
  rewrite !numeral_decimal in H. congruence.
Qed.

(** ** Reading back a printed integer *)

Section numerals.

Implicit Types (u : uint) (s : string) (c : ascii).

Lemma all_digits_string_of_uint u : all_digits (NilEmpty.string_of_uint u) = true.
Proof. induction u; simpl; try done; by rewrite IHu. Qed.

Lemma leading_digits_all s : all_digits s = true → leading_digits s = (s, "").
Proof.
  induction s as [|c s IH]; [done |]. simpl.
  intros [-> H]%andb_prop. by rewrite IH.
Qed.

Lemma digits_value_string_of_uint u :
  digits_value (NilEmpty.string_of_uint u) = Z.of_uint u.
Proof. unfold digits_value. by rewrite NilEmpty.usu. Qed.

Lemma is_digit_code c : is_digit c = true → 48 ≤ code c ≤ 57.
Proof. unfold is_digit. intros [?%Z.leb_le ?%Z.leb_le]%andb_prop. lia. Qed.

Lemma white_space3_ascii n a b : n < 128 → white_space3 n a b = false.
Proof.
  intros H. unfold white_space3.
  rewrite !(proj2 (Z.eqb_neq n _)) by lia. reflexivity.
Qed.

(** A string that starts with a printable ASCII character has no white
    space to skip. *)
Lemma trim_start_printable c s :
  32 < code c < 128 → trim_start (String c s) = String c s.
Proof.
  intros H. cbn [trim_start].
  rewrite (proj2 (Z.leb_gt (code c) 13)) by lia.
  rewrite (proj2 (Z.eqb_neq (code c) 32)) by lia.
  rewrite (proj2 (Z.eqb_neq (code c) 194)) by lia.
  rewrite andb_false_r. cbn [orb andb].
  destruct s as [|c2 [|c3 s3]]; [done | done |].
  by rewrite white_space3_ascii by lia.
Qed.

Lemma strip_sign_digit c s :
  is_digit c = true → strip_sign (String c s) = (false, String c s).
Proof.
  intros H%is_digit_code. unfold strip_sign.
  by rewrite !(proj2 (Z.eqb_neq (code c) _)) by lia.
Qed.

Lemma hex_prefix_digits s : all_digits s = true → hex_prefix s = None.
Proof.
  destruct s as [|c [|x s]]; try done. simpl.
  intros [_ [H%is_digit_code _]%andb_prop]%andb_prop.
  rewrite !(proj2 (Z.eqb_neq (code x) _)) by lia.
  by rewrite andb_false_r.
Qed.

(** [parseInt] and [parseFloat] on a string of digits, and on one with
    a minus sign before it. *)
Lemma parseInt_digits (negative : bool) s :
  all_digits s = true → s ≠ "" →
  parseInt ((if negative then "-" else "") +:+ s)
  = Some (nearest_double (signed negative (digits_value s))).
Proof.
  intros Hs Hne. destruct s as [|c s]; [done |].
  pose proof Hs as [Hc _]%andb_prop.
  pose proof (is_digit_code _ Hc) as Hcode.
  unfold parseInt.
  assert (strip_sign (trim_start ((if negative then "-" else "")
                                    +:+ String c s))
          = (negative, String c s)) as ->.
  { destruct negative.
    - change ("-" +:+ String c s) with (String "-" (String c s)).
      by rewrite trim_start_printable
        by (change (code "-") with 45; lia).
    - change ("" +:+ String c s) with (String c s).
      rewrite trim_start_printable by lia. by apply strip_sign_digit. }
  rewrite hex_prefix_digits, leading_digits_all by done. done.
Qed.

Lemma append_empty s : s +:+ "" = s.
Proof.
  induction s as [|c s IH]; [reflexivity |].
  change (String c s +:+ "") with (String c (s +:+ "")). by rewrite IH.
Qed.

Lemma parseFloat_digits (negative : bool) s :
  all_digits s = true → s ≠ "" →
  parseFloat ((if negative then "-" else "") +:+ s)
  = Some (nearest_double (signed negative (digits_value s))).
Proof.
  intros Hs Hne. destruct s as [|c s]; [done |].
  pose proof Hs as [Hc _]%andb_prop.
  pose proof (is_digit_code _ Hc) as Hcode.
  unfold parseFloat.
  assert (strip_sign (trim_start ((if negative then "-" else "")
                                    +:+ String c s))
          = (negative, String c s)) as ->.
  { destruct negative.
    - change ("-" +:+ String c s) with (String "-" (String c s)).
      by rewrite trim_start_printable
        by (change (code "-") with 45; lia).
    - change ("" +:+ String c s) with (String c s).
      rewrite trim_start_printable by lia. by apply strip_sign_digit. }
  rewrite leading_digits_all by done. cbn [fraction_part exponent_part].
  rewrite append_empty. cbn [String.length Z.of_nat].
  change (0 <=? 0 - 0) with true. cbv iota.
  by rewrite Z.pow_0_r, Z.mul_1_r.
Qed.

Lemma string_of_int_digits z :
  ∃ (negative : bool) s,
    decimal z = (if negative then "-" else "") +:+ s
    ∧ all_digits s = true ∧ s ≠ ""
    ∧ signed negative (digits_value s) = z.
Proof.
  unfold decimal. destruct z as [|p|p]; simpl.
  - by exists false, "0".
  - exists false, (NilEmpty.string_of_uint (Pos.to_uint p)).
    pose proof (Unsigned.to_uint_nonnil p) as Hnil.
    split; [by destruct (Pos.to_uint p) |].
    split; [apply all_digits_string_of_uint |].
    split; [by destruct (Pos.to_uint p) |].
    rewrite digits_value_string_of_uint. simpl.
    unfold Z.of_uint. by rewrite DecimalPos.Unsigned.of_to.
  - exists true, (NilEmpty.string_of_uint (Pos.to_uint p)).
    pose proof (Unsigned.to_uint_nonnil p) as Hnil.
    split; [by destruct (Pos.to_uint p) |].
    split; [apply all_digits_string_of_uint |].
    split; [by destruct (Pos.to_uint p) |].
    rewrite digits_value_string_of_uint. simpl.
    unfold Z.of_uint. by rewrite DecimalPos.Unsigned.of_to.
Qed.

(** Reading back a printed integer rounds it to the nearest double. *)
Lemma parseInt_decimal (z : Z) : parseInt (decimal z) = Some (nearest_double z).
Proof.
  destruct (string_of_int_digits z) as (negative & s & -> & Hs & Hne & <-).
  by apply parseInt_digits.
Qed.

Lemma parseFloat_decimal (z : Z) :
  parseFloat (decimal z) = Some (nearest_double z).
Proof.
  destruct (string_of_int_digits z) as (negative & s & -> & Hs & Hne & <-).
  by apply parseFloat_digits.
Qed.

Lemma nearest_double_safe z : isSafeInteger z = true → nearest_double z = z.
Proof.
  unfold isSafeInteger, MAX_SAFE_INTEGER, nearest_double.
  intros [?%Z.leb_le ?%Z.leb_le]%andb_prop.
  by rewrite (proj2 (Z.ltb_lt (Z.abs z) (2 ^ 53))) by lia.
Qed.

Lemma json_integer_decimal z : json_integer (decimal z) = Some z.
Proof. unfold json_integer. by rewrite numeral_decimal, String.eqb_refl. Qed.

Lemma deserialize_decimal z :
  deserialize (decimal z)
  = if isSafeInteger z then ReplyNumber z else ReplyString (decimal z).
Proof. unfold deserialize. by rewrite json_integer_decimal. Qed.

(** A value is handed back as a text that reads the same. *)
Lemma String_deserialize s : String_ (deserialize s) = s.
Proof.
  assert (String_ (if String.eqb s "null" then ReplyNull
                   else if String.eqb s "true" then ReplyBoolean true
                   else if String.eqb s "false" then ReplyBoolean false
                   else ReplyString s) = s) as Hliteral.
  { destruct (String.eqb s "null") eqn:E1;
      [symmetry; by apply String.eqb_eq |].
    destruct (String.eqb s "true") eqn:E2;
      [symmetry; by apply String.eqb_eq |].
    destruct (String.eqb s "false") eqn:E3;
      [symmetry; by apply String.eqb_eq |].
    reflexivity. }
  unfold deserialize, json_integer.
  destruct (numeral s) as [z|]; [| exact Hliteral].
  destruct (String.eqb (decimal z) s) eqn:E; [| exact Hliteral].
  apply String.eqb_eq in E. by destruct (isSafeInteger z).
Qed.

Lemma truthy_deserialize_decimal z :
  truthy_Reply (deserialize (decimal z))
  = if isSafeInteger z then truthy_Z z else true.
Proof.
  rewrite deserialize_decimal. destruct (isSafeInteger z); [done |].
  simpl. destruct (decimal z) eqn:E; [| done].
  pose proof (numeral_decimal z) as H. by rewrite E in H.
Qed.

End numerals.

Lemma decimal_truthy (z : Z) : truthy_string (decimal z) = true.
Proof.
  destruct (decimal z) eqn:E; [| done].
  pose proof (numeral_decimal z) as H. rewrite E in H. discriminate.
Qed.



End strings.

Section monad.

Context {A B : Type}.

Lemma bind_Ok (m : M A) (k : A → M B) w a w' :
  m w = (Ok a, w') → bind m k w = k a w'.
Proof. unfold bind. by intros ->. Qed.

Lemma bind_Throw (m : M A) (k : A → M B) w e w' :
  m w = (Throw e, w') → bind m k w = (Throw e, w').
Proof. unfold bind. by intros ->. Qed.

(** A sequence returns only if both of its parts did. *)
Lemma bind_Ok_inv (m : M A) (k : A → M B) w b w' :
  bind m k w = (Ok b, w') →
  ∃ a w1, m w = (Ok a, w1) ∧ k a w1 = (Ok b, w').
Proof.
  unfold bind. destruct (m w) as [[a|e] w1]; [eauto | discriminate].
Qed.

Lemma try_catch_Ok (m : M A) h w a w' :
  m w = (Ok a, w') → try_catch m h w = (Ok a, w').
Proof. unfold try_catch. by intros ->. Qed.

Lemma try_catch_Throw (m : M A) h w e w' :
  m w = (Throw e, w') → try_catch m h w = h e w'.
Proof. unfold try_catch. by intros ->. Qed.

End monad.

Lemma set_redis_faults_same w : set_redis_faults (redis_faults w) w = w.
Proof. by destruct w. Qed.

Lemma set_db_faults_same w : set_db_faults (db_faults w) w = w.
Proof. by destruct w. Qed.

(** A round trip on a fault-free schedule. *)
Lemma redis_call_healthy {A} (cmd : Z → Redis → option (A * Redis)) w :
  redis_faults w = no_faults →
  redis_call cmd w =
    match cmd (now w) (redis w) with
    | Some (a, r') => (Ok a, set_redis r' w)
    | None => (Throw RedisError, w)
    end.
Proof.
  intros H. unfold redis_call. rewrite H. simpl. rewrite <- H.
  rewrite set_redis_faults_same. by destruct (cmd _ _) as [[]|].
Qed.

Lemma pipeline_exec_healthy cs w :
  redis_faults w = no_faults →
  pipeline_exec cs w =
    let '(r', ok) := run_pipeline (now w) cs (redis w) in
    (if ok then Ok tt else Throw RedisError, set_redis r' w).
Proof.
  intros H. unfold pipeline_exec. rewrite H. simpl. rewrite <- H.
  by rewrite set_redis_faults_same.
Qed.

Lemma sql_call_healthy {A} (query : Z → Db → A * Db) w :
  db_faults w = no_faults →
  sql_call query w =
    let '(a, d') := query (now w) (db w) in (Ok a, set_db d' w).
Proof.
  intros H. unfold sql_call. rewrite H. simpl. rewrite <- H.
  by rewrite set_db_faults_same.
Qed.

(** A round trip that the schedule makes fail. *)
Lemma redis_call_fault {A} (cmd : Z → Redis → option (A * Redis)) w :
  (next_fault (redis_faults w)).1 = true →
  redis_call cmd w =
    (Throw RedisError, set_redis_faults (next_fault (redis_faults w)).2 w).
Proof.
  unfold redis_call. destruct (next_fault _) as [fail fs]. simpl. by intros ->.
Qed.

Lemma redis_call_reply {A} (cmd : Z → Redis → option (A * Redis)) w :
  (next_fault (redis_faults w)).1 = false →
  redis_call cmd w =
    let w1 := set_redis_faults (next_fault (redis_faults w)).2 w in
    match cmd (now w) (redis w) with
    | Some (a, r') => (Ok a, set_redis r' w1)
    | None => (Throw RedisError, w1)
    end.
Proof.
  unfold redis_call. destruct (next_fault _) as [fail fs]. simpl. by intros ->.
Qed.

(* ================================================================== *)
(** * The rate limiter *)
(* ================================================================== *)

Section rate_limit.

Variables (ip : string) (userId : option Z) (config : RateLimitConfig).

Let key := rate_limit_key ip userId config.

(** What [checkRateLimit] does with each reply of the round trip. *)
Lemma checkRateLimit_unfold w :
  checkRateLimit ip userId config w =
  match redis_call (luaScript key (limit config) (window config)) w with
  | (Ok result, w') =>
      if result.2 =? 1 then (Throw (exceeded_error config), w')
      else (Ok tt, w')
  | (Throw e, w') => (Ok tt, emit (ConsoleError "Error checking rate limit:") w')
  end.
Proof.
  unfold checkRateLimit, try_catch, bind. fold key.
  destruct (redis_call _ w) as [[result|e] w'] eqn:E.
  - destruct (result.2 =? 1); reflexivity.
  - assert (e = RedisError) as ->; [| reflexivity].
    unfold redis_call in E. destruct (next_fault _) as [[] fs];
      [congruence |].
    destruct (luaScript _ _ _ _ _) as [[]|]; congruence.
Qed.

(** Whatever the world, a throw of [checkRateLimit] is the
    rate-limit error of its own scope. *)
Lemma checkRateLimit_throws_only_exceeded w e w' :
  checkRateLimit ip userId config w = (Throw e, w') →
  e = exceeded_error config.
Proof.
  rewrite checkRateLimit_unfold.
  destruct (redis_call _ w) as [[result|e0] w1]; [| discriminate].
  destruct (result.2 =? 1); congruence.
Qed.

Lemma rate_limit_key_subject :
  key = "ratelimit:" +:+ identifier config +:+ ":" +:+ subject_key ip userId.
Proof.
  unfold key, rate_limit_key, subject_key.
  destruct userId as [uid|]; [destruct (truthy_Z uid) |]; reflexivity.
Qed.

End rate_limit.

(** C5.  When the counter store cannot be reached, or replies to the
    script with an error, [checkRateLimit] logs the error and returns
    normally, leaving both stores as they were; and in no world does it
    throw anything but the rate-limit error of its scope. *)
Theorem checkRateLimit_fails_open ip userId config w :
  (next_fault (redis_faults w)).1 = true
  ∨ luaScript (rate_limit_key ip userId config) (limit config) (window config)
              (now w) (redis w) = None →
  (∃ w', checkRateLimit ip userId config w = (Ok tt, w')
         ∧ trace w' = trace w ++ [ConsoleError "Error checking rate limit:"]
         ∧ redis w' = redis w ∧ db w' = db w ∧ now w' = now w)
  ∧ (∀ w0, match (checkRateLimit ip userId config w0).1 with
           | Ok _ => True
           | Throw e => e = exceeded_error config
           end).
Proof.
  intros Hfail. split.
  - rewrite checkRateLimit_unfold. unfold redis_call.
    destruct (next_fault (redis_faults w)) as [fail fs]. simpl in Hfail.
    destruct fail.
    + eexists. split; [reflexivity |]. by destruct w.
    + destruct Hfail as [? | ->]; [done |].
      eexists. split; [reflexivity |]. by destruct w.
  - intros w0. destruct (checkRateLimit ip userId config w0) as [[|e] w'] eqn:E;
      [done |]. simpl. by eapply checkRateLimit_throws_only_exceeded.
Qed.

Lemma checkRateLimit_fails_open_witness :
  ∃ w', checkRateLimit "203.0.113.7" (Some 1) (defaultRateLimits stakeCreate)
          (set_redis_faults always_failing initial_world) = (Ok tt, w')
        ∧ trace w' = [ConsoleError "Error checking rate limit:"].
Proof.
  destruct (checkRateLimit_fails_open "203.0.113.7" (Some 1)
              (defaultRateLimits stakeCreate)
              (set_redis_faults always_failing initial_world))
    as [(w' & Hrun & Htrace & _) _].
  - left. reflexivity.
  - exists w'. split; [exact Hrun | exact Htrace].
Defined.


(** ** The script, step by step *)

Section script.

Variables (key : string) (lim win : Z).

Lemma rget_rput r t k v k' :
  rget (rput r t k v) t k' = if decide (k = k') then Some v else rget r t k'.
Proof.
  unfold rget, rput, expired; simpl.
  destruct (decide (k = k')) as [<-|Hne].
  - rewrite lookup_insert_eq.
    destruct (rexp r !! k) as [d|] eqn:E; [| by rewrite E].
    destruct (d <? t) eqn:Hd.
    + by rewrite lookup_delete_eq.
    + by rewrite E, Hd.
  - rewrite lookup_insert_ne by done.
    destruct (match rexp r !! k with Some d => d <? t | None => false end);
      [by rewrite lookup_delete_ne |done].
Qed.

(** The reply when the limit is reached: exceeded, nothing written. *)
Lemma luaScript_exceeded t r cur :
  redis_get key t r = Some cur →
  lim ≤ observed_count r t key →
  luaScript key lim win t r = Some ((observed_count r t key, 1), r).
Proof.
  unfold luaScript, redis_get, observed_count.
  destruct (rget r t key) as [[c| |]|]; intros [= <-] Hle;
    by rewrite (proj2 (Z.leb_le _ _) Hle).
Qed.

(** The reply below the limit: the count goes up by one, and the
    deadline is set exactly when the new count is 1. *)
Lemma luaScript_increment t r cur :
  redis_get key t r = Some cur →
  observed_count r t key < lim →
  0 < win →
  ∃ r', luaScript key lim win t r = Some ((observed_count r t key + 1, 0), r')
        ∧ rget r' t key = Some (VInt (observed_count r t key + 1))
        ∧ rexp r' !! key =
            (if observed_count r t key + 1 =? 1 then Some (t + win * 1000)
             else rexp r !! key).
Proof.
  unfold luaScript, redis_get, redis_incr, observed_count.
  destruct (rget r t key) as [[c| |]|] eqn:Hget; intros [= <-] Hlt Hwin.
  - rewrite (proj2 (Z.leb_gt _ _) Hlt).
    destruct (c + 1 =? 1) eqn:Hc.
    + eexists. split; [reflexivity |]. unfold redis_expire.
      rewrite rget_rput, decide_True by done.
      rewrite (proj2 (Z.leb_gt _ _) Hwin).
      split; [| simpl; by rewrite lookup_insert_eq].
      unfold rget, expired; simpl. rewrite !lookup_insert_eq.
      by rewrite (proj2 (Z.ltb_ge _ _)) by lia.
    + eexists. split; [reflexivity |].
      rewrite rget_rput, decide_True by done. split; [done |].
      unfold rget in Hget. unfold rput. simpl.
      by destruct (expired r t key).
  - rewrite (proj2 (Z.leb_gt _ _) Hlt). simpl.
    eexists. split; [reflexivity |]. unfold redis_expire.
    rewrite rget_rput, decide_True by done.
    rewrite (proj2 (Z.leb_gt _ _) Hwin).
    split; [| simpl; by rewrite lookup_insert_eq].
    unfold rget, expired; simpl. rewrite !lookup_insert_eq.
    by rewrite (proj2 (Z.ltb_ge _ _)) by lia.
Qed.

Lemma count_bounded_rdel bound r k :
  count_bounded bound key r → count_bounded bound key (rdel r k).
Proof.
  intros H c. unfold rdel; simpl. rewrite lookup_delete.
  case_decide; [done | apply H].
Qed.

Lemma count_bounded_expire bound r k s t :
  count_bounded bound key r → count_bounded bound key (redis_expire k s t r).
Proof.
  intros H. unfold redis_expire.
  destruct (rget r t k); [| done].
  destruct (s <=? 0); [by apply count_bounded_rdel | done].
Qed.

(** Whatever the time and the window, the script keeps every stored
    count at or below the limit. *)
Lemma luaScript_bounded t r reply r' :
  count_bounded lim key r →
  luaScript key lim win t r = Some (reply, r') →
  count_bounded lim key r'.
Proof.
  intros Hb. unfold luaScript, redis_get, redis_incr.
  destruct (rget r t key) as [[c| |]|] eqn:Hget; try discriminate.
  - destruct (lim <=? c) eqn:Hle; intros [= <- <-]; [done |].
    apply Z.leb_gt in Hle.
    assert (count_bounded lim key (rput r t key (VInt (c + 1)))) as Hb'.
    { intros c'. unfold rput; simpl. rewrite lookup_insert_eq.
      intros [= <-]. lia. }
    destruct (c + 1 =? 1); [by apply count_bounded_expire | done].
  - destruct (lim <=? 0) eqn:Hle; intros [= <- <-]; [done |].
    apply Z.leb_gt in Hle.
    assert (count_bounded lim key (rput r t key (VInt 1))) as Hb'.
    { intros c'. unfold rput; simpl. rewrite lookup_insert_eq.
      intros [= <-]. lia. }
    simpl. by apply count_bounded_expire.
Qed.

End script.

Lemma checkRateLimit_bounded ip userId config w :
  count_bounded (limit config) (rate_limit_key ip userId config) (redis w) →
  count_bounded (limit config) (rate_limit_key ip userId config)
                (redis (checkRateLimit ip userId config w).2).
Proof.
  intros Hb. rewrite checkRateLimit_unfold. unfold redis_call.
  destruct (next_fault (redis_faults w)) as [[] fs]; [done |].
  destruct (luaScript _ _ _ _ _) as [[reply r']|] eqn:E; [| done].
  apply luaScript_bounded in E; [| done].
  by destruct (reply.2 =? 1).
Qed.

(** C2.  Starting from a counter that is within its limit, no sequence
    of checks, however spaced in time and whatever the faults of the
    round trips, stores a count above the limit.  A check whose round
    trip is answered and that observes a count at or above the limit
    throws the rate-limit error and leaves the store as it was; one that
    observes a smaller count returns, the count is one more, and the
    deadline of the counter is set, to the window, exactly when the new
    count is 1. *)
Theorem checkRateLimit_count_never_exceeds_limit ip userId config delays w :
  let key := rate_limit_key ip userId config in
  count_bounded (limit config) key (redis w) →
  0 < window config →
  count_bounded (limit config) key
    (redis (run_checks delays ip userId config w))
  ∧ ∀ w0 cur,
      (next_fault (redis_faults w0)).1 = false →
      redis_get key (now w0) (redis w0) = Some cur →
      let c := observed_count (redis w0) (now w0) key in
      let '(outcome, w1) := checkRateLimit ip userId config w0 in
      if limit config <=? c
      then outcome = Throw (exceeded_error config) ∧ redis w1 = redis w0
      else outcome = Ok tt
           ∧ rget (redis w1) (now w0) key = Some (VInt (c + 1))
           ∧ rexp (redis w1) !! key =
               (if c + 1 =? 1 then Some (now w0 + window config * 1000)
                else rexp (redis w0) !! key).
Proof.
  intros key Hb Hwin. split.
  - revert w Hb. induction delays as [|d delays IH]; intros w Hb; [done |].
    simpl. apply IH. by apply checkRateLimit_bounded.
  - intros w0 cur Hreach Hget c.
    rewrite checkRateLimit_unfold, redis_call_reply by done. fold key. simpl.
    destruct (limit config <=? c) eqn:Hle.
    + apply Z.leb_le in Hle.
      rewrite (luaScript_exceeded key _ _ _ _ cur) by done. simpl.
      split; [done | by destruct w0].
    + apply Z.leb_gt in Hle.
      destruct (luaScript_increment key _ _ _ _ cur Hget Hle Hwin)
        as (r' & -> & Hcount & Hexp).
      simpl. split; [done |]. split; [exact Hcount | exact Hexp].
Qed.

Lemma checkRateLimit_count_never_exceeds_limit_witness :
  count_bounded 10 "ratelimit:auth:ip:203.0.113.7"
    (redis (run_checks [0; 5; 5; 1000] "203.0.113.7" None
                       (defaultRateLimits auth) initial_world)).
Proof.
  apply (checkRateLimit_count_never_exceeds_limit
           "203.0.113.7" None (defaultRateLimits auth) [0; 5; 5; 1000]
           initial_world).
  - intros c H. vm_compute in H. discriminate.
  - reflexivity.
Defined.

(** Twelve checks against the limit of 10: the count stops at 10 and the
    last two checks are refused. *)
Example auth_limit_twelve_checks :
  let w := run_checks (replicate 11 0) "203.0.113.7" None
                      (defaultRateLimits auth) initial_world in
  rget (redis w) (now w) "ratelimit:auth:ip:203.0.113.7" = Some (VInt 10)
  ∧ rexp (redis w) !! "ratelimit:auth:ip:203.0.113.7" = Some 60000
  ∧ (checkRateLimit "203.0.113.7" None (defaultRateLimits auth) w).1
    = Throw (RateLimitError "Rate limit exceeded for auth").
Proof. vm_compute. done. Qed.

(** With both counters at their limits it is the global scope that is
    reported, and the endpoint counter is left alone; with only the
    endpoint counter at its limit, the endpoint scope is reported. *)
Example both_exceeded_reports_global :
  let r := mkRedis (<["ratelimit:global:user:1" := VInt 100]>
                      (<["ratelimit:stake:get:user:1" := VInt 60]> ∅)) ∅ in
  let w := set_redis r initial_world in
  applyRateLimit (mkRequest (Some "203.0.113.7") None) (Some 1) stakeGet w
  = (Throw (RateLimitError "Rate limit exceeded for global"), w).
Proof. vm_compute. done. Qed.

Example endpoint_exceeded_reports_endpoint :
  let r := mkRedis (<["ratelimit:global:user:1" := VInt 99]>
                      (<["ratelimit:stake:get:user:1" := VInt 60]> ∅)) ∅ in
  let w := set_redis r initial_world in
  (applyRateLimit (mkRequest (Some "203.0.113.7") None) (Some 1) stakeGet w).1
  = Throw (RateLimitError "Rate limit exceeded for stake:get").
Proof. vm_compute. done. Qed.

(* ================================================================== *)
(** * The backing-store client *)
(* ================================================================== *)

Lemma sql_call_fault {A} (query : Z → Db → A * Db) w :
  (next_fault (db_faults w)).1 = true →
  sql_call query w =
    (Throw SqlError, set_db_faults (next_fault (db_faults w)).2 w).
Proof.
  unfold sql_call. destruct (next_fault _) as [fail fs]. simpl. by intros ->.
Qed.

Lemma sql_call_reply {A} (query : Z → Db → A * Db) w :
  (next_fault (db_faults w)).1 = false →
  sql_call query w =
    let w1 := set_db_faults (next_fault (db_faults w)).2 w in
    let '(a, d') := query (now w) (db w) in (Ok a, set_db d' w1).
Proof.
  unfold sql_call. destruct (next_fault _) as [fail fs]. simpl. by intros ->.
Qed.

Section db_attempts.

Context {A : Type} (what final after : string) (body : M A).

Lemma db_attempts_returns n attempt w a w' :
  body w = (Ok a, w') →
  db_attempts (S n) attempt what final after body w = (Ok a, w').
Proof. intros H. simpl. by apply try_catch_Ok. Qed.

Lemma db_attempts_retries n attempt w e w' :
  body w = (Throw e, w') →
  attempt ≠ 3 →
  db_attempts (S n) attempt what final after body w =
  db_attempts n (attempt + 1) what final after body
    (emit (Sleep (500 * attempt))
       (advance (500 * attempt)
          (emit (ConsoleError (attempt_of_3 what attempt)) w'))).
Proof.
  intros H Hne. simpl. rewrite (try_catch_Throw _ _ _ _ _ H).
  unfold bind, console_error, sleep.
  by rewrite (proj2 (Z.eqb_neq _ _) Hne).
Qed.

Lemma db_attempts_gives_up n w e w' :
  body w = (Throw e, w') →
  db_attempts (S n) 3 what final after body w =
  (Throw (DatabaseError final), emit (ConsoleError (attempt_of_3 what 3)) w').
Proof. intros H. simpl. by rewrite (try_catch_Throw _ _ _ _ _ H). Qed.

(** The loop throws nothing but a [DatabaseError]. *)
Lemma db_attempts_throws n attempt w e w' :
  db_attempts n attempt what final after body w = (Throw e, w') →
  instanceof_DatabaseError e = true.
Proof.
  revert attempt w. induction n as [|n IH]; intros attempt w; simpl.
  - by intros [= <- _].
  - unfold try_catch. destruct (body w) as [[a|e0] w0]; [discriminate |].
    unfold bind, console_error.
    destruct (attempt =? 3); [by intros [= <- _] |].
    unfold sleep. apply IH.
Qed.

End db_attempts.

Section sql_loops.

Context {A : Type} (what final after : string) (body : M A).
Variables (result : World → A) (reply : World → World).

(** The body is a query followed by steps that do not consult the
    database again: on a faulted round trip it throws and only the
    schedule moves on. *)
Hypothesis body_fault : ∀ w,
  (next_fault (db_faults w)).1 = true → ∃ e, body w = (Throw e, db_tick w).

Hypothesis body_reply : ∀ w,
  (next_fault (db_faults w)).1 = false → body w = (Ok (result w), reply w).

Lemma db_attempts_after_fault n attempt w :
  (next_fault (db_faults w)).1 = true →
  attempt ≠ 3 →
  db_attempts (S n) attempt what final after body w =
  db_attempts n (attempt + 1) what final after body
    (after_failed_attempt what attempt w).
Proof.
  intros Hf Hne. destruct (body_fault w Hf) as [e He].
  by rewrite (db_attempts_retries _ _ _ _ _ _ _ _ _ He Hne).
Qed.

(** Three faulted round trips: the loop gives up after the third
    attempt. *)
Lemma db_attempts_exhausted w rest th :
  db_faults w = mkFaults (true :: true :: true :: rest) th →
  db_attempts 3 1 what final after body w =
  (Throw (DatabaseError final),
   emit (ConsoleError (attempt_of_3 what 3))
     (db_tick (after_failed_attempts what 2 w))).
Proof.
  intros Hf.
  rewrite db_attempts_after_fault by (by rewrite ?Hf).
  rewrite db_attempts_after_fault by (by simpl; rewrite ?Hf).
  destruct (body_fault (after_failed_attempts what 2 w)) as [e He].
  { simpl. by rewrite Hf. }
  exact (db_attempts_gives_up _ _ _ _ _ _ _ _ He).
Qed.

(** Fewer than three faulted round trips, then one that is answered:
    the loop returns what the body returns on that attempt. *)
Lemma db_attempts_succeeds k w rest th :
  (k < 3)%nat →
  db_faults w = mkFaults (replicate k true ++ false :: rest) th →
  db_attempts 3 1 what final after body w =
  (Ok (result (after_failed_attempts what k w)),
   reply (after_failed_attempts what k w)).
Proof.
  intros Hk Hf. destruct k as [|[|[|k]]]; [| | | lia]; simpl in Hf.
  - erewrite db_attempts_returns; [done |].
    apply body_reply. simpl. by rewrite Hf.
  - rewrite db_attempts_after_fault by (by rewrite ?Hf).
    erewrite db_attempts_returns; [done |].
    apply body_reply. simpl. by rewrite Hf.
  - rewrite db_attempts_after_fault by (by rewrite ?Hf).
    rewrite db_attempts_after_fault by (by simpl; rewrite ?Hf).
    erewrite db_attempts_returns; [done |].
    apply body_reply. simpl. by rewrite Hf.
Qed.

End sql_loops.

Lemma after_failed_attempts_spec what k w fs :
  (k < 3)%nat →
  pending (db_faults w) = replicate k true ++ fs →
  let w' := after_failed_attempts what k w in
  trace w' = trace w ++ failed_attempts what k
  ∧ now w' = now w + slept (failed_attempts what k)
  ∧ db w' = db w ∧ redis w' = redis w
  ∧ redis_faults w' = redis_faults w
  ∧ db_faults w' = mkFaults fs (thereafter (db_faults w)).
Proof.
  intros Hk Hf. destruct w as [r d t rf [p th] tr]. simpl in Hf. subst p.
  destruct k as [|[|[|k]]]; [| | | lia]; simpl;
    rewrite <- ?app_assoc, ?app_nil_r; simpl;
    repeat split; lia.
Qed.

(** The bodies of the insert and of the select. *)
Lemma createStake_body_fault userId amount period w :
  (next_fault (db_faults w)).1 = true →
  ∃ e, (let* result := sql_call (sql_insert amount period userId) in
        match result with
        | [] => throw (DatabaseError "Failed to create stake: No result returned")
        | row :: _ => ret (stake_of_row row)
        end) w = (Throw e, db_tick w).
Proof.
  intros H. exists SqlError. erewrite bind_Throw; [done |].
  by apply sql_call_fault.
Qed.

Lemma createStake_body_reply userId amount period w :
  (next_fault (db_faults w)).1 = false →
  (let* result := sql_call (sql_insert amount period userId) in
   match result with
   | [] => throw (DatabaseError "Failed to create stake: No result returned")
   | row :: _ => ret (stake_of_row row)
   end) w =
  (Ok (stake_of_row (mkRow (next_id (db w)) amount period userId (now w))),
   set_db (sql_insert amount period userId (now w) (db w)).2 (db_tick w)).
Proof.
  intros H. erewrite bind_Ok; [| by rewrite sql_call_reply]. reflexivity.
Qed.

Lemma getStakes_body_fault userId page limit w :
  (next_fault (db_faults w)).1 = true →
  ∃ e, (let* result :=
          sql_call (λ _ d, (sql_select userId limit ((page - 1) * limit) d, d)) in
        ret (stake_of_row <$> result)) w = (Throw e, db_tick w).
Proof.
  intros H. exists SqlError. erewrite bind_Throw; [done |].
  by apply sql_call_fault.
Qed.

Lemma getStakes_body_reply userId page limit w :
  (next_fault (db_faults w)).1 = false →
  (let* result :=
     sql_call (λ _ d, (sql_select userId limit ((page - 1) * limit) d, d)) in
   ret (stake_of_row <$> result)) w =
  (Ok (stake_of_row <$> sql_select userId limit ((page - 1) * limit) (db w)),
   db_tick w).
Proof.
  intros H. erewrite bind_Ok; [done |]. rewrite sql_call_reply by done.
  simpl. by destruct w.
Qed.

Lemma DbService_init_first_try w :
  (next_fault (db_faults w)).1 = false →
  DbService.init w =
  (Ok tt, emit (ConsoleLog "Database initialized successfully") (db_tick w)).
Proof.
  intros H. unfold DbService.init.
  erewrite db_attempts_returns; [reflexivity |].
  erewrite bind_Ok; [reflexivity |].
  rewrite sql_call_reply by done. simpl. by destruct w.
Qed.

Lemma db_tick_spec w b fs :
  pending (db_faults w) = b :: fs →
  trace (db_tick w) = trace w ∧ now (db_tick w) = now w
  ∧ db (db_tick w) = db w ∧ redis (db_tick w) = redis w
  ∧ redis_faults (db_tick w) = redis_faults w
  ∧ db_faults (db_tick w) = mkFaults fs (thereafter (db_faults w)).
Proof.
  intros H. destruct w as [r d t rf [p th] tr]. simpl in H. by subst p.
Qed.

Lemma DbService_createStake_exhausted userId amount period w rest th :
  db_faults w = mkFaults (true :: true :: true :: rest) th →
  DbService.createStake userId amount period w =
  (Throw (DatabaseError
            "Failed to create stake in database after multiple attempts"),
   emit (ConsoleError (attempt_of_3 "Error creating stake in database" 3))
     (db_tick (after_failed_attempts "Error creating stake in database" 2 w))).
Proof. apply db_attempts_exhausted, createStake_body_fault. Qed.

Lemma DbService_getStakes_exhausted userId page limit w rest th :
  db_faults w = mkFaults (true :: true :: true :: rest) th →
  DbService.getStakes userId page limit w =
  (Throw (DatabaseError
            "Failed to retrieve stakes from database after multiple attempts"),
   emit (ConsoleError (attempt_of_3 "Error retrieving stakes from database" 3))
     (db_tick
        (after_failed_attempts "Error retrieving stakes from database" 2 w))).
Proof. apply db_attempts_exhausted, getStakes_body_fault. Qed.

Lemma DbService_createStake_succeeds k userId amount period w rest th :
  (k < 3)%nat →
  db_faults w = mkFaults (replicate k true ++ false :: rest) th →
  let w' := after_failed_attempts "Error creating stake in database" k w in
  DbService.createStake userId amount period w =
  (Ok (stake_of_row (mkRow (next_id (db w')) amount period userId (now w'))),
   set_db (sql_insert amount period userId (now w') (db w')).2 (db_tick w')).
Proof.
  intros Hk Hf.
  apply (db_attempts_succeeds _ _ _ _ _ _
           (createStake_body_fault userId amount period)
           (createStake_body_reply userId amount period) k w rest th Hk Hf).
Qed.

Lemma DbService_getStakes_succeeds k userId page limit w rest th :
  (k < 3)%nat →
  db_faults w = mkFaults (replicate k true ++ false :: rest) th →
  let w' := after_failed_attempts "Error retrieving stakes from database" k w in
  DbService.getStakes userId page limit w =
  (Ok (stake_of_row <$> sql_select userId limit ((page - 1) * limit) (db w')),
   db_tick w').
Proof.
  intros Hk Hf.
  apply (db_attempts_succeeds _ _ _ _ _ _
           (getStakes_body_fault userId page limit)
           (getStakes_body_reply userId page limit) k w rest th Hk Hf).
Qed.

(** The service functions pass the store error on. *)
Lemma createStake_surfaces_store_error userId dto w rest th :
  db_faults w = mkFaults (false :: true :: true :: true :: rest) th →
  (createStake userId dto w).1
  = Throw (DatabaseError
             "Failed to create stake in database after multiple attempts").
Proof.
  intros Hf.
  pose proof (DbService_init_first_try w) as Hrun.
  rewrite Hf in Hrun. specialize (Hrun eq_refl).
  unfold createStake.
  erewrite try_catch_Throw; cycle 1.
  { rewrite (bind_Ok _ _ _ _ _ Hrun).
    eapply bind_Throw, DbService_createStake_exhausted.
    unfold db_tick. simpl. by rewrite Hf. }
  reflexivity.
Qed.

Lemma getStakes_surfaces_store_error userId page limit w rest th :
  db_faults w = mkFaults (false :: true :: true :: true :: rest) th →
  (next_fault (redis_faults w)).1 = false →
  rget (redis w) (now w) (page_key userId page limit) = None →
  (getStakes userId (mkPaginationDto (Some page) (Some limit)) w).1
  = Throw (DatabaseError
             "Failed to retrieve stakes from database after multiple attempts").
Proof.
  intros Hf Hreach Hmiss.
  unfold getStakes. cbn [default dto_page dto_limit].
  erewrite try_catch_Throw; cycle 1.
  { erewrite bind_Ok; cycle 1.
    { rewrite redis_call_reply by done. simpl. unfold redis_lrange.
      rewrite Hmiss. reflexivity. }
    cbv beta. change (0 <? Z.of_nat (length (@nil string))) with false.
    cbv iota. erewrite bind_Ok; [| reflexivity]. cbv beta iota.
    erewrite bind_Ok; cycle 1.
    { apply DbService_init_first_try. simpl. by rewrite Hf. }
    eapply bind_Throw, DbService_getStakes_exhausted.
    unfold db_tick. simpl. by rewrite Hf. }
  reflexivity.
Qed.

(** C8.  With [k] faulted round trips before one that is answered: for
    [k < 3] the insert and the select return on attempt [k + 1], after
    delays of 500 ms times the number of each failed attempt; for
    [k = 3] each gives up after exactly three attempts (the answered
    round trip is never made) with two delays, of 500 and 1000 ms, and
    throws a [DatabaseError], which the service functions [createStake]
    and [getStakes] pass on to their caller unchanged. *)
Theorem store_operations_retry_then_surface
    (k : nat) userId amount period page limit w rest th :
  (k ≤ 3)%nat →
  db_faults w = mkFaults (replicate k true ++ false :: rest) th →
  let log_create := "Error creating stake in database" in
  let log_list := "Error retrieving stakes from database" in
  let '(created, wc) := DbService.createStake userId amount period w in
  let '(listed, wl) := DbService.getStakes userId page limit w in
  let w_init := set_db_faults (mkFaults (false :: pending (db_faults w)) th) w in
  if (k <? 3)%nat then
    created = Ok (stake_of_row
                    (mkRow (next_id (db w)) amount period userId
                           (now w + slept (failed_attempts log_create k))))
    ∧ listed = Ok (stake_of_row <$>
                     sql_select userId limit ((page - 1) * limit) (db w))
    ∧ trace wc = trace w ++ failed_attempts log_create k
    ∧ trace wl = trace w ++ failed_attempts log_list k
    ∧ db_faults wc = mkFaults rest th
    ∧ db_faults wl = mkFaults rest th
  else
    created = Throw (DatabaseError
                "Failed to create stake in database after multiple attempts")
    ∧ listed = Throw (DatabaseError
                "Failed to retrieve stakes from database after multiple attempts")
    ∧ trace wc = trace w ++ failed_attempts log_create 2
                         ++ [ConsoleError (attempt_of_3 log_create 3)]
    ∧ trace wl = trace w ++ failed_attempts log_list 2
                         ++ [ConsoleError (attempt_of_3 log_list 3)]
    ∧ db wc = db w ∧ db wl = db w
    ∧ db_faults wc = mkFaults (false :: rest) th
    ∧ db_faults wl = mkFaults (false :: rest) th
    ∧ (createStake userId (mkCreateStakeDto amount period) w_init).1
      = Throw (DatabaseError
                 "Failed to create stake in database after multiple attempts")
    ∧ ((next_fault (redis_faults w)).1 = false →
       rget (redis w) (now w) (page_key userId page limit) = None →
       (getStakes userId (mkPaginationDto (Some page) (Some limit)) w_init).1
       = Throw (DatabaseError
           "Failed to retrieve stakes from database after multiple attempts")).
Proof.
  intros Hk Hf log_create log_list.
  destruct (k <? 3)%nat eqn:Hlt.
  - apply Nat.ltb_lt in Hlt.
    rewrite (DbService_createStake_succeeds k _ _ _ w rest th Hlt Hf).
    rewrite (DbService_getStakes_succeeds k _ _ _ w rest th Hlt Hf).
    destruct (after_failed_attempts_spec log_create k w (false :: rest) Hlt)
      as (Htr & Hnow & Hdb & _ & _ & Hfs); [by rewrite Hf |].
    destruct (after_failed_attempts_spec log_list k w (false :: rest) Hlt)
      as (Htr' & _ & Hdb' & _ & _ & Hfs'); [by rewrite Hf |].
    rewrite Hf in Hfs, Hfs'. simpl in Hfs, Hfs'.
    fold log_create log_list.
    rewrite Hnow, Hdb, Hdb'. simpl.
    by rewrite Htr, Htr', Hfs, Hfs'.
  - assert (k = 3%nat) as -> by (apply Nat.ltb_ge in Hlt; lia).
    simpl in Hf.
    rewrite (DbService_createStake_exhausted _ _ _ _ _ _ Hf).
    rewrite (DbService_getStakes_exhausted _ _ _ _ _ _ Hf).
    fold log_create log_list. lazy beta iota zeta.
    repeat match goal with |- _ ∧ _ => split end.
    1-8: simpl; rewrite ?Hf, <- ?app_assoc; by simpl.
    + eapply createStake_surfaces_store_error. simpl. by rewrite Hf.
    + intros Hreach Hmiss.
      eapply getStakes_surfaces_store_error; [| done ..]. simpl. by rewrite Hf.
Qed.

Lemma store_operations_retry_then_surface_witness :
  let w := set_db_faults (mkFaults [true; true; true; false] false)
                         initial_world in
  (DbService.createStake 1 1000 12 w).1
  = Throw (DatabaseError
             "Failed to create stake in database after multiple attempts")
  ∧ (DbService.getStakes 1 1 20 w).1
    = Throw (DatabaseError
             "Failed to retrieve stakes from database after multiple attempts").
Proof.
  intros w.
  pose proof (store_operations_retry_then_surface 3 1 1000 12 1 20 w [] false)
    as H.
  destruct (DbService.createStake 1 1000 12 w) as [created wc].
  destruct (DbService.getStakes 1 1 20 w) as [listed wl].
  simpl in H. destruct H as (Hc & Hl & _); [lia | reflexivity |].
  split; assumption.
Defined.

(** One failed round trip, then an answer: the insert returns on the
    second attempt, half a second later. *)
Example createStake_second_attempt :
  let w := set_db_faults (mkFaults [true] false) initial_world in
  let '(created, w') := DbService.createStake 7 250 3 w in
  created = Ok (mkStake (Some 1) (Some 250) (Some 3) (Some 7) (Some 500))
  ∧ trace w' = [ConsoleError "Error creating stake in database (attempt 1/3):";
                Sleep 500]
  ∧ rows (db w') = [mkRow 1 250 3 7 500].
Proof. vm_compute. done. Qed.

(* ================================================================== *)
(** * The record cache *)
(* ================================================================== *)

(** The cache loops absorb every failure of their body. *)
Lemma cache_attempts_never_throws {A} n attempt what final (fallback : A) body w :
  ∃ a w', cache_attempts n attempt what final fallback body w = (Ok a, w').
Proof.
  revert attempt w. induction n as [|n IH]; intros attempt w; simpl.
  - by eexists _, _.
  - unfold try_catch. destruct (body w) as [[a|e] w0]; [by eexists _, _ |].
    unfold bind, console_error.
    destruct (attempt =? MAX_CACHE_RETRIES); [by eexists _, _ |].
    unfold sleep. apply IH.
Qed.

Lemma cacheStake_never_throws stake config w :
  ∃ w', cacheStake stake config w = (Ok tt, w').
Proof.
  destruct (cache_attempts_never_throws
              (Z.to_nat (MAX_CACHE_RETRIES + 1)) 0
              "Error caching stake"
              "Failed to cache stake after multiple attempts:" tt
              (let* created := toISOString (s_createdAt stake) in
               let* t := Date_now in
               pipeline_exec
                 [ HSET ("stake:" +:+ toString (s_id stake))
                        (stake_fields stake created (decimal t));
                   EXPIRE ("stake:" +:+ toString (s_id stake))
                          (expiry_seconds config) ] ;;
               let* exists_ :=
                 redis_call (redis_lpos
                   ("user:" +:+ toString (s_userId stake) +:+ ":stake_ids")
                   (toString (s_id stake))) in
               match exists_ with
               | None =>
                   redis_call (redis_lpush
                     ("user:" +:+ toString (s_userId stake) +:+ ":stake_ids")
                     (toString (s_id stake)))
               | Some _ => ret tt
               end) w) as ([] & w' & H).
  by exists w'.
Qed.

(** C1 (the code departs from it).  The insert succeeds and every
    command sent to the cache fails: [cacheStake] absorbs its three
    failed attempts, but the counter increment that follows is awaited
    outside any handler of its own, so [createStake] throws a plain
    error although the row is in the table. *)
Theorem createStake_fails_when_cache_is_down :
  let w := set_redis_faults always_failing initial_world in
  let '(outcome, w') := createStake 1 (mkCreateStakeDto 1000 12) w in
  outcome = Throw (PlainError "Failed to create stake. Please try again later.")
  ∧ rows (db w') = [mkRow 1 1000 12 1 0]
  ∧ trace w' = [ConsoleLog "Database initialized successfully";
                ConsoleError "Error caching stake (attempt 1/3):"; Sleep 200;
                ConsoleError "Error caching stake (attempt 2/3):"; Sleep 400;
                ConsoleError "Error caching stake (attempt 3/3):";
                ConsoleError "Failed to cache stake after multiple attempts:"].
Proof. vm_compute. done. Qed.

(** The same happens in every world: once the insert has returned, a
    failure of the increment alone makes the request fail. *)
Lemma createStake_fails_when_incr_fails userId dto w w1 w2 w3 dbStake :
  DbService.init w = (Ok tt, w1) →
  DbService.createStake userId (dto_amount dto) (dto_period dto) w1
    = (Ok dbStake, w2) →
  cacheStake dbStake defaultCacheConfigs.stake w2 = (Ok tt, w3) →
  (next_fault (redis_faults w3)).1 = true →
  (createStake userId dto w).1
  = Throw (PlainError "Failed to create stake. Please try again later.").
Proof.
  intros Hinit Hdb Hcache Hfail. unfold createStake.
  erewrite try_catch_Throw; cycle 1.
  { rewrite (bind_Ok _ _ _ _ _ Hinit), (bind_Ok _ _ _ _ _ Hdb).
    rewrite (bind_Ok _ _ _ _ _ Hcache).
    eapply bind_Throw. by apply redis_call_fault. }
  reflexivity.
Qed.

Section redis_frames.

Implicit Types (r : Redis) (k : string) (t : Z).

Lemma rget_rput_ne r t k v t' k' :
  k ≠ k' → rget (rput r t k v) t' k' = rget r t' k'.
Proof.
  intros Hne. unfold rget, rput, expired; simpl.
  rewrite lookup_insert_ne by done.
  destruct (match rexp r !! k with Some d => d <? t | None => false end);
    [by rewrite lookup_delete_ne | done].
Qed.

Lemma rget_rdel r k t' k' :
  rget (rdel r k) t' k' = if decide (k = k') then None else rget r t' k'.
Proof.
  unfold rget, rdel, expired; simpl. rewrite !lookup_delete.
  destruct (decide (k = k')); [| done].
  by destruct (decide (k = k')).
Qed.

Lemma rget_expire_ne r k seconds t t' k' :
  k ≠ k' → rget (redis_expire k seconds t r) t' k' = rget r t' k'.
Proof.
  intros Hne. unfold redis_expire.
  destruct (rget r t k); [| done].
  destruct (seconds <=? 0).
  - by rewrite rget_rdel, decide_False.
  - unfold rget, expired; simpl. by rewrite lookup_insert_ne.
Qed.

(** A key with a deadline is seen until the deadline has passed. *)
Lemma rget_deadline r k v deadline t' :
  rdata r !! k = Some v →
  rexp r !! k = Some deadline →
  rget r t' k = if deadline <? t' then None else Some v.
Proof. intros Hv Hd. unfold rget, expired. rewrite Hd. by destruct (_ <? _). Qed.

(** The two commands that [cacheStake] queues, on a key that holds a hash
    or nothing. *)
Lemma put_pipeline r t k fields seconds :
  hash_or_nothing (rget r t k) →
  0 < seconds →
  ∃ h, run_pipeline t [HSET k fields; EXPIRE k seconds] r
       = (mkRedis (<[k := VHash (fields ∪ h)]> (rdata r))
                  (<[k := t + seconds * 1000]> (rexp r)), true).
Proof.
  intros Hty Hsec. simpl. unfold redis_hset.
  assert (∀ v, redis_expire k seconds t (rput r t k v)
               = mkRedis (<[k := v]> (rdata r))
                         (<[k := t + seconds * 1000]> (rexp r))) as Hexp.
  { intros v. unfold redis_expire. rewrite rget_rput, decide_True by done.
    rewrite (proj2 (Z.leb_gt _ _) Hsec). unfold rput; simpl. f_equal.
    destruct (expired r t k); [by rewrite insert_delete_eq | done]. }
  destruct (rget r t k) as [[| |h]|]; try done.
  - exists h. by rewrite Hexp.
  - exists ∅. by rewrite Hexp, (right_id_L ∅ (∪)).
Qed.

End redis_frames.

Lemma stake_key_ne_user_key a b : "stake:" +:+ a ≠ "user:" +:+ b.
Proof. rewrite !append_cons. discriminate. Qed.

Lemma cache_attempts_returns {A} n attempt what final (fallback : A) body w a w' :
  body w = (Ok a, w') →
  cache_attempts (S n) attempt what final fallback body w = (Ok a, w').
Proof. intros H. simpl. by apply try_catch_Ok. Qed.

Lemma set_redis_set_redis r r' w : set_redis r (set_redis r' w) = set_redis r w.
Proof. reflexivity. Qed.

Lemma redis_lpos_reads k v t r x r' :
  redis_lpos k v t r = Some (x, r') → r' = r.
Proof.
  unfold redis_lpos. destruct (rget r t k) as [[| |]|]; congruence.
Qed.

(** On a fault-free schedule [cacheStake] is done after one attempt. *)
Lemma cacheStake_healthy stake config created w r' :
  redis_faults w = no_faults →
  s_createdAt stake = Some created →
  cached_store stake config (decimal created) (now w) (redis w) = Some r' →
  cacheStake stake config w = (Ok tt, set_redis r' w).
Proof.
  intros Hw Hcreated. unfold cached_store, cacheStake.
  fold (stake_key stake) (user_stakes_key stake).
  change (Z.to_nat (MAX_CACHE_RETRIES + 1)) with 3%nat.
  destruct (run_pipeline _ _ _) as [r1 ok] eqn:Hpipe.
  destruct ok; [| discriminate].
  intros Hrest.
  erewrite cache_attempts_returns; [reflexivity |].
  rewrite Hcreated. simpl toISOString.
  erewrite bind_Ok; [| reflexivity].
  erewrite bind_Ok; [| reflexivity].
  erewrite bind_Ok; cycle 1.
  { rewrite pipeline_exec_healthy by done. rewrite Hpipe. reflexivity. }
  destruct (redis_lpos _ _ _ r1) as [[[i|] r2]|] eqn:Hpos; [| | discriminate].
  - injection Hrest as <-.
    erewrite bind_Ok; cycle 1.
    { rewrite redis_call_healthy by done. simpl. rewrite Hpos. reflexivity. }
    by rewrite (redis_lpos_reads _ _ _ _ _ _ Hpos).
  - destruct (redis_lpush _ _ _ r1) as [[[] r3]|] eqn:Hpush; [| discriminate].
    injection Hrest as <-.
    erewrite bind_Ok; cycle 1.
    { rewrite redis_call_healthy by done. simpl. rewrite Hpos. reflexivity. }
    rewrite (redis_lpos_reads _ _ _ _ _ _ Hpos).
    rewrite redis_call_healthy by done. simpl. by rewrite Hpush.
Qed.

(** What the store holds after a run of [cached_store]. *)
Lemma cached_store_spec stake config created t r :
  hash_or_nothing (rget r t (stake_key stake)) →
  list_or_nothing (rget r t (user_stakes_key stake)) →
  0 < expiry_seconds config →
  ∃ h r',
    cached_store stake config created t r = Some r'
    ∧ rdata r' !! stake_key stake
      = Some (VHash (stake_fields stake created (decimal t) ∪ h))
    ∧ rexp r' !! stake_key stake = Some (t + expiry_seconds config * 1000)
    ∧ list_or_nothing (rget r' t (user_stakes_key stake))
    ∧ ∀ k t', k ≠ stake_key stake → k ≠ user_stakes_key stake →
              rget r' t' k = rget r t' k.
Proof.
  intros Hhash Hlist Hsec. unfold cached_store.
  destruct (put_pipeline r t (stake_key stake)
              (stake_fields stake created (decimal t))
              (expiry_seconds config) Hhash Hsec) as [h ->].
  set (r1 := mkRedis _ _).
  assert (Hne : stake_key stake ≠ user_stakes_key stake)
    by apply stake_key_ne_user_key.
  assert (Hr1 : ∀ t' k, stake_key stake ≠ k → rget r1 t' k = rget r t' k).
  { intros t' k Hk. unfold rget, expired, r1; simpl.
    by rewrite !lookup_insert_ne. }
  assert (Hd1 : rdata r1 !! stake_key stake
                = Some (VHash (stake_fields stake created (decimal t) ∪ h)))
    by (unfold r1; simpl; apply lookup_insert_eq).
  assert (He1 : rexp r1 !! stake_key stake
                = Some (t + expiry_seconds config * 1000))
    by (unfold r1; simpl; apply lookup_insert_eq).
  assert (Hput : ∀ v,
    let r' := rput r1 t (user_stakes_key stake) v in
    rdata r' !! stake_key stake = rdata r1 !! stake_key stake
    ∧ rexp r' !! stake_key stake = rexp r1 !! stake_key stake
    ∧ rget r' t (user_stakes_key stake) = Some v
    ∧ ∀ k t', k ≠ stake_key stake → k ≠ user_stakes_key stake →
              rget r' t' k = rget r t' k).
  { intros v r'. repeat split.
    - unfold r', rput; simpl. by rewrite lookup_insert_ne.
    - unfold r', rput; simpl.
      destruct (expired r1 t _); [by rewrite lookup_delete_ne | done].
    - unfold r'. by rewrite rget_rput, decide_True.
    - intros k t' Hk1 Hk2. unfold r'.
      rewrite rget_rput_ne, Hr1 by done. done. }
  exists h. unfold redis_lpos, redis_lpush. rewrite Hr1 by done.
  destruct (rget r t (user_stakes_key stake)) as [[|l|]|] eqn:Hu; try done.
  - destruct (index_of _ l) as [i|].
    + exists r1. repeat split; try done.
      * by rewrite Hr1, Hu.
      * intros k t' Hk1 Hk2. by apply Hr1.
    + simpl. eexists. split; [reflexivity |].
      destruct (Hput (VList (toString (s_id stake) :: l))) as (-> & -> & -> & ?).
      done.
  - simpl. eexists. split; [reflexivity |].
    destruct (Hput (VList [toString (s_id stake)])) as (-> & -> & -> & ?).
    done.
Qed.

Lemma parseInt_toString (n : number) :
  parseInt (toString n) = nearest_double <$> n.
Proof. destruct n as [z|]; [apply parseInt_decimal | reflexivity]. Qed.

Lemma parseFloat_toString (n : number) :
  parseFloat (toString n) = nearest_double <$> n.
Proof. destruct n as [z|]; [apply parseFloat_decimal | reflexivity]. Qed.

Lemma read_back_exact stake : exact_stake stake = true → read_back stake = stake.
Proof.
  unfold exact_stake, read_back.
  intros [[[Hid Hamount]%andb_prop Hperiod]%andb_prop Huser]%andb_prop.
  destruct stake as [[id|] [amount|] [period|] [user|] created];
    simpl in *; by rewrite ?nearest_double_safe.
Qed.

Lemma stake_fields_lookup stake created cached_at :
  let f := stake_fields stake created cached_at in
  f !! "id" = Some (toString (s_id stake))
  ∧ f !! "amount" = Some (toString (s_amount stake))
  ∧ f !! "period" = Some (toString (s_period stake))
  ∧ f !! "userId" = Some (toString (s_userId stake))
  ∧ f !! "createdAt" = Some created
  ∧ f !! "_cached_at" = Some cached_at.
Proof. repeat split; reflexivity. Qed.

(** Reading back what [cacheStake] wrote, whatever else the hash held:
    the record is judged stale when the time it was written at is
    truthy and lies more than [ttl] seconds back. *)
Lemma read_cached_put stake created cached_at config h t :
  s_createdAt stake = Some created →
  staleWhileRevalidate config = true →
  read_cached config
    (stake_fields stake (decimal created) (decimal cached_at) ∪ h) t
  = mkCached (Some (read_back stake))
             (truthy_Z cached_at
              && (ttl config * 1000 <? t - nearest_double cached_at)).
Proof.
  intros Hcreated Hswr.
  destruct (stake_fields_lookup stake (decimal created) (decimal cached_at))
    as (Hid & Ham & Hpe & Hus & Hcr & Hca).
  unfold read_cached.
  destruct (decide _) as [Hempty|_].
  { apply (f_equal (λ m : gmap string string, m !! "id")) in Hempty.
    rewrite (lookup_union_Some_l _ _ _ _ Hid), lookup_empty in Hempty.
    discriminate. }
  rewrite (lookup_union_Some_l _ _ _ _ Hid), (lookup_union_Some_l _ _ _ _ Ham),
    (lookup_union_Some_l _ _ _ _ Hpe), (lookup_union_Some_l _ _ _ _ Hus),
    (lookup_union_Some_l _ _ _ _ Hcr), (lookup_union_Some_l _ _ _ _ Hca).
  cbn [fmap option_fmap option_map parseIntField parseFloatField new_Date
       mbind option_bind compose].
  rewrite !String_deserialize, !parseInt_toString, parseFloat_toString,
    parseInt_decimal, numeral_decimal, Hswr, truthy_deserialize_decimal.
  unfold read_back. rewrite Hcreated. f_equal.
  destruct (isSafeInteger cached_at) eqn:Hsafe; [done |].
  assert (truthy_Z cached_at = true) as ->; [| done].
  unfold truthy_Z. destruct (Z.eqb_spec cached_at 0) as [-> |]; done.
Qed.


Lemma getCachedStake_healthy stakeId config w data r' :
  redis_faults w = no_faults →
  redis_hgetall ("stake:" +:+ stakeId) (now w) (redis w) = Some (data, r') →
  getCachedStake stakeId config w = (Ok (read_cached config data (now w)), w).
Proof.
  intros Hw Hget. unfold getCachedStake.
  change (Z.to_nat (MAX_CACHE_RETRIES + 1)) with 3%nat.
  erewrite cache_attempts_returns; [reflexivity |].
  erewrite bind_Ok; cycle 1.
  { rewrite redis_call_healthy by done. rewrite Hget. reflexivity. }
  assert (r' = redis w) as ->.
  { unfold redis_hgetall in Hget.
    destruct (rget _ _ _) as [[| |]|]; congruence. }
  by destruct w.
Qed.





(* ================================================================== *)
(** * Frames and invariants of computations *)
(* ================================================================== *)

Global Instance same_db_ambient : Ambient same_db.
Proof.
  split; [split | ..]; unfold Reflexive, Transitive, same_db; simpl;
    intros; congruence.
Qed.

Global Instance same_redis_ambient : Ambient same_redis.
Proof.
  split; [split | ..]; unfold Reflexive, Transitive, same_redis; simpl;
    intros; congruence.
Qed.

Global Instance later_ambient : Ambient later.
Proof.
  split; [split | ..]; unfold Reflexive, Transitive, later; simpl; intros; lia.
Qed.

Global Instance keeps_ambient I : Ambient (keeps I).
Proof.
  split; [split | ..]; unfold Reflexive, Transitive, keeps; simpl; auto.
Qed.

Section respects.

Context (R : relation World) `{!Ambient R}.

Lemma respects_ret {A} (a : A) : respects R (ret a).
Proof. intros w. reflexivity. Qed.

Lemma respects_throw {A} e : respects R (@throw A e).
Proof. intros w. reflexivity. Qed.

Lemma respects_bind {A B} (m : M A) (k : A → M B) :
  respects R m → (∀ a, respects R (k a)) → respects R (bind m k).
Proof.
  intros Hm Hk w. unfold bind. specialize (Hm w).
  destruct (m w) as [[a|e] w1]; [| done].
  etrans; [exact Hm | apply Hk].
Qed.

Lemma respects_try_catch {A} (m : M A) h :
  respects R m → (∀ e, respects R (h e)) → respects R (try_catch m h).
Proof.
  intros Hm Hh w. unfold try_catch. specialize (Hm w).
  destruct (m w) as [[a|e] w1]; [done |].
  etrans; [exact Hm | apply Hh].
Qed.

Lemma respects_mapM {A B} (f : A → M B) xs :
  (∀ x, respects R (f x)) → respects R (mapM f xs).
Proof.
  intros Hf. induction xs as [|x xs IH]; simpl.
  - apply respects_ret.
  - apply respects_bind; [apply Hf | intros y].
    apply respects_bind; [apply IH | intros ys]. apply respects_ret.
Qed.

Lemma respects_console_error text : respects R (console_error text).
Proof. intros w. apply ambient_emit. Qed.

Lemma respects_console_log text : respects R (console_log text).
Proof. intros w. apply ambient_emit. Qed.

Lemma respects_Date_now : respects R Date_now.
Proof. intros w. reflexivity. Qed.

Lemma respects_sleep ms : 0 ≤ ms → respects R (sleep ms).
Proof.
  intros Hms w. simpl.
  etrans; [by apply ambient_advance | apply ambient_emit].
Qed.

Lemma respects_redis_call {A} (cmd : Z → Redis → option (A * Redis)) :
  (∀ w a r', cmd (now w) (redis w) = Some (a, r') → R w (set_redis r' w)) →
  respects R (redis_call cmd).
Proof.
  intros Hcmd w. unfold redis_call.
  destruct (next_fault (redis_faults w)) as [fail fs].
  pose proof (ambient_redis_faults fs w) as Hfs.
  destruct fail; [done |].
  destruct (cmd (now w) (redis w)) as [[a r']|] eqn:E; [| done].
  simpl. etrans; [exact Hfs |]. by apply (Hcmd (set_redis_faults fs w) a).
Qed.

Lemma respects_pipeline_exec cs :
  (∀ w, R w (set_redis (run_pipeline (now w) cs (redis w)).1 w)) →
  respects R (pipeline_exec cs).
Proof.
  intros Hcs w. unfold pipeline_exec.
  destruct (next_fault (redis_faults w)) as [fail fs].
  pose proof (ambient_redis_faults fs w) as Hfs.
  destruct fail; [done |].
  specialize (Hcs (set_redis_faults fs w)). simpl in Hcs.
  destruct (run_pipeline (now w) cs (redis w)) as [r' ok].
  simpl. etrans; [exact Hfs | exact Hcs].
Qed.

Lemma respects_sql_call {A} (query : Z → Db → A * Db) :
  (∀ w, R w (set_db (query (now w) (db w)).2 w)) →
  respects R (sql_call query).
Proof.
  intros Hq w. unfold sql_call.
  destruct (next_fault (db_faults w)) as [fail fs].
  pose proof (ambient_db_faults fs w) as Hfs.
  destruct fail; [done |].
  specialize (Hq (set_db_faults fs w)). simpl in Hq.
  destruct (query (now w) (db w)) as [a d'].
  simpl. etrans; [exact Hfs | exact Hq].
Qed.

Lemma respects_cache_attempts {A} n attempt what final (fallback : A) body :
  0 ≤ attempt →
  respects R body →
  respects R (cache_attempts n attempt what final fallback body).
Proof.
  intros Hat Hbody. revert attempt Hat.
  induction n as [|n IH]; intros attempt Hat; simpl.
  - apply respects_ret.
  - apply respects_try_catch; [done | intros _].
    apply respects_bind; [apply respects_console_error | intros _].
    destruct (attempt =? MAX_CACHE_RETRIES).
    + apply respects_bind; [apply respects_console_error | intros _].
      apply respects_ret.
    + apply respects_bind; [apply respects_sleep; lia | intros _].
      apply IH. lia.
Qed.

Lemma respects_db_attempts {A} n attempt what final after (body : M A) :
  0 ≤ attempt →
  respects R body →
  respects R (db_attempts n attempt what final after body).
Proof.
  intros Hat Hbody. revert attempt Hat.
  induction n as [|n IH]; intros attempt Hat; simpl.
  - apply respects_throw.
  - apply respects_try_catch; [done | intros _].
    apply respects_bind; [apply respects_console_error | intros _].
    destruct (attempt =? 3); [apply respects_throw |].
    apply respects_bind; [apply respects_sleep; lia | intros _].
    apply IH. lia.
Qed.

End respects.

(** ** The cache functions *)

Section cache_respects.

Context (R : relation World) `{!Ambient R}.

(** What the relation must allow: the pipelines that push something, and
    a push on a list. *)
Hypothesis R_pipeline : ∀ w cs,
  Forall pushes_something cs →
  R w (set_redis (run_pipeline (now w) cs (redis w)).1 w).

Hypothesis R_lpush : ∀ w k v a r',
  redis_lpush k v (now w) (redis w) = Some (a, r') → R w (set_redis r' w).

Lemma set_redis_same w : set_redis (redis w) w = w.
Proof. by destruct w. Qed.

Lemma cacheStake_respects stake config : respects R (cacheStake stake config).
Proof.
  unfold cacheStake. frame respects_cache_attempts; [done |].
  frame respects_bind; [| intros created].
  { destruct (s_createdAt stake); [frame respects_ret | frame respects_throw]. }
  frame respects_bind; [frame respects_Date_now | intros t].
  frame respects_bind; [| intros _].
  { frame respects_pipeline_exec. intros w. apply R_pipeline.
    repeat constructor. }
  frame respects_bind; [| intros [i|]].
  - frame respects_redis_call. intros w a r' H.
    rewrite (redis_lpos_reads _ _ _ _ _ _ H), set_redis_same. reflexivity.
  - frame respects_ret.
  - frame respects_redis_call. intros w a r' H. by eapply R_lpush.
Qed.

Lemma cacheStakes_respects stakes userId page limit config :
  respects R (cacheStakes stakes userId page limit config).
Proof.
  unfold cacheStakes. frame respects_bind; [| intros _].
  { frame respects_mapM. intros stake. apply cacheStake_respects. }
  frame respects_cache_attempts; [done |].
  frame respects_pipeline_exec. intros w. apply R_pipeline.
  constructor; [done |].
  destruct stakes as [|stake stakes]; simpl; [constructor |].
  repeat constructor. done.
Qed.

End cache_respects.

Section no_empty_list.

Implicit Types (r : Redis) (k : string).

Lemma no_empty_list_rput r t k v :
  v ≠ VList [] → no_empty_list r → no_empty_list (rput r t k v).
Proof.
  intros Hv H k'. unfold rput; simpl. rewrite lookup_insert.
  case_decide; [congruence | apply H].
Qed.

Lemma no_empty_list_rdel r k : no_empty_list r → no_empty_list (rdel r k).
Proof.
  intros H k'. unfold rdel; simpl. rewrite lookup_delete.
  case_decide; [done | apply H].
Qed.

Lemma no_empty_list_del ks r : no_empty_list r → no_empty_list (redis_del ks r).
Proof.
  intros H. induction ks as [|k ks IH]; simpl; [done |].
  by apply no_empty_list_rdel.
Qed.

Lemma no_empty_list_command t c r r' :
  pushes_something c →
  run_command t c r = Some r' →
  no_empty_list r → no_empty_list r'.
Proof.
  intros Hc Hrun H. destruct c as [k f|k s|ks|k vs]; simpl in *.
  - unfold redis_hset in Hrun.
    destruct (rget r t k) as [[| |h]|]; simplify_eq;
      by apply no_empty_list_rput.
  - simplify_eq. unfold redis_expire.
    destruct (rget r t k); [| done].
    destruct (s <=? 0); [by apply no_empty_list_rdel | done].
  - simplify_eq. by apply no_empty_list_del.
  - unfold redis_rpush in Hrun.
    destruct (rget r t k) as [[|l|]|]; simplify_eq;
      apply no_empty_list_rput; try done.
    + intros [= Happ]. by apply app_eq_nil in Happ as [_ ?].
    + congruence.
Qed.

Lemma no_empty_list_pipeline t cs r :
  Forall pushes_something cs →
  no_empty_list r → no_empty_list (run_pipeline t cs r).1.
Proof.
  intros Hcs. revert r. induction Hcs as [|c cs Hc _ IH]; intros r H; [done |].
  simpl. destruct (run_command t c r) as [r'|] eqn:E.
  - apply IH. by eapply no_empty_list_command.
  - by apply IH.
Qed.

Lemma no_empty_list_lpush k v t r a r' :
  redis_lpush k v t r = Some (a, r') →
  no_empty_list r → no_empty_list r'.
Proof.
  unfold redis_lpush.
  destruct (rget r t k) as [[|l|]|]; intros; simplify_eq;
    by apply no_empty_list_rput.
Qed.

End no_empty_list.

(** Neither cache function ever leaves an empty list behind, whatever
    the faults. *)
Lemma cacheStakes_keeps_no_empty_list stakes userId page limit config :
  respects (keeps no_empty_list) (cacheStakes stakes userId page limit config).
Proof.
  frame cacheStakes_respects.
  - intros w cs Hcs H. by apply no_empty_list_pipeline.
  - intros w k v a r' Hpush H. by eapply no_empty_list_lpush.
Qed.

Lemma cacheStakes_same_db stakes userId page limit config :
  respects same_db (cacheStakes stakes userId page limit config).
Proof. by frame cacheStakes_respects. Qed.

Lemma cacheStake_same_db stake config :
  respects same_db (cacheStake stake config).
Proof. by frame cacheStake_respects. Qed.

(** ** Reading outcomes backwards *)

Lemma redis_call_Ok_inv {A} (cmd : Z → Redis → option (A * Redis)) w a w' :
  redis_call cmd w = (Ok a, w') →
  ∃ r', cmd (now w) (redis w) = Some (a, r')
        ∧ w' = set_redis r' (set_redis_faults (next_fault (redis_faults w)).2 w).
Proof.
  unfold redis_call. destruct (next_fault _) as [[] fs]; [discriminate |].
  destruct (cmd _ _) as [[a' r']|]; [| discriminate].
  intros [= <- <-]. by exists r'.
Qed.

(** The handlers of [createStake] and [getStakes] only rethrow: the
    function returns only if its body does. *)
Lemma service_catch_Ok_inv {A} (m : M A) (text : string) w a w' :
  try_catch m
    (λ error, if instanceof_DatabaseError error then throw error
              else throw (PlainError text)) w = (Ok a, w') →
  m w = (Ok a, w').
Proof.
  unfold try_catch. destruct (m w) as [[a0|e] w0]; [done |].
  destruct (instanceof_DatabaseError e); discriminate.
Qed.

Lemma DbService_init_same_db : respects same_db DbService.init.
Proof.
  unfold DbService.init. frame respects_db_attempts; [done |].
  frame respects_bind; [| intros _; frame respects_console_log].
  frame respects_sql_call. intros w. simpl. by destruct w.
Qed.

Lemma DbService_getStakes_same_db userId page limit :
  respects same_db (DbService.getStakes userId page limit).
Proof.
  unfold DbService.getStakes. frame respects_db_attempts; [done |].
  frame respects_bind; [| intros l; frame respects_ret].
  frame respects_sql_call. intros w. simpl. by destruct w.
Qed.

(** Whatever the faults, a page that [DbService.getStakes] returns is
    the one the table holds. *)
Lemma db_attempts_select_inv n attempt what final after userId limit offset
    w l w' :
  db_attempts n attempt what final after
    (let* result := sql_call (λ _ d, (sql_select userId limit offset d, d)) in
     ret (stake_of_row <$> result)) w = (Ok l, w') →
  l = stake_of_row <$> sql_select userId limit offset (db w).
Proof.
  set (body := bind _ _).
  assert (Hbody : ∀ w0,
    (∃ w1, body w0 = (Ok (stake_of_row <$> sql_select userId limit offset (db w0)),
                      w1))
    ∨ (∃ e w1, body w0 = (Throw e, w1) ∧ db w1 = db w0)).
  { intros w0. unfold body, bind, sql_call.
    destruct (next_fault _) as [[] fs]; [right | left]; by eexists _, _ || eexists. }
  clearbody body. revert attempt w.
  induction n as [|n IH]; intros attempt w; simpl; [discriminate |].
  unfold try_catch.
  destruct (Hbody w) as [[w1 ->] | (e & w1 & -> & Hdb)].
  - by intros [= <- _].
  - unfold bind, console_error.
    destruct (attempt =? 3); [discriminate |].
    unfold sleep. intros H. apply IH in H. by rewrite H, <- Hdb.
Qed.

Lemma DbService_getStakes_Ok_inv userId page limit w l w' :
  DbService.getStakes userId page limit w = (Ok l, w') →
  l = stake_of_row <$> sql_select userId limit ((page - 1) * limit) (db w).
Proof. apply db_attempts_select_inv. Qed.

(** A read that finds no cached page answers from the table or not at
    all. *)
Lemma getStakes_miss_inv userId dto w res w' :
  let page := default 1 (dto_page dto) in
  let limit := default 20 (dto_limit dto) in
  rget (redis w) (now w) (page_key userId page limit) = None →
  getStakes userId dto w = (Ok res, w') →
  res = mkStakesResult
          (format_item <$>
             (stake_of_row <$>
                sql_select userId limit ((page - 1) * limit) (db w)))
          false.
Proof.
  intros page limit Hmiss. unfold getStakes. fold page limit.
  intros H. apply service_catch_Ok_inv in H.
  apply bind_Ok_inv in H as (ids & w1 & Hrange & H).
  apply redis_call_Ok_inv in Hrange as (r' & Hrange & ->).
  unfold redis_lrange in Hrange. rewrite Hmiss in Hrange.
  injection Hrange as <- <-.
  change (0 <? Z.of_nat (length (@nil string))) with false in H.
  cbv iota in H.
  apply bind_Ok_inv in H as (hit & w2 & Hhit & H).
  injection Hhit as <- <-.
  apply bind_Ok_inv in H as ([] & w3 & Hinit & H).
  apply bind_Ok_inv in H as (dbStakes & w4 & Hdb & H).
  apply bind_Ok_inv in H as ([] & w5 & Hcache & H).
  injection H as <- _.
  apply DbService_getStakes_Ok_inv in Hdb. rewrite Hdb.
  pose proof (DbService_init_same_db
                (set_redis (redis w)
                   (set_redis_faults (next_fault (redis_faults w)).2 w)))
    as Hsame.
  rewrite Hinit in Hsame. unfold same_db in Hsame. simpl in Hsame.
  by rewrite Hsame.
Qed.

(* ================================================================== *)
(** * The listing cache *)
(* ================================================================== *)

Lemma mapM_never_throws {A B} (f : A → M B) xs w :
  (∀ x w0, ∃ y w1, f x w0 = (Ok y, w1)) →
  ∃ ys w', mapM f xs w = (Ok ys, w').
Proof.
  intros Hf. revert w. induction xs as [|x xs IH]; intros w; simpl.
  - by eexists _, _.
  - destruct (Hf x w) as (y & w1 & Hy). rewrite (bind_Ok _ _ _ _ _ Hy).
    destruct (IH w1) as (ys & w2 & Hys). rewrite (bind_Ok _ _ _ _ _ Hys).
    by eexists _, _.
Qed.

Lemma cacheStakes_never_throws stakes userId page limit config w :
  ∃ w', cacheStakes stakes userId page limit config w = (Ok tt, w').
Proof.
  unfold cacheStakes.
  destruct (mapM_never_throws (λ stake, cacheStake stake config) stakes w)
    as (ys & w1 & Hmap).
  { intros stake w0. destruct (cacheStake_never_throws stake config w0) as [w1 H].
    by exists tt, w1. }
  rewrite (bind_Ok _ _ _ _ _ Hmap).
  destruct (cache_attempts_never_throws
              (Z.to_nat (MAX_CACHE_RETRIES + 1)) 0
              "Error caching stakes list"
              "Failed to cache stakes list after multiple attempts:" tt
              (pipeline_exec
                 (DEL [page_key userId page limit] ::
                  if 0 <? Z.of_nat (length ((λ stake, toString (s_id stake))
                                              <$> stakes))
                  then [ RPUSH (page_key userId page limit)
                               ((λ stake, toString (s_id stake)) <$> stakes);
                         EXPIRE (page_key userId page limit)
                                (expiry_seconds config) ]
                  else [])) w1) as ([] & w' & H).
  by exists w'.
Qed.

(** With no stakes, an attempt either fails and changes nothing or
    deletes the page key; so does the whole loop. *)
Lemma delete_page_attempts n attempt what final k w :
  let w' := (cache_attempts n attempt what final tt
               (pipeline_exec [DEL [k]]) w).2 in
  redis w' = redis w ∨ redis w' = rdel (redis w) k.
Proof.
  revert attempt w. induction n as [|n IH]; intros attempt w; simpl; [by left |].
  unfold try_catch, pipeline_exec.
  destruct (next_fault (redis_faults w)) as [[] fs]; simpl; [| by right].
  unfold bind, console_error.
  destruct (attempt =? MAX_CACHE_RETRIES); [by left |].
  unfold sleep. exact (IH _ _).
Qed.

Lemma cacheStakes_nil userId page limit config w :
  cacheStakes [] userId page limit config w =
  cache_attempts 3 0 "Error caching stakes list"
    "Failed to cache stakes list after multiple attempts:" tt
    (pipeline_exec [DEL [page_key userId page limit]]) w.
Proof. reflexivity. Qed.

Lemma rget_rdel_same r k t : rget (rdel r k) t k = None.
Proof. by rewrite rget_rdel, decide_True. Qed.

(** C10.  With an empty array of stakes, [cacheStakes] queues the
    deletion of the page key and nothing else.  When that round trip is
    answered the page key is gone, with no list and no deadline under
    it, and every later read of the page, whatever the time and the
    faults, answers from the table (or throws) and is never flagged as a
    cache hit.  When it is not answered the store is as before.  And no
    call of [cacheStakes], with whatever stakes, leaves an empty list
    under any key. *)
Theorem empty_page_is_never_cached userId page limit config w :
  (next_fault (redis_faults w)).1 = false →
  let pageKey := page_key userId page limit in
  let '(outcome, w') := cacheStakes [] userId page limit config w in
  outcome = Ok tt
  ∧ redis w' = rdel (redis w) pageKey
  ∧ rdata (redis w') !! pageKey = None
  ∧ rexp (redis w') !! pageKey = None
  ∧ (∀ w2, redis w2 = redis w' →
       match (getStakes userId (mkPaginationDto (Some page) (Some limit)) w2).1
       with
       | Ok res =>
           fromCache res = false
           ∧ items res = format_item <$>
               (stake_of_row <$>
                  sql_select userId limit ((page - 1) * limit) (db w2))
       | Throw _ => True
       end)
  ∧ (∀ w0, let w0' := (cacheStakes [] userId page limit config w0).2 in
           redis w0' = redis w0 ∨ redis w0' = rdel (redis w0) pageKey)
  ∧ (∀ stakes w0,
       no_empty_list (redis w0) →
       no_empty_list
         (redis (cacheStakes stakes userId page limit config w0).2)).
Proof.
  intros Hreach pageKey.
  destruct (cacheStakes [] userId page limit config w) as [outcome w'] eqn:Hrun.
  assert (redis w' = rdel (redis w) pageKey ∧ outcome = Ok tt) as [Hdel ->].
  { rewrite cacheStakes_nil in Hrun. fold pageKey in Hrun.
    assert (pipeline_exec [DEL [pageKey]] w
            = (Ok tt, set_redis (rdel (redis w) pageKey)
                        (set_redis_faults (next_fault (redis_faults w)).2 w)))
      as Hexec.
    { unfold pipeline_exec. destruct (next_fault (redis_faults w)) as [fail fs].
      simpl in Hreach. by subst fail. }
    rewrite (cache_attempts_returns _ _ _ _ _ _ _ _ _ Hexec) in Hrun.
    by injection Hrun as <- <-. }
  split; [done |]. split; [done |].
  split; [rewrite Hdel; apply lookup_delete_eq |].
  split; [rewrite Hdel; apply lookup_delete_eq |].
  split; [| split].
  - intros w2 Hw2.
    destruct (getStakes _ _ w2) as [[res|e] w3] eqn:Hget; [| done].
    apply getStakes_miss_inv in Hget; [by subst res |].
    simpl. fold pageKey. rewrite Hw2, Hdel. apply rget_rdel_same.
  - intros w0. rewrite cacheStakes_nil. apply delete_page_attempts.
  - intros stakes w0. apply cacheStakes_keeps_no_empty_list.
Qed.

Lemma empty_page_is_never_cached_witness :
  let stale_page :=
    mkRedis {["user:7:stakes:page:3:limit:20" := VList ["41"; "40"]]}
            {["user:7:stakes:page:3:limit:20" := 600000]} in
  let w := set_redis stale_page initial_world in
  let '(outcome, w') :=
    cacheStakes [] 7 3 20 defaultCacheConfigs.stake w in
  outcome = Ok tt
  ∧ rdata (redis w') !! "user:7:stakes:page:3:limit:20" = None
  ∧ rexp (redis w') !! "user:7:stakes:page:3:limit:20" = None.
Proof.
  intros stale_page w.
  pose proof (empty_page_is_never_cached 7 3 20 defaultCacheConfigs.stake w
                eq_refl) as H.
  destruct (cacheStakes [] 7 3 20 defaultCacheConfigs.stake w) as [outcome w'].
  destruct H as (Hok & _ & Hdata & Hexp & _).
  split; [exact Hok |]. split; [exact Hdata | exact Hexp].
Defined.

Section invalidation.

Implicit Types (r : Redis) (k : string).

Lemma rget_redis_del ks r t k :
  rget (redis_del ks r) t k = if decide (k ∈ ks) then None else rget r t k.
Proof.
  induction ks as [|k0 ks IH]; simpl.
  - destruct (decide (k ∈ [])) as [H|]; [by apply elem_of_nil in H | done].
  - rewrite rget_rdel, IH.
    destruct (decide (k0 = k)) as [Heq|Hne],
             (decide (k ∈ k0 :: ks)) as [Hin|Hout],
             (decide (k ∈ ks)) as [Hin'|Hout']; try done; set_solver.
Qed.

(** A key that [KEYS] does not list is absent or has expired. *)
Lemma redis_keys_complete prefix t r ks r' k :
  redis_keys prefix t r = Some (ks, r') →
  starts_with prefix k = true →
  k ∉ ks →
  ∀ t', t ≤ t' → rget r t' k = None.
Proof.
  unfold redis_keys. intros [= <- <-] Hprefix Hnot t' Ht.
  unfold rget. destruct (expired r t' k) eqn:Hexp'; [done |].
  destruct (rdata r !! k) as [v|] eqn:Hv; [| done].
  exfalso. apply Hnot. apply list_elem_of_fmap. exists (k, v). split; [done |].
  apply elem_of_map_to_list, map_lookup_filter_Some. split; [done |].
  simpl. split; [done |].
  unfold expired in *. destruct (rexp r !! k) as [d|]; [| done].
  apply Z.ltb_ge in Hexp'. apply Z.ltb_ge. lia.
Qed.

End invalidation.

(** ** The write path, read backwards *)

(** Whatever the faults, a stake that [DbService.createStake] returns is
    the row it has just appended to the table. *)
Lemma db_attempts_insert_inv n attempt what final after userId amount period
    w stake w' :
  0 ≤ attempt →
  db_attempts n attempt what final after
    (let* result := sql_call (sql_insert amount period userId) in
     match result with
     | [] => throw (DatabaseError "Failed to create stake: No result returned")
     | row :: _ => ret (stake_of_row row)
     end) w = (Ok stake, w') →
  ∃ t, now w ≤ t
       ∧ stake = stake_of_row (mkRow (next_id (db w)) amount period userId t)
       ∧ rows (db w')
         = rows (db w) ++ [mkRow (next_id (db w)) amount period userId t]
       ∧ redis w' = redis w
       ∧ now w' = t.
Proof.
  set (body := bind _ _).
  assert (Hbody : ∀ w0,
    body w0 = (Ok (stake_of_row
                     (mkRow (next_id (db w0)) amount period userId (now w0))),
               set_db (sql_insert amount period userId (now w0) (db w0)).2
                      (db_tick w0))
    ∨ (∃ e, body w0 = (Throw e, db_tick w0))).
  { intros w0. unfold body, bind, sql_call, db_tick.
    destruct (next_fault _) as [[] fs]; [right | left]; by eexists || done. }
  clearbody body. intros Hat. revert attempt Hat w.
  induction n as [|n IH]; intros attempt Hat w; simpl; [discriminate |].
  unfold try_catch.
  destruct (Hbody w) as [-> | (e & ->)].
  - intros [= <- <-]. exists (now w). split; [lia |]. by destruct w.
  - unfold bind, console_error.
    destruct (attempt =? 3); [discriminate |].
    unfold sleep. intros H. apply IH in H as (t & Ht & -> & Hrows & Hredis & Hnow);
      [| lia].
    exists t. simpl in *. repeat split; try done. lia.
Qed.

Lemma DbService_createStake_Ok_inv userId amount period w stake w' :
  DbService.createStake userId amount period w = (Ok stake, w') →
  ∃ t, now w ≤ t
       ∧ stake = stake_of_row (mkRow (next_id (db w)) amount period userId t)
       ∧ rows (db w')
         = rows (db w) ++ [mkRow (next_id (db w)) amount period userId t]
       ∧ redis w' = redis w
       ∧ now w' = t.
Proof. by apply db_attempts_insert_inv. Qed.

Lemma DbService_init_later : respects later DbService.init.
Proof.
  unfold DbService.init. frame respects_db_attempts; [done |].
  frame respects_bind; [| intros _; frame respects_console_log].
  frame respects_sql_call. intros w. unfold later. simpl. lia.
Qed.

Lemma cacheStake_later stake config : respects later (cacheStake stake config).
Proof. frame cacheStake_respects; intros; unfold later; simpl; lia. Qed.

(** A write that returns has appended its row to the table and left no
    page of its owner in the cache. *)
Lemma createStake_Ok_inv userId dto w res w' :
  createStake userId dto w = (Ok res, w') →
  ∃ t, now w ≤ t
       ∧ res = mkCreateResult true (Some (next_id (db w)))
       ∧ rows (db w')
         = rows (db w)
           ++ [mkRow (next_id (db w)) (dto_amount dto) (dto_period dto) userId t]
       ∧ ∀ k t', starts_with (page_pattern_prefix userId) k = true →
                 now w' ≤ t' → rget (redis w') t' k = None.
Proof.
  unfold createStake. intros H. apply service_catch_Ok_inv in H.
  apply bind_Ok_inv in H as ([] & w1 & Hinit & H).
  apply bind_Ok_inv in H as (dbStake & w2 & Hinsert & H).
  apply bind_Ok_inv in H as ([] & w3 & Hcache & H).
  apply bind_Ok_inv in H as (count & w4 & Hincr & H).
  apply bind_Ok_inv in H as (keys & w5 & Hkeys & H).
  apply bind_Ok_inv in H as ([] & w6 & Hdel & H).
  injection H as <- <-.
  pose proof (DbService_init_same_db w) as Hdb1.
  pose proof (DbService_init_later w) as Hnow1.
  rewrite Hinit in Hdb1, Hnow1. unfold same_db, later in *. simpl in *.
  apply DbService_createStake_Ok_inv in Hinsert
    as (t & Ht & -> & Hrows & _ & _).
  pose proof (cacheStake_same_db
                (stake_of_row (mkRow (next_id (db w1)) (dto_amount dto)
                                     (dto_period dto) userId t))
                defaultCacheConfigs.stake w2) as Hdb3.
  rewrite Hcache in Hdb3. unfold same_db in Hdb3. simpl in Hdb3.
  apply redis_call_Ok_inv in Hincr as (r4 & _ & ->).
  apply redis_call_Ok_inv in Hkeys as (r5 & Hkeys & ->).
  simpl in Hkeys.
  assert (r5 = r4) as -> by (unfold redis_keys in Hkeys; congruence).
  exists t. split; [lia |]. rewrite <- Hdb1. split; [done |].
  destruct (0 <? Z.of_nat (length keys)) eqn:Hlen.
  - apply bind_Ok_inv in Hdel as ([] & w7 & Hdel & Hlog).
    apply redis_call_Ok_inv in Hdel as (r7 & [= <-] & ->).
    injection Hlog as <-. simpl. split; [congruence |].
    intros k t' Hk Ht'. rewrite rget_redis_del.
    destruct (decide (k ∈ keys)); [done |].
    by eapply redis_keys_complete.
  - injection Hdel as <-. simpl. split; [congruence |].
    intros k t' Hk Ht'. eapply redis_keys_complete; [done | done | | done].
    destruct keys; [set_solver | discriminate].
Qed.

(** ** The newest row comes first *)




Lemma DbService_getStakes_first_try userId page limit w :
  (next_fault (db_faults w)).1 = false →
  DbService.getStakes userId page limit w =
  (Ok (stake_of_row <$> sql_select userId limit ((page - 1) * limit) (db w)),
   db_tick w).
Proof.
  intros H. unfold DbService.getStakes.
  erewrite db_attempts_returns; [reflexivity |].
  by apply getStakes_body_reply.
Qed.








(* ================================================================== *)
(** * The read path *)
(* ================================================================== *)

Section fast_path.

Implicit Types (records : list Cached).

Lemma omap_filter_present records :
  omap c_stake (List.filter is_present records) = omap c_stake records.
Proof.
  induction records as [|[[s|] st] records IH]; [done | |]; simpl.
  - change (s :: omap c_stake (List.filter is_present records)
            = s :: omap c_stake records). by f_equal.
  - exact IH.
Qed.

Lemma omap_present_length records :
  (length (omap c_stake records) ≤ length records)%nat
  ∧ ((length (omap c_stake records) =? length records)%nat
     = forallb is_present records).
Proof.
  induction records as [|[[s|] st] records [IHle IHeq]]; simpl; [done | |];
    change (list_omap _ _ c_stake records) with (omap c_stake records).
  - split; [lia | done].
  - split; [lia |]. apply Nat.eqb_neq. lia.
Qed.

Lemma filter_all_present records :
  forallb is_present records = true →
  List.filter is_present records = records.
Proof.
  induction records as [|c records IH]; simpl; [done |].
  intros [Hc Hrest]%andb_prop. rewrite Hc. by rewrite IH.
Qed.

Lemma forallb_fresh records :
  forallb fresh records
  = forallb is_present records && negb (existsb isStale records).
Proof.
  induction records as [|c records IH]; simpl; [done |].
  rewrite IH. unfold fresh.
  destruct (is_present c), (isStale c), (forallb is_present records); simpl;
    try done.
Qed.

(** The decision of the fast path: every record present and none
    stale. *)
Lemma from_cached_fresh ids records :
  length records = length ids →
  from_cached ids records =
  if forallb fresh records then Some (format_item <$> omap c_stake records)
  else None.
Proof.
  intros Hlen. unfold from_cached. cbv zeta.
  rewrite omap_filter_present, <- Hlen, (proj2 (omap_present_length records)).
  rewrite forallb_fresh.
  destruct (forallb is_present records) eqn:Hall; [| done].
  by rewrite (filter_all_present _ Hall).
Qed.

End fast_path.

Lemma getCachedStake_cached_record id config w :
  redis_faults w = no_faults →
  hash_or_nothing (rget (redis w) (now w) ("stake:" +:+ id)) →
  getCachedStake id config w
  = (Ok (cached_record config (redis w) (now w) id), w).
Proof.
  intros Hw Hty. unfold cached_record.
  destruct (rget (redis w) (now w) ("stake:" +:+ id)) as [[| |h]|] eqn:E;
    try done.
  - erewrite getCachedStake_healthy; [reflexivity | done |].
    unfold redis_hgetall. by rewrite E.
  - erewrite getCachedStake_healthy; [| done |]; cycle 1.
    { unfold redis_hgetall. by rewrite E. }
    reflexivity.
Qed.

Lemma mapM_getCachedStake ids config w :
  redis_faults w = no_faults →
  (∀ id, hash_or_nothing (rget (redis w) (now w) ("stake:" +:+ id))) →
  mapM (λ id, getCachedStake id config) ids w
  = (Ok (cached_record config (redis w) (now w) <$> ids), w).
Proof.
  intros Hw Hty. induction ids as [|id ids IH]; simpl; [done |].
  rewrite (bind_Ok _ _ _ _ _ (getCachedStake_cached_record id config w Hw (Hty id))).
  by rewrite (bind_Ok _ _ _ _ _ IH).
Qed.

Lemma db_tick_healthy w : db_faults w = no_faults → db_tick w = w.
Proof. intros H. unfold db_tick. rewrite H. simpl. rewrite <- H. by destruct w. Qed.

(** The two paths of [getStakes] on a fault-free schedule. *)
Lemma getStakes_healthy userId page limit w :
  healthy w →
  list_or_nothing (rget (redis w) (now w) (page_key userId page limit)) →
  (∀ id, hash_or_nothing (rget (redis w) (now w) ("stake:" +:+ id))) →
  let ids := cached_page (redis w) (now w) userId page limit in
  let records :=
    cached_record defaultCacheConfigs.stake (redis w) (now w) <$> ids in
  let dbStakes :=
    stake_of_row <$> sql_select userId limit ((page - 1) * limit) (db w) in
  getStakes userId (mkPaginationDto (Some page) (Some limit)) w =
  if page_hit (redis w) (now w) userId page limit
  then (Ok (mkStakesResult (format_item <$> omap c_stake records) true), w)
  else (Ok (mkStakesResult (format_item <$> dbStakes) false),
        (cacheStakes dbStakes userId page limit defaultCacheConfigs.stake
           (emit (ConsoleLog "Database initialized successfully") w)).2).
Proof.
  intros [Hr Hd] Hpage Hrec ids records dbStakes.
  set (w1 := emit (ConsoleLog "Database initialized successfully") w).
  assert (Hrange : redis_call (redis_lrange (page_key userId page limit) 0
                                 (limit - 1)) w = (Ok ids, w)).
  { rewrite redis_call_healthy by done. unfold redis_lrange, ids, cached_page.
    destruct (rget _ _ _) as [[| |]|]; try done; by rewrite set_redis_same. }
  assert (Hslow :
    (DbService.init ;;
     let* dbStakes0 := DbService.getStakes userId page limit in
     cacheStakes dbStakes0 userId page limit defaultCacheConfigs.stake ;;
     ret (mkStakesResult (format_item <$> dbStakes0) false)) w
    = (Ok (mkStakesResult (format_item <$> dbStakes) false),
       (cacheStakes dbStakes userId page limit defaultCacheConfigs.stake w1).2)).
  { erewrite bind_Ok; cycle 1.
    { rewrite DbService_init_first_try by (by rewrite Hd).
      by rewrite db_tick_healthy. }
    fold w1. erewrite bind_Ok; cycle 1.
    { rewrite DbService_getStakes_first_try by (by simpl; rewrite Hd).
      rewrite db_tick_healthy by done. reflexivity. }
    change (db w1) with (db w). fold dbStakes.
    destruct (cacheStakes_never_throws dbStakes userId page limit
                defaultCacheConfigs.stake w1) as [w' Hcache].
    rewrite (bind_Ok _ _ _ _ _ Hcache). by rewrite Hcache. }
  assert (Hfresh :
    forallb (λ id, fresh (cached_record defaultCacheConfigs.stake
                            (redis w) (now w) id)) ids
    = forallb fresh records).
  { unfold records. clear. induction ids as [|id ids IH]; simpl; [done |].
    by rewrite IH. }
  unfold getStakes. cbn [default dto_page dto_limit]. unfold page_hit.
  fold ids. rewrite Hfresh.
  destruct (0 <? Z.of_nat (length ids)) eqn:Hlen; simpl andb.
  - assert (Hhit :
      (let* cachedStakes :=
         mapM (λ id, getCachedStake id defaultCacheConfigs.stake) ids in
       ret (from_cached ids cachedStakes)) w
      = (Ok (if forallb fresh records
             then Some (format_item <$> omap c_stake records) else None), w)).
    { rewrite (bind_Ok _ _ _ _ _
                 (mapM_getCachedStake ids defaultCacheConfigs.stake w Hr Hrec)).
      fold records. rewrite from_cached_fresh; [done |].
      unfold records. by rewrite length_fmap. }
    destruct (forallb fresh records).
    + apply try_catch_Ok. rewrite (bind_Ok _ _ _ _ _ Hrange). cbv beta.
      rewrite Hlen. by rewrite (bind_Ok _ _ _ _ _ Hhit).
    + apply try_catch_Ok. rewrite (bind_Ok _ _ _ _ _ Hrange). cbv beta.
      rewrite Hlen. rewrite (bind_Ok _ _ _ _ _ Hhit). exact Hslow.
  - apply try_catch_Ok. rewrite (bind_Ok _ _ _ _ _ Hrange). cbv beta.
    rewrite Hlen. erewrite bind_Ok; [| reflexivity]. exact Hslow.
Qed.

(** ** Repopulation *)

Lemma user_key_ne_stake_key a b : "user:" +:+ a ≠ "stake:" +:+ b.
Proof. rewrite !append_cons. discriminate. Qed.

(** One run of [cacheStake] keeps the record keys well typed. *)
Lemma cached_store_typed stake config created t r r' :
  record_keys_typed r t →
  0 < expiry_seconds config →
  cached_store stake config created t r = Some r' →
  record_keys_typed r' t
  ∧ (∃ h, rget r' t (stake_key stake)
          = Some (VHash (stake_fields stake created (decimal t) ∪ h)))
  ∧ ∀ k t', k ≠ stake_key stake → k ≠ user_stakes_key stake →
            rget r' t' k = rget r t' k.
Proof.
  intros [Hhash Hlist] Hsec Hstore.
  destruct (cached_store_spec stake config created t r)
    as (h & r0 & Hstore0 & Hdata & Hdeadline & Hulist & Hframe);
    [apply Hhash | apply Hlist | done |].
  rewrite Hstore in Hstore0. injection Hstore0 as <-.
  assert (Hrec : rget r' t (stake_key stake)
                 = Some (VHash (stake_fields stake created (decimal t) ∪ h))).
  { rewrite (rget_deadline _ _ _ _ _ Hdata Hdeadline).
    by rewrite (proj2 (Z.ltb_ge _ _)) by lia. }
  split; [split |]; [| | split; [by exists h | done]].
  - intros id. destruct (decide ("stake:" +:+ id = stake_key stake)) as [->|Hne].
    + by rewrite Hrec.
    + rewrite Hframe; [apply Hhash | done | apply stake_key_ne_user_key].
  - intros u.
    destruct (decide ("user:" +:+ u +:+ ":stake_ids" = user_stakes_key stake))
      as [->|Hne]; [done |].
    rewrite Hframe; [apply Hlist | apply user_key_ne_stake_key | done].
Qed.

Lemma mapM_cacheStake_healthy stakes config w :
  redis_faults w = no_faults →
  record_keys_typed (redis w) (now w) →
  0 < expiry_seconds config →
  NoDup (stake_key <$> stakes) →
  Forall (λ stake, is_Some (s_createdAt stake)) stakes →
  ∃ r',
    mapM (λ stake, cacheStake stake config) stakes w
    = (Ok ((λ _, tt) <$> stakes), set_redis r' w)
    ∧ record_keys_typed r' (now w)
    ∧ (∀ stake, stake ∈ stakes →
         ∃ h created,
           s_createdAt stake = Some created
           ∧ rget r' (now w) (stake_key stake)
             = Some (VHash (stake_fields stake (decimal created)
                              (decimal (now w)) ∪ h)))
    ∧ ∀ k t',
        (∀ stake, stake ∈ stakes →
                  k ≠ stake_key stake ∧ k ≠ user_stakes_key stake) →
        rget r' t' k = rget (redis w) t' k.
Proof.
  intros Hw Htyped Hsec Hnodup Hcreated. revert w Hw Htyped.
  induction stakes as [|stake stakes IH]; intros w Hw Htyped.
  - exists (redis w). simpl. rewrite set_redis_same.
    repeat split; try done; try apply Htyped. intros stake Hin. set_solver.
  - apply NoDup_cons in Hnodup as [Hfresh Hnodup].
    apply Forall_cons in Hcreated as [[created Hc] Hcreated].
    destruct (cached_store_spec stake config (decimal created) (now w) (redis w))
      as (h0 & r1 & Hstore & _); [apply Htyped | apply Htyped | done |].
    destruct (cached_store_typed _ _ _ _ _ _ Htyped Hsec Hstore)
      as (Htyped1 & [h Hrec] & Hframe1).
    pose proof (cacheStake_healthy stake config created w r1 Hw Hc Hstore)
      as Hrun.
    destruct (IH Hnodup Hcreated (set_redis r1 w) Hw Htyped1)
      as (r' & Hmap & Htyped' & Hrecs & Hframe).
    exists r'. simpl in *.
    rewrite (bind_Ok _ _ _ _ _ Hrun), (bind_Ok _ _ _ _ _ Hmap).
    split; [done |]. split; [done |]. split.
    + intros s [->|Hin]%elem_of_cons; [| by apply Hrecs].
      exists h, created. split; [done |].
      rewrite Hframe; [done |]. intros s' Hin'. split.
      * intros Heq. apply Hfresh. rewrite Heq. by apply list_elem_of_fmap_2.
      * apply stake_key_ne_user_key.
    + intros k t' Hk. rewrite Hframe.
      * apply Hframe1; apply Hk; by left.
      * intros s' Hin'. apply Hk. by right.
Qed.

(** The pipeline of [cacheStakes] for a non-empty page. *)
Lemma page_pipeline r t k ids seconds :
  ids ≠ [] →
  0 < seconds →
  ∃ r', run_pipeline t [DEL [k]; RPUSH k ids; EXPIRE k seconds] r = (r', true)
        ∧ rget r' t k = Some (VList ids)
        ∧ rexp r' !! k = Some (t + seconds * 1000)
        ∧ ∀ k' t', k' ≠ k → rget r' t' k' = rget r t' k'.
Proof.
  intros Hids Hsec. simpl. unfold redis_rpush.
  rewrite rget_rdel_same. unfold redis_expire.
  rewrite rget_rput, decide_True by done.
  rewrite (proj2 (Z.leb_gt _ _) Hsec).
  eexists. split; [reflexivity |]. repeat split.
  - unfold rget, expired; simpl. rewrite !lookup_insert_eq.
    by rewrite (proj2 (Z.ltb_ge _ _)) by lia.
  - simpl. by rewrite lookup_insert_eq.
  - intros k' t' Hne.
    transitivity (rget (rput (rdel r k) t k (VList ids)) t' k').
    + unfold rget, expired; simpl. by rewrite lookup_insert_ne.
    + rewrite rget_rput_ne, rget_rdel, decide_False by done. done.
Qed.

Lemma page_key_ne_stake_key userId page limit id :
  page_key userId page limit ≠ "stake:" +:+ id.
Proof. unfold page_key. apply user_key_ne_stake_key. Qed.

(** On a fault-free schedule, with well-typed record keys, [cacheStakes]
    leaves every stake in the record cache and the ids of the page, in
    order, under the page key. *)
Lemma cacheStakes_healthy stakes userId page limit config w :
  redis_faults w = no_faults →
  record_keys_typed (redis w) (now w) →
  0 < expiry_seconds config →
  NoDup (stake_key <$> stakes) →
  Forall (λ stake, is_Some (s_createdAt stake)) stakes →
  ∃ r',
    cacheStakes stakes userId page limit config w = (Ok tt, set_redis r' w)
    ∧ rget r' (now w) (page_key userId page limit)
      = (if decide (stakes = []) then None
         else Some (VList ((λ stake, toString (s_id stake)) <$> stakes)))
    ∧ ∀ stake, stake ∈ stakes →
        ∃ h created,
          s_createdAt stake = Some created
          ∧ rget r' (now w) (stake_key stake)
            = Some (VHash (stake_fields stake (decimal created)
                             (decimal (now w)) ∪ h)).
Proof.
  intros Hw Htyped Hsec Hnodup Hcreated.
  destruct (mapM_cacheStake_healthy stakes config w Hw Htyped Hsec Hnodup
              Hcreated) as (r1 & Hmap & _ & Hrecs & _).
  unfold cacheStakes. rewrite (bind_Ok _ _ _ _ _ Hmap).
  change (Z.to_nat (MAX_CACHE_RETRIES + 1)) with 3%nat.
  set (pageKey := page_key userId page limit).
  destruct stakes as [|stake stakes].
  - exists (rdel r1 pageKey). split; [| split].
    + erewrite cache_attempts_returns; [reflexivity |].
      by rewrite pipeline_exec_healthy.
    + apply rget_rdel_same.
    + intros stake Hin. set_solver.
  - set (ids := (λ s, toString (s_id s)) <$> stake :: stakes).
    destruct (page_pipeline r1 (now w) pageKey ids (expiry_seconds config))
      as (r' & Hpipe & Hpage & _ & Hframe); [done | done |].
    exists r'. split; [| split].
    + erewrite cache_attempts_returns; [reflexivity |].
      rewrite pipeline_exec_healthy by done. simpl now. simpl redis.
      change (0 <? Z.of_nat (length ids)) with true. cbv iota.
      by rewrite Hpipe.
    + by rewrite decide_False.
    + intros s Hin. destruct (Hrecs s Hin) as (h & created & Hc & Hrec).
      exists h, created. split; [done |].
      rewrite Hframe; [done |]. intros Heq. symmetry in Heq.
      by apply page_key_ne_stake_key in Heq.
Qed.

(** ** The rows of a page *)

Lemma insert_desc_perm x l : insert_desc x l ≡ₚ x :: l.
Proof.
  induction l as [|y l IH]; simpl; [done |].
  destruct (_ <=? _); [done |]. rewrite IH. apply Permutation_swap.
Qed.

Lemma order_by_created_at_desc_perm l : order_by_created_at_desc l ≡ₚ l.
Proof.
  unfold order_by_created_at_desc.
  induction l as [|x l IH]; simpl; [done |].
  by rewrite insert_desc_perm, IH.
Qed.

Lemma sql_select_rows userId limit offset d :
  sql_select userId limit offset d ⊆+ rows d.
Proof.
  unfold sql_select.
  etrans; [apply sublist_submseteq, sublist_take |].
  etrans; [apply sublist_submseteq, sublist_drop |].
  rewrite order_by_created_at_desc_perm.
  apply sublist_submseteq, sublist_filter.
Qed.

Lemma submseteq_NoDup {A} (l k : list A) : l ⊆+ k → NoDup k → NoDup l.
Proof.
  intros [k' Hk']%submseteq_Permutation Hk. rewrite Hk' in Hk.
  by apply NoDup_app in Hk as [? _].
Qed.

Global Instance stake_key_of_id_inj : Inj (=) (=) (λ id, "stake:" +:+ decimal id).
Proof. intros a b H. by apply String.app_inj, decimal_inj in H. Qed.

(** The primary key makes the cache keys of a page distinct. *)
Lemma sql_select_stake_keys userId limit offset d :
  NoDup (r_id <$> rows d) →
  NoDup (stake_key <$> (stake_of_row <$> sql_select userId limit offset d)).
Proof.
  intros Hkey. rewrite <- list_fmap_compose.
  change (stake_key ∘ stake_of_row)
    with ((λ id, "stake:" +:+ decimal id) ∘ r_id).
  rewrite list_fmap_compose. apply NoDup_fmap_2; [apply _ |].
  eapply submseteq_NoDup; [| exact Hkey].
  apply fmap_submseteq, sql_select_rows.
Qed.

(** ** Reading the cache under faults *)

Lemma redis_hgetall_reads k t r data r' :
  redis_hgetall k t r = Some (data, r') → r' = r.
Proof.
  unfold redis_hgetall. destruct (rget r t k) as [[| |]|]; congruence.
Qed.

Lemma redis_lrange_reads k start stop t r ids r' :
  redis_lrange k start stop t r = Some (ids, r') → r' = r.
Proof.
  unfold redis_lrange. destruct (rget r t k) as [[| |]|]; congruence.
Qed.

(** [getCachedStake] only reads: it respects every ambient relation. *)
Lemma getCachedStake_respects R `{!Ambient R} id config :
  respects R (getCachedStake id config).
Proof.
  unfold getCachedStake. frame respects_cache_attempts; [done |].
  frame respects_bind; [| intros data].
  - frame respects_redis_call. intros w a r' H.
    rewrite (redis_hgetall_reads _ _ _ _ _ H), set_redis_same. reflexivity.
  - frame respects_bind; [frame respects_Date_now | intros t].
    frame respects_ret.
Qed.

(** A record that [getCachedStake] reports present is the one the store
    held at the time of the attempt that was answered. *)
Lemma cache_attempts_read_inv n attempt what final id config w c w' :
  0 ≤ attempt →
  cache_attempts n attempt what final (mkCached None false)
    (let* data := redis_call (redis_hgetall ("stake:" +:+ id)) in
     let* t := Date_now in
     ret (read_cached config data t)) w = (Ok c, w') →
  is_present c = true →
  ∃ t, now w ≤ t ∧ c = cached_record config (redis w) t id.
Proof.
  set (body := bind _ _).
  assert (Hbody : ∀ w0,
    (∃ w1, body w0 = (Ok (cached_record config (redis w0) (now w0) id), w1))
    ∨ (∃ c0 w1, body w0 = (Ok c0, w1) ∧ is_present c0 = false)
    ∨ (∃ e w1, body w0 = (Throw e, w1)
               ∧ redis w1 = redis w0 ∧ now w1 = now w0)).
  { intros w0. unfold body, bind, redis_call, cached_record, redis_hgetall.
    destruct (next_fault _) as [[] fs]; [right; right; by eexists _, _ |].
    destruct (rget _ _ _) as [[| |h]|].
    - right; right. by eexists _, _.
    - right; right. by eexists _, _.
    - left. by eexists.
    - right; left. by eexists _, _. }
  clearbody body. intros Hat. revert attempt Hat w.
  induction n as [|n IH]; intros attempt Hat w; simpl.
  - by intros [= <- _] [=].
  - unfold try_catch.
    destruct (Hbody w)
      as [[w1 ->] | [(c0 & w1 & -> & Hc0) | (e & w1 & -> & Hr & Hn)]].
    + intros [= <- _] _. exists (now w). split; [lia | done].
    + intros [= <- _]. congruence.
    + unfold bind, console_error.
      destruct (attempt =? MAX_CACHE_RETRIES); [by intros [= <- _] [=] |].
      unfold sleep. intros H Hp.
      apply IH in H as (t & Ht & ->); [| lia | done].
      simpl in *. exists t. rewrite Hr. split; [lia | done].
Qed.

Lemma getCachedStake_present_inv id config w c w' :
  getCachedStake id config w = (Ok c, w') →
  is_present c = true →
  ∃ t, now w ≤ t ∧ c = cached_record config (redis w) t id.
Proof. by apply cache_attempts_read_inv. Qed.

(** Freshness is judged more severely as time passes. *)
Lemma read_cached_fresh_earlier config h t t' :
  t ≤ t' →
  fresh (read_cached config h t') = true →
  fresh (read_cached config h t) = true.
Proof.
  intros Ht. unfold read_cached. destruct (decide (h = ∅)); [done |].
  unfold fresh, is_present. simpl.
  destruct (h !! "_cached_at") as [c|]; [| done]. simpl.
  destruct (_ && _); [| done].
  destruct (parseInt _) as [cachedAt|]; [| done].
  intros H%negb_true_iff%Z.ltb_ge. apply negb_true_iff, Z.ltb_ge. lia.
Qed.

Lemma fresh_earlier config r t t' id :
  t ≤ t' →
  fresh (cached_record config r t' id) = true →
  fresh (cached_record config r t id) = true.
Proof.
  intros Ht. unfold cached_record, rget, expired.
  destruct (rexp r !! _) as [d|] eqn:Hd.
  - destruct (d <? t') eqn:E'; [done |].
    apply Z.ltb_ge in E'. rewrite (proj2 (Z.ltb_ge _ _)) by lia.
    destruct (rdata r !! _) as [[| |h]|]; try done.
    by apply read_cached_fresh_earlier.
  - destruct (rdata r !! _) as [[| |h]|]; try done.
    by apply read_cached_fresh_earlier.
Qed.

(** The stake that a record carries does not depend on when it is
    read. *)
Lemma cached_record_stake config r t t' id :
  is_present (cached_record config r t id) = true →
  is_present (cached_record config r t' id) = true →
  c_stake (cached_record config r t' id) = c_stake (cached_record config r t id).
Proof.
  unfold cached_record, rget.
  destruct (expired r t _), (expired r t' _); try done.
  destruct (rdata r !! _) as [[| |h]|]; try done.
  unfold read_cached. by destruct (decide (h = ∅)).
Qed.

Lemma mapM_getCachedStake_inv ids config w records w' :
  mapM (λ id, getCachedStake id config) ids w = (Ok records, w') →
  redis w' = redis w
  ∧ db w' = db w
  ∧ Forall2 (λ id c, is_present c = true →
                     ∃ t, now w ≤ t ∧ c = cached_record config (redis w) t id)
            ids records.
Proof.
  revert w records. induction ids as [|id ids IH]; intros w records; simpl.
  - intros [= <- <-]. by repeat split.
  - intros H. apply bind_Ok_inv in H as (c & w1 & Hget & H).
    apply bind_Ok_inv in H as (cs & w2 & Hmap & H).
    injection H as <- <-.
    pose proof (getCachedStake_respects same_redis id config w) as Hredis.
    pose proof (getCachedStake_respects same_db id config w) as Hdb.
    pose proof (getCachedStake_respects later id config w) as Hnow.
    rewrite Hget in Hredis, Hdb, Hnow. unfold same_redis, same_db, later in *.
    simpl in *.
    apply IH in Hmap as (Hredis2 & Hdb2 & Hall).
    split; [congruence |]. split; [congruence |].
    constructor.
    + intros Hp. by eapply getCachedStake_present_inv.
    + eapply Forall2_impl; [exact Hall |]. simpl.
      intros id' c' Hc' Hp. destruct (Hc' Hp) as (t & Ht & ->).
      exists t. rewrite Hredis. split; [lia | done].
Qed.

(** Records that were all found fresh, at whatever times, are fresh at
    the start of the read, and carry the stakes held then. *)
Lemma read_records_fresh config r t ids records :
  Forall2 (λ id c, is_present c = true →
                   ∃ t', t ≤ t' ∧ c = cached_record config r t' id)
          ids records →
  forallb fresh records = true →
  forallb (λ id, fresh (cached_record config r t id)) ids = true
  ∧ omap c_stake records = omap c_stake (cached_record config r t <$> ids).
Proof.
  induction 1 as [|id c ids records Hc _ IH]; simpl; [done |].
  intros [Hfresh Hrest]%andb_prop. destruct (IH Hrest) as [IH1 IH2].
  assert (Hp : is_present c = true) by (by apply andb_prop in Hfresh as [? _]).
  destruct (Hc Hp) as (t' & Ht' & ->).
  pose proof (fresh_earlier config r t t' id Ht' Hfresh) as Hearly.
  rewrite Hearly, IH1. split; [done |].
  assert (Hp0 : is_present (cached_record config r t id) = true)
    by (by apply andb_prop in Hearly as [? _]).
  pose proof (cached_record_stake config r t t' id Hp0 Hp) as Hstake.
  unfold is_present in Hp, Hp0.
  destruct (c_stake (cached_record config r t' id)) as [s'|] eqn:E'; [| done].
  destruct (c_stake (cached_record config r t id)) as [s0|] eqn:E0; [| done].
  change (list_omap _ _ c_stake ?l) with (omap c_stake l).
  injection Hstake as ->. by rewrite IH2.
Qed.

(** Whatever the faults: a read that returns flagged as a hit found a
    cached page whose ids all resolve to fresh records, returns those and
    has touched neither store; a read that returns flagged as a miss
    returns the rows of the table. *)
Lemma getStakes_Ok_inv userId page limit w res w' :
  getStakes userId (mkPaginationDto (Some page) (Some limit)) w = (Ok res, w') →
  if fromCache res
  then page_hit (redis w) (now w) userId page limit = true
       ∧ items res
         = format_item <$>
             omap c_stake
               (cached_record defaultCacheConfigs.stake (redis w) (now w)
                  <$> cached_page (redis w) (now w) userId page limit)
       ∧ db w' = db w ∧ redis w' = redis w
  else items res
       = format_item <$>
           (stake_of_row <$> sql_select userId limit ((page - 1) * limit) (db w)).
Proof.
  unfold getStakes. cbv [default from_option id dto_page dto_limit].
  intros H. apply service_catch_Ok_inv in H.
  apply bind_Ok_inv in H as (ids & w1 & Hrange & H).
  apply redis_call_Ok_inv in Hrange as (r' & Hrange & ->).
  pose proof (redis_lrange_reads _ _ _ _ _ _ _ Hrange) as ->.
  assert (Hids : ids = cached_page (redis w) (now w) userId page limit).
  { unfold redis_lrange in Hrange. unfold cached_page.
    destruct (rget _ _ _) as [[| |]|]; congruence. }
  set (w1 := set_redis _ _) in H.
  apply bind_Ok_inv in H as (hit & w2 & Hhit & H).
  assert (Hw2 : db w2 = db w ∧ redis w2 = redis w
          ∧ (∀ its, hit = Some its →
               page_hit (redis w) (now w) userId page limit = true
               ∧ its = format_item <$>
                   omap c_stake
                     (cached_record defaultCacheConfigs.stake (redis w) (now w)
                        <$> ids))).
  { destruct (0 <? Z.of_nat (length ids)) eqn:Hlen.
    - apply bind_Ok_inv in Hhit as (records & w2' & Hmap & Hret).
      injection Hret as <- <-.
      apply mapM_getCachedStake_inv in Hmap as (Hredis & Hdb & Hall).
      split; [done |]. split; [done |]. intros its.
      rewrite from_cached_fresh by (symmetry; by eapply Forall2_length).
      destruct (forallb fresh records) eqn:Hfresh; [| done].
      intros [= <-].
      destruct (read_records_fresh _ _ _ _ _ Hall Hfresh) as [Hearly ->].
      split; [| done]. unfold page_hit. rewrite <- Hids, Hlen. exact Hearly.
    - injection Hhit as <- <-. by repeat split. }
  destruct Hw2 as (Hdb2 & Hredis2 & Hsome).
  destruct hit as [its|].
  - injection H as <- <-. simpl. destruct (Hsome its eq_refl) as [Hp ->].
    rewrite <- Hids. by repeat split.
  - apply bind_Ok_inv in H as ([] & w3 & Hinit & H).
    apply bind_Ok_inv in H as (dbStakes & w4 & Hdb & H).
    apply bind_Ok_inv in H as ([] & w5 & Hcache & H).
    injection H as <- _. simpl.
    apply DbService_getStakes_Ok_inv in Hdb. rewrite Hdb.
    pose proof (DbService_init_same_db w2) as Hsame.
    rewrite Hinit in Hsame. unfold same_db in Hsame. simpl in Hsame.
    by rewrite Hsame, Hdb2.
Qed.

Lemma is_suffix_append a s : is_suffix s (a +:+ s) = true.
Proof.
  induction a as [|c a IH].
  - change (EmptyString +:+ s) with s.
    destruct s; cbn [is_suffix]; by rewrite String.eqb_refl.
  - rewrite append_cons. cbn [is_suffix]. by rewrite IH, orb_true_r.
Qed.

Lemma cache_well_typed_records r t :
  cache_well_typed r → record_keys_typed r t.
Proof.
  intros Hty. split.
  - intros id. unfold rget. destruct (expired r t _); [done |].
    destruct (rdata r !! _) as [v|] eqn:E; [| done].
    apply Hty in E. unfold typed_entry in E.
    rewrite starts_with_append in E. by destruct v.
  - intros u. unfold rget. destruct (expired r t _); [done |].
    destruct (rdata r !! _) as [v|] eqn:E; [| done].
    apply Hty in E. unfold typed_entry in E.
    rewrite (starts_with_append "user:") in E.
    rewrite <- append_assoc, is_suffix_append in E.
    apply andb_prop in E as [_ E]. by destruct v.
Qed.

(** C4 (the code departs from it).  The lookup of the cached page is
    awaited outside any handler of its own: when that one command
    fails, [getStakes] throws a plain error at once, without a retry,
    a log or a query to the table, although the table holds the
    owner's stake; with a cache that answers, the same read falls
    through to the table and returns it. *)
Theorem getStakes_fails_when_page_lookup_fails :
  let w := (createStake 7 (mkCreateStakeDto 500 3)
              (advance 1000 initial_world)).2 in
  let read := getStakes 7 (mkPaginationDto (Some 1) (Some 20)) in
  let '(outcome, w') := read (set_redis_faults (mkFaults [true] false) w) in
  outcome
  = Throw (PlainError "Failed to retrieve stakes. Please try again later.")
  ∧ rows (db w) = [mkRow 1 500 3 7 1000]
  ∧ w' = w
  ∧ (read w).1
    = Ok (mkStakesResult [mkItem (Some 1) (Some 500) (Some 3)] false).
Proof. vm_compute. done. Qed.

(** The same happens in every world: a failure of the page lookup
    alone makes the read fail, and nothing else is attempted. *)
Lemma getStakes_fails_when_lrange_fails userId dto w :
  (next_fault (redis_faults w)).1 = true →
  getStakes userId dto w
  = (Throw (PlainError "Failed to retrieve stakes. Please try again later."),
     set_redis_faults (next_fault (redis_faults w)).2 w).
Proof.
  intros Hfail. unfold getStakes.
  erewrite try_catch_Throw; cycle 1.
  { eapply bind_Throw. by apply redis_call_fault. }
  reflexivity.
Qed.

(* ================================================================== *)
(** * Keys *)
(* ================================================================== *)

Section keys.

Implicit Types (a b p s x y : string).

Lemma append_inv_l p x y : p +:+ x = p +:+ y → x = y.
Proof.
  induction p as [|c p IH]; [done |].
  rewrite !append_cons. intros [= H]. by apply IH.
Qed.

Lemma starts_with_append_same p a s :
  starts_with (p +:+ a) (p +:+ s) = starts_with a s.
Proof.
  induction p as [|c p IH]; [done |].
  rewrite !append_cons. cbn [starts_with]. by rewrite Ascii.eqb_refl.
Qed.

Lemma append_nil s : "" +:+ s = s.
Proof. reflexivity. Qed.

(** Two strings that agree up to their first colon. *)
Lemma starts_with_colon a b x y :
  no_colon a = true → no_colon b = true →
  starts_with (a +:+ ":" +:+ x) (b +:+ ":" +:+ y) = true →
  a = b.
Proof.
  revert b. induction a as [|c a IH]; intros [|d b] Ha Hb;
    rewrite ?append_nil, ?append_cons; cbn [starts_with no_colon] in *.
  - done.
  - destruct (Ascii.eqb ":" d) eqn:E; [| done].
    apply Ascii.eqb_eq in E as <-. by rewrite Ascii.eqb_refl in Hb.
  - destruct (Ascii.eqb c ":") eqn:E; [| done]. done.
  - destruct (Ascii.eqb c d) eqn:E; [| done].
    apply Ascii.eqb_eq in E as <-.
    apply andb_prop in Ha as [_ Ha]. apply andb_prop in Hb as [_ Hb].
    intros H. f_equal. by apply IH.
Qed.

Lemma starts_with_refl s : starts_with s s = true.
Proof. induction s; cbn [starts_with]; [done |]. by rewrite Ascii.eqb_refl. Qed.

Lemma append_colon_inj a b x y :
  no_colon a = true → no_colon b = true →
  a +:+ ":" +:+ x = b +:+ ":" +:+ y → a = b ∧ x = y.
Proof.
  intros Ha Hb H.
  assert (a = b) as <-.
  { apply (starts_with_colon a b x y Ha Hb). rewrite H. apply starts_with_refl. }
  split; [done |]. apply append_inv_l in H. by injection H.
Qed.

Lemma no_colon_uint d : no_colon (NilEmpty.string_of_uint d) = true.
Proof. induction d; simpl; done. Qed.

Lemma no_colon_decimal z : no_colon (decimal z) = true.
Proof.
  unfold decimal, NilZero.string_of_int.
  destruct (Z.to_int z) as [d|d]; unfold NilZero.string_of_uint.
  - destruct d; try done; simpl; apply no_colon_uint.
  - simpl. destruct d; try done; simpl; apply no_colon_uint.
Qed.

End keys.

(* ================================================================== *)
(** * What a command leaves alone *)
(* ================================================================== *)

Section same_at.

Implicit Types (r : Redis) (k : string).

Global Instance same_at_preorder k : PreOrder (same_at k).
Proof.
  split; [by intros r | intros r1 r2 r3 [] []; split; congruence].
Qed.

Global Instance untouched_ambient k : Ambient (untouched k).
Proof.
  split; [split | ..]; unfold Reflexive, Transitive, untouched; simpl; intros;
    try reflexivity.
  by etrans.
Qed.

Lemma same_at_rget k r r' t : same_at k r r' → rget r' t k = rget r t k.
Proof. intros [Hd He]. unfold rget, expired. by rewrite Hd, He. Qed.

Lemma same_at_rput k r t k' v : k ≠ k' → same_at k r (rput r t k' v).
Proof.
  intros Hne. unfold rput. split; simpl.
  - by rewrite lookup_insert_ne.
  - destruct (expired r t k'); [by rewrite lookup_delete_ne | done].
Qed.

Lemma same_at_rdel k r k' : k ≠ k' → same_at k r (rdel r k').
Proof. intros Hne. split; simpl; by rewrite lookup_delete_ne. Qed.

Lemma same_at_expire k r k' seconds t :
  k ≠ k' → same_at k r (redis_expire k' seconds t r).
Proof.
  intros Hne. unfold redis_expire.
  destruct (rget r t k'); [| done].
  destruct (seconds <=? 0); [by apply same_at_rdel |].
  split; simpl; [done | by rewrite lookup_insert_ne].
Qed.

Lemma same_at_redis_del k ks r : k ∉ ks → same_at k r (redis_del ks r).
Proof.
  induction ks as [|k' ks IH]; intros Hk; simpl; [done |].
  apply not_elem_of_cons in Hk as [Hne Hk].
  etrans; [by apply IH | by apply same_at_rdel].
Qed.

Lemma same_at_lpush k k' v t r a r' :
  k ≠ k' → redis_lpush k' v t r = Some (a, r') → same_at k r r'.
Proof.
  intros Hne. unfold redis_lpush.
  destruct (rget r t k') as [[|l|]|]; intros; simplify_eq;
    by apply same_at_rput.
Qed.

Lemma same_at_incr k k' t r n r' :
  k ≠ k' → redis_incr k' t r = Some (n, r') → same_at k r r'.
Proof.
  intros Hne. unfold redis_incr.
  destruct (rget r t k') as [[c| |]|]; intros; simplify_eq;
    by apply same_at_rput.
Qed.

Lemma same_at_luaScript k k' lim win t r reply r' :
  k ≠ k' → luaScript k' lim win t r = Some (reply, r') → same_at k r r'.
Proof.
  intros Hne. unfold luaScript.
  destruct (redis_get k' t r) as [cur|]; [| done].
  destruct (lim <=? _); [by intros [= _ <-] |].
  destruct (redis_incr k' t r) as [[c r1]|] eqn:E; [| done].
  intros [= _ <-]. apply (same_at_incr k) in E; [| done].
  destruct (c =? 1); [| done].
  etrans; [exact E | by apply same_at_expire].
Qed.

Lemma same_at_command k t c r r' :
  k ∉ command_keys c → run_command t c r = Some r' → same_at k r r'.
Proof.
  destruct c as [k' f|k' s|ks|k' vs]; simpl; intros Hk Hrun.
  - apply not_elem_of_cons in Hk as [Hne _]. unfold redis_hset in Hrun.
    destruct (rget r t k') as [[| |h]|]; simplify_eq; by apply same_at_rput.
  - apply not_elem_of_cons in Hk as [Hne _]. simplify_eq.
    by apply same_at_expire.
  - simplify_eq. by apply same_at_redis_del.
  - apply not_elem_of_cons in Hk as [Hne _]. unfold redis_rpush in Hrun.
    destruct (rget r t k') as [[|l|]|]; simplify_eq; by apply same_at_rput.
Qed.

Lemma same_at_pipeline k t cs r :
  Forall (λ c, k ∉ command_keys c) cs →
  same_at k r (run_pipeline t cs r).1.
Proof.
  intros Hcs. revert r. induction Hcs as [|c cs Hc _ IH]; intros r; [done |].
  simpl. destruct (run_command t c r) as [r'|] eqn:E; [| apply IH].
  etrans; [by eapply same_at_command | apply IH].
Qed.

End same_at.

(* ================================================================== *)
(** * Counters of the rate limiter *)
(* ================================================================== *)

Lemma rate_limit_key_inj ip userId c ip' userId' c' :
  rate_limit_key ip userId (defaultRateLimits c)
  = rate_limit_key ip' userId' (defaultRateLimits c') →
  c = c' ∧ subject_key ip userId = subject_key ip' userId'.
Proof.
  rewrite (rate_limit_key_subject ip userId), (rate_limit_key_subject ip' userId').
  destruct c, c'; cbn [identifier defaultRateLimits];
    rewrite ?append_cons, ?append_nil; intros H; simplify_eq; done.
Qed.

Lemma subject_key_inj ip userId ip' userId' :
  subject_key ip userId = subject_key ip' userId' →
  acting_user userId = acting_user userId'
  ∧ (acting_user userId = None → ip = ip').
Proof.
  unfold subject_key, acting_user.
  destruct userId as [uid|], userId' as [uid'|];
    repeat match goal with |- context [truthy_Z ?u] => destruct (truthy_Z u) end;
    rewrite ?append_cons, ?append_nil; intros H; simplify_eq; try done.
  apply decimal_inj in H. by subst.
Qed.

Lemma checkRateLimit_untouched k ip userId config :
  k ≠ rate_limit_key ip userId config →
  respects (untouched k) (checkRateLimit ip userId config).
Proof.
  intros Hk. unfold checkRateLimit.
  frame respects_try_catch.
  - frame respects_bind.
    + frame respects_redis_call. intros w a r' H.
      unfold untouched. simpl. by eapply same_at_luaScript.
    + intros a. destruct (a.2 =? 1); [frame respects_throw | frame respects_ret].
  - intros e. destruct (instanceof_RateLimitError e);
      [frame respects_throw | frame respects_console_error].
Qed.

(** X5.  Counters are kept apart: two counter keys coincide only for the
    same endpoint and the same subject, two subjects only for the same
    acting user (or, for anonymous requests, the same origin), and a
    check leaves every counter but its own as it was, whatever the
    faults. *)
Theorem checkRateLimit_counters_are_separate ip userId c ip' userId' c' w :
  let key := rate_limit_key ip userId (defaultRateLimits c) in
  let key' := rate_limit_key ip' userId' (defaultRateLimits c') in
  (key = key' →
   c = c' ∧ acting_user userId = acting_user userId'
   ∧ (acting_user userId = None → ip = ip'))
  ∧ (key' ≠ key →
     untouched key' w (checkRateLimit ip userId (defaultRateLimits c) w).2
     ∧ ∀ t, rget (redis (checkRateLimit ip userId (defaultRateLimits c) w).2)
                 t key'
            = rget (redis w) t key').
Proof.
  intros key key'. split.
  - intros H. apply rate_limit_key_inj in H as [-> H].
    split; [done |]. by apply subject_key_inj.
  - intros Hne.
    pose proof (checkRateLimit_untouched key' ip userId (defaultRateLimits c)
                  Hne w) as H.
    split; [exact H |]. intros t. by apply same_at_rget.
Qed.

(** ** One window of requests *)

Section window.

Variables (ip : string) (userId : option Z) (config : RateLimitConfig).

Let key := rate_limit_key ip userId config.

Hypothesis window_positive : 0 < window config.

(** The check that finds no live counter starts one, with a deadline
    one window ahead. *)
Lemma checkRateLimit_first w :
  redis_faults w = no_faults →
  rget (redis w) (now w) key = None →
  0 < limit config →
  ∃ r', checkRateLimit ip userId config w = (Ok tt, set_redis r' w)
        ∧ rget r' (now w) key = Some (VInt 1)
        ∧ rexp r' !! key = Some (now w + window config * 1000).
Proof.
  intros Hf Hget Hlim.
  assert (observed_count (redis w) (now w) key = 0) as Hc.
  { unfold observed_count. by rewrite Hget. }
  destruct (luaScript_increment key (limit config) (window config)
              (now w) (redis w) None) as (r' & Hlua & Hcount & Hexp).
  { unfold redis_get. by rewrite Hget. }
  { lia. }
  { done. }
  rewrite Hc in Hlua, Hcount, Hexp. simpl in Hlua, Hcount, Hexp.
  exists r'. rewrite checkRateLimit_unfold, redis_call_healthy by done.
  fold key. rewrite Hlua. simpl. done.
Qed.

(** The check that finds a live counter admits the request if the count
    is below the limit, and keeps the deadline. *)
Lemma checkRateLimit_next w c :
  redis_faults w = no_faults →
  rget (redis w) (now w) key = Some (VInt c) →
  1 ≤ c →
  if limit config <=? c
  then checkRateLimit ip userId config w = (Throw (exceeded_error config), w)
  else ∃ r', checkRateLimit ip userId config w = (Ok tt, set_redis r' w)
             ∧ rget r' (now w) key = Some (VInt (c + 1))
             ∧ rexp r' !! key = rexp (redis w) !! key.
Proof.
  intros Hf Hget Hc.
  assert (observed_count (redis w) (now w) key = c) as Hobs.
  { unfold observed_count. by rewrite Hget. }
  assert (redis_get key (now w) (redis w) = Some (Some c)) as Hcur.
  { unfold redis_get. by rewrite Hget. }
  destruct (limit config <=? c) eqn:Hle.
  - apply Z.leb_le in Hle.
    rewrite checkRateLimit_unfold, redis_call_healthy by done. fold key.
    rewrite (luaScript_exceeded key _ _ _ _ _ Hcur) by lia.
    simpl. by rewrite set_redis_same.
  - apply Z.leb_gt in Hle.
    destruct (luaScript_increment key (limit config) (window config)
                (now w) (redis w) _ Hcur) as (r' & Hlua & Hcount & Hexp);
      [lia | done |].
    rewrite Hobs in Hlua, Hcount, Hexp.
    rewrite (proj2 (Z.eqb_neq (c + 1) 1)) in Hexp by lia.
    exists r'. rewrite checkRateLimit_unfold, redis_call_healthy by done.
    fold key. rewrite Hlua. simpl. done.
Qed.

Lemma rget_live r t k v : rget r t k = Some v → rdata r !! k = Some v.
Proof. unfold rget. by destruct (expired r t k). Qed.

(** A run of checks inside the window of a live counter. *)
Lemma window_run ds : ∀ w c deadline,
  redis_faults w = no_faults →
  rget (redis w) (now w) key = Some (VInt c) →
  rexp (redis w) !! key = Some deadline →
  1 ≤ c ≤ limit config →
  Forall (λ d, 0 ≤ d) ds →
  now w + total ds ≤ deadline →
  let a := Nat.min (length ds) (Z.to_nat (limit config - c)) in
  let w' := run_checks ds ip userId config w in
  check_outcomes ds ip userId config w
  = replicate a (Ok tt)
    ++ replicate (length ds - a) (Throw (exceeded_error config))
  ∧ redis_faults w' = no_faults
  ∧ rexp (redis w') !! key = Some deadline
  ∧ is_Some (rdata (redis w') !! key)
  ∧ now w' = now w + total ds.
Proof.
  induction ds as [|d ds IH]; intros w c deadline Hf Hget Hexp Hc Hds Hdl.
  { simpl. unfold total. simpl. split; [done |]. split; [done |].
    split; [done |]. split; [| lia]. apply rget_live in Hget. by eexists. }
  apply Forall_cons in Hds as [Hd Hds].
  change (total (d :: ds)) with (d + total ds) in *.
  assert (0 ≤ total ds) as Htot.
  { clear -Hds. induction Hds; unfold total in *; simpl; lia. }
  assert (rget (redis (advance d w)) (now (advance d w)) key = Some (VInt c))
    as Hget'.
  { simpl. rewrite (rget_deadline _ _ (VInt c) deadline);
      [| by eapply rget_live | done].
    by rewrite (proj2 (Z.ltb_ge _ _)) by lia. }
  pose proof (checkRateLimit_next (advance d w) c Hf Hget' ltac:(lia)) as Hstep.
  cbn [check_outcomes run_checks length].
  destruct (limit config <=? c) eqn:Hle.
  - apply Z.leb_le in Hle. rewrite Hstep. cbn [fst snd].
    destruct (IH (advance d w) c deadline) as (Hout & IH2); try done.
    { simpl. lia. }
    rewrite Hout.
    replace (Z.to_nat (limit config - c)) with 0%nat by lia.
    rewrite !Nat.min_0_r. cbn [replicate app]. rewrite !Nat.sub_0_r.
    split; [done |]. simpl in IH2. destruct IH2 as (? & ? & ? & ->).
    repeat split; try done. lia.
  - apply Z.leb_gt in Hle. destruct Hstep as (r' & Hstep & Hcount & Hexp').
    rewrite Hstep. cbn [fst snd].
    destruct (IH (set_redis r' (advance d w)) (c + 1) deadline)
      as (Hout & IH2); try done.
    { simpl. simpl in Hexp'. congruence. }
    { lia. }
    { simpl. lia. }
    rewrite Hout.
    replace (Nat.min (S (length ds)) (Z.to_nat (limit config - c)))
      with (S (Nat.min (length ds) (Z.to_nat (limit config - (c + 1)))))
      by lia.
    cbn [replicate app]. split; [done |].
    simpl in IH2. destruct IH2 as (? & ? & ? & ->).
    repeat split; try done. lia.
Qed.

End window.

(** X4.  Requests counted against a fresh counter: the window opens with
    the first of them, and of those that arrive before it closes exactly
    the first [limit] are admitted, the others refused with the
    rate-limit error.  Once the window has closed the next request is
    admitted and opens a new one. *)
Theorem checkRateLimit_fixed_window ip userId config d ds w :
  redis_faults w = no_faults →
  rdata (redis w) !! rate_limit_key ip userId config = None →
  0 < limit config →
  0 < window config →
  Forall (λ d, 0 ≤ d) ds →
  total ds ≤ window config * 1000 →
  let key := rate_limit_key ip userId config in
  let n := S (length ds) in
  let admitted := Nat.min n (Z.to_nat (limit config)) in
  let w' := run_checks (d :: ds) ip userId config w in
  check_outcomes (d :: ds) ip userId config w
  = replicate admitted (Ok tt)
    ++ replicate (n - admitted) (Throw (exceeded_error config))
  ∧ rexp (redis w') !! key = Some (now w + d + window config * 1000)
  ∧ ∀ pause,
      window config * 1000 < total ds + pause →
      ∃ r'', checkRateLimit ip userId config (advance pause w')
             = (Ok tt, set_redis r'' (advance pause w'))
             ∧ rget r'' (now w' + pause) key = Some (VInt 1)
             ∧ rexp r'' !! key
               = Some (now w' + pause + window config * 1000).
Proof.
  intros Hf Hnone Hlim Hwin Hds Htot key n admitted w'.
  destruct (checkRateLimit_first ip userId config Hwin (advance d w))
    as (r1 & Hfirst & Hcount & Hexp); [done | | done |].
  { unfold rget. simpl. rewrite Hnone. by destruct (expired _ _ _). }
  simpl in Hcount, Hexp.
  destruct (window_run ip userId config Hwin ds (set_redis r1 (advance d w)) 1
              (now w + d + window config * 1000))
    as (Hout & Hf' & Hexp' & [v Hv] & Hnow); try done.
  { lia. }
  { simpl. lia. }
  subst w'. cbn [check_outcomes run_checks]. rewrite Hfirst. cbn [fst snd].
  rewrite Hout. split; [| split; [exact Hexp' |]].
  - subst admitted n.
    replace (Nat.min (S (length ds)) (Z.to_nat (limit config)))
      with (S (Nat.min (length ds) (Z.to_nat (limit config - 1)))) by lia.
    reflexivity.
  - intros pause Hpause.
    set (w1 := run_checks ds ip userId config (set_redis r1 (advance d w))) in *.
    destruct (checkRateLimit_first ip userId config Hwin (advance pause w1))
      as (r'' & Hrun & Hcount' & Hexp''); [done | | done |].
    { simpl. rewrite (rget_deadline _ _ v _ _ Hv Hexp').
      rewrite (proj2 (Z.ltb_lt _ _)); [done |]. rewrite Hnow. simpl. lia. }
    exists r''. done.
Qed.

Lemma checkRateLimit_fixed_window_witness :
  check_outcomes [0; 10; 10; 10] "203.0.113.7" None
    (mkRateLimitConfig 2 60 "demo") initial_world
  = [Ok tt; Ok tt; Throw (RateLimitError "Rate limit exceeded for demo");
     Throw (RateLimitError "Rate limit exceeded for demo")].
Proof.
  refine (proj1 (checkRateLimit_fixed_window "203.0.113.7" None
                   (mkRateLimitConfig 2 60 "demo") 0 [10; 10; 10]
                   initial_world _ _ _ _ _ _)).
  - reflexivity.
  - reflexivity.
  - reflexivity.
  - reflexivity.
  - repeat constructor; discriminate.
  - vm_compute. discriminate.
Defined.

(** ** The two checks of a request *)

(** What one answered check does to its own counter. *)
Lemma checkRateLimit_answered ip userId config w cur :
  redis_faults w = no_faults →
  0 < window config →
  let key := rate_limit_key ip userId config in
  redis_get key (now w) (redis w) = Some cur →
  let c := observed_count (redis w) (now w) key in
  if limit config <=? c
  then checkRateLimit ip userId config w = (Throw (exceeded_error config), w)
  else ∃ r', checkRateLimit ip userId config w = (Ok tt, set_redis r' w)
             ∧ rget r' (now w) key = Some (VInt (c + 1))
             ∧ ∀ k, k ≠ key → same_at k (redis w) r'.
Proof.
  intros Hf Hwin key Hcur c.
  rewrite checkRateLimit_unfold, redis_call_healthy by done. fold key.
  destruct (limit config <=? c) eqn:Hle.
  - apply Z.leb_le in Hle.
    rewrite (luaScript_exceeded key _ _ _ _ _ Hcur) by done.
    simpl. by rewrite set_redis_same.
  - apply Z.leb_gt in Hle.
    destruct (luaScript_increment key (limit config) (window config)
                (now w) (redis w) _ Hcur Hle Hwin) as (r' & Hlua & Hcount & _).
    exists r'. rewrite Hlua. simpl. split; [done |]. split; [done |].
    intros k Hk. by eapply same_at_luaScript.
Qed.

(** C6.  [applyRateLimit] checks the global limit and then the limit of
    the endpoint, both on counters of the same subject.  If the global
    check throws, that error, which names the global scope, is the
    outcome and the endpoint check is not run; otherwise the outcome is
    that of the endpoint check in the world the global check left, and an
    error it throws names the endpoint's scope.  When the counter store
    answers: a global count at its limit of 100 is reported as exceeded
    for the global scope, whatever the endpoint count, and nothing is
    counted; below it the global counter goes up by one and the endpoint
    limit is looked at, where a count at the limit is reported as
    exceeded for the endpoint's scope and a count below it goes up by
    one and lets the request pass. *)
Theorem applyRateLimit_global_then_endpoint request userId configKey w :
  let ip := client_ip request in
  let subject := subject_key ip userId in
  let endpoint := defaultRateLimits configKey in
  let gkey := "ratelimit:global:" +:+ subject in
  let ekey := "ratelimit:" +:+ identifier endpoint +:+ ":" +:+ subject in
  rate_limit_key ip userId (defaultRateLimits global) = gkey
  ∧ rate_limit_key ip userId endpoint = ekey
  ∧ match checkRateLimit ip userId (defaultRateLimits global) w with
    | (Throw e, w1) =>
        applyRateLimit request userId configKey w = (Throw e, w1)
        ∧ e = RateLimitError "Rate limit exceeded for global"
    | (Ok _, w1) =>
        applyRateLimit request userId configKey w
          = checkRateLimit ip userId endpoint w1
        ∧ match (checkRateLimit ip userId endpoint w1).1 with
          | Throw e =>
              e = RateLimitError
                    ("Rate limit exceeded for " +:+ identifier endpoint)
          | Ok _ => True
          end
    end
  ∧ (redis_faults w = no_faults →
     is_Some (redis_get gkey (now w) (redis w)) →
     is_Some (redis_get ekey (now w) (redis w)) →
     let g := observed_count (redis w) (now w) gkey in
     if 100 <=? g
     then applyRateLimit request userId configKey w
          = (Throw (RateLimitError "Rate limit exceeded for global"), w)
     else
       let w1 := (checkRateLimit ip userId (defaultRateLimits global) w).2 in
       let e := observed_count (redis w1) (now w) ekey in
       rget (redis w1) (now w) gkey = Some (VInt (g + 1))
       ∧ if limit endpoint <=? e
         then applyRateLimit request userId configKey w
              = (Throw (RateLimitError
                          ("Rate limit exceeded for " +:+ identifier endpoint)),
                 w1)
         else ∃ r',
                applyRateLimit request userId configKey w
                = (Ok tt, set_redis r' w1)
                ∧ rget r' (now w) ekey = Some (VInt (e + 1))).
Proof.
  intros ip subject endpoint gkey ekey.
  assert (rate_limit_key ip userId (defaultRateLimits global) = gkey)
    as Hgkey by apply rate_limit_key_subject.
  assert (rate_limit_key ip userId endpoint = ekey)
    as Hekey by apply rate_limit_key_subject.
  split; [exact Hgkey |]. split; [exact Hekey |].
  unfold applyRateLimit. fold ip endpoint. split.
  { destruct (checkRateLimit ip userId (defaultRateLimits global) w)
      as [[[]|e] w1] eqn:E.
    - split; [by rewrite (bind_Ok _ _ _ _ _ E) |].
      destruct (checkRateLimit ip userId endpoint w1) as [[|e] w2] eqn:E2;
        [done |].
      by apply checkRateLimit_throws_only_exceeded in E2.
    - split; [by rewrite (bind_Throw _ _ _ _ _ E) |].
      by apply checkRateLimit_throws_only_exceeded in E. }
  intros Hf [cur_global Hg] [cur_endpoint He].
  set (g := observed_count (redis w) (now w) gkey).
  rewrite <- Hgkey in Hg.
  pose proof (checkRateLimit_answered ip userId (defaultRateLimits global) w
                cur_global Hf ltac:(done) Hg) as H1.
  cbv zeta in H1. rewrite Hgkey in H1. fold g in H1.
  change (limit (defaultRateLimits global)) with 100 in H1.
  destruct (100 <=? g).
  { by rewrite (bind_Throw _ _ _ _ _ H1). }
  destruct H1 as (r1 & H1 & Hg1 & Hframe).
  rewrite (bind_Ok _ _ _ _ _ H1), H1. cbn [snd].
  change (redis (set_redis r1 w)) with r1.
  set (e := observed_count r1 (now w) ekey).
  split; [exact Hg1 |].
  assert (0 < window endpoint) as Hwin by (by destruct configKey).
  assert (∃ cur, redis_get (rate_limit_key ip userId endpoint) (now w) r1
                 = Some cur) as [cur He1].
  { rewrite Hekey. unfold redis_get.
    destruct (decide (ekey = gkey)) as [Heq | Hne].
    - rewrite Heq, Hg1. by eexists.
    - rewrite (same_at_rget _ _ _ _ (Hframe ekey Hne)).
      unfold redis_get in He. by eexists. }
  pose proof (checkRateLimit_answered ip userId endpoint (set_redis r1 w)
                cur Hf Hwin He1) as H2.
  cbv zeta in H2. rewrite Hekey in H2. simpl in H2. fold e in H2.
  destruct (limit endpoint <=? e).
  - exact H2.
  - destruct H2 as (r2 & H2 & He2 & _). by exists r2.
Qed.

(** X6.  A request is counted against the global limit before the limit
    of its endpoint is looked at.  One that the global limit refuses
    changes nothing; one that the endpoint limit refuses has still used
    up one unit of the global allowance. *)
Theorem applyRateLimit_spends_global_allowance request userId configKey w
    cur_global cur_endpoint :
  configKey ≠ global →
  redis_faults w = no_faults →
  let ip := client_ip request in
  let endpoint := defaultRateLimits configKey in
  let gkey := rate_limit_key ip userId (defaultRateLimits global) in
  let ekey := rate_limit_key ip userId endpoint in
  redis_get gkey (now w) (redis w) = Some cur_global →
  redis_get ekey (now w) (redis w) = Some cur_endpoint →
  let g := observed_count (redis w) (now w) gkey in
  let e := observed_count (redis w) (now w) ekey in
  let '(outcome, w') := applyRateLimit request userId configKey w in
  if 100 <=? g
  then outcome = Throw (RateLimitError "Rate limit exceeded for global")
       ∧ w' = w
  else rget (redis w') (now w) gkey = Some (VInt (g + 1))
       ∧ if limit endpoint <=? e
         then outcome = Throw (exceeded_error endpoint)
              ∧ untouched ekey w w'
         else outcome = Ok tt
              ∧ rget (redis w') (now w) ekey = Some (VInt (e + 1)).
Proof.
  intros Hkey Hf ip endpoint gkey ekey Hg He g e.
  assert (ekey ≠ gkey) as Hne.
  { intros H. apply rate_limit_key_inj in H as [H _]. done. }
  unfold applyRateLimit. fold ip endpoint.
  pose proof (checkRateLimit_answered ip userId (defaultRateLimits global) w
                cur_global Hf ltac:(done) Hg) as H1.
  cbv zeta in H1. fold gkey g in H1.
  change (limit (defaultRateLimits global)) with 100 in H1.
  destruct (100 <=? g).
  { rewrite (bind_Throw _ _ _ _ _ H1). done. }
  destruct H1 as (r1 & H1 & Hg1 & Hframe).
  rewrite (bind_Ok _ _ _ _ _ H1).
  pose proof (Hframe ekey Hne) as Hsame.
  assert (0 < window endpoint) as Hwin by (by destruct configKey).
  pose proof (checkRateLimit_answered ip userId endpoint (set_redis r1 w)
                cur_endpoint Hf Hwin) as H2.
  cbv zeta in H2. fold ekey in H2. simpl in H2.
  unfold redis_get, observed_count in H2.
  rewrite (same_at_rget _ _ _ _ Hsame) in H2.
  specialize (H2 He). fold (observed_count (redis w) (now w) ekey) in H2.
  fold e in H2.
  destruct (limit endpoint <=? e).
  - rewrite H2. split; [done |]. split; [done |]. exact Hsame.
  - destruct H2 as (r2 & -> & He2 & Hframe2). simpl.
    rewrite (same_at_rget _ _ _ _ (Hframe2 gkey (not_eq_sym Hne))).
    done.
Qed.

Lemma applyRateLimit_spends_global_allowance_witness :
  let r := mkRedis (<["ratelimit:global:user:1" := VInt 41]>
                      (<["ratelimit:stake:get:user:1" := VInt 60]> ∅)) ∅ in
  let w := set_redis r initial_world in
  let '(outcome, w') :=
    applyRateLimit (mkRequest (Some "203.0.113.7") None) (Some 1) stakeGet w in
  rget (redis w') 0 "ratelimit:global:user:1" = Some (VInt 42)
  ∧ outcome = Throw (RateLimitError "Rate limit exceeded for stake:get")
  ∧ untouched "ratelimit:stake:get:user:1" w w'.
Proof.
  exact (applyRateLimit_spends_global_allowance
           (mkRequest (Some "203.0.113.7") None) (Some 1) stakeGet
           (set_redis
              (mkRedis (<["ratelimit:global:user:1" := VInt 41]>
                          (<["ratelimit:stake:get:user:1" := VInt 60]> ∅)) ∅)
              initial_world)
           (Some 41) (Some 60)
           ltac:(discriminate) eq_refl eq_refl eq_refl).
Defined.

(* ================================================================== *)
(** * Reading a record under faults *)
(* ================================================================== *)

Section cache_loop.

Context {A : Type} (what final : string) (fallback : A) (body : M A).



End cache_loop.

Section read_body.

Variables (id : string) (config : CacheConfig).

Let body : M Cached :=
  let* data := redis_call (redis_hgetall ("stake:" +:+ id)) in
  let* t := Date_now in
  ret (read_cached config data t).


Lemma read_body_reply w :
  (next_fault (redis_faults w)).1 = false →
  hash_or_nothing (rget (redis w) (now w) ("stake:" +:+ id)) →
  body w = (Ok (cached_record config (redis w) (now w) id), redis_tick w).
Proof.
  intros Hf Hty. unfold body, bind. rewrite redis_call_reply by done.
  unfold redis_hgetall, cached_record, redis_tick. cbv zeta.
  destruct (rget (redis w) (now w) ("stake:" +:+ id)) as [[| |h]|]; try done;
    simpl; by rewrite set_redis_same.
Qed.

End read_body.



(** What a record that is reported present, or stale, says about the
    key it was read from. *)
Lemma cached_record_present config r t id :
  is_present (cached_record config r t id) = true →
  ∃ h, rget r t ("stake:" +:+ id) = Some (VHash h) ∧ h ≠ ∅.
Proof.
  unfold cached_record.
  destruct (rget r t ("stake:" +:+ id)) as [[| |h]|]; try done.
  unfold read_cached. destruct (decide (h = ∅)); [done |]. by exists h.
Qed.

Lemma cached_record_stale config r t id :
  isStale (cached_record config r t id) = true →
  is_present (cached_record config r t id) = true
  ∧ staleWhileRevalidate config = true.
Proof.
  unfold cached_record.
  destruct (rget r t ("stake:" +:+ id)) as [[| |h]|]; try done.
  unfold read_cached. destruct (decide (h = ∅)); [done |]. simpl.
  destruct (h !! "_cached_at") as [c|]; [| done]. simpl.
  destruct (staleWhileRevalidate config); [done |]. done.
Qed.

(** What a cache read returns is what the key holds at the time of the
    attempt that was answered, or a miss. *)
Lemma cache_attempts_read_cases n attempt what final id config w c w' :
  0 ≤ attempt →
  cache_attempts n attempt what final (mkCached None false)
    (let* data := redis_call (redis_hgetall ("stake:" +:+ id)) in
     let* t := Date_now in
     ret (read_cached config data t)) w = (Ok c, w') →
  c = mkCached None false
  ∨ ∃ t, now w ≤ t ∧ c = cached_record config (redis w) t id.
Proof.
  set (body := bind _ _).
  assert (Hbody : ∀ w0,
    (∃ w1, body w0 = (Ok (cached_record config (redis w0) (now w0) id), w1))
    ∨ (∃ e w1, body w0 = (Throw e, w1)
               ∧ redis w1 = redis w0 ∧ now w1 = now w0)).
  { intros w0. unfold body, bind, redis_call, cached_record, redis_hgetall.
    destruct (next_fault _) as [[] fs]; [right; by eexists _, _ |].
    destruct (rget _ _ _) as [[| |h]|].
    - right. by eexists _, _.
    - right. by eexists _, _.
    - left. by eexists.
    - left. by eexists. }
  clearbody body. intros Hat. revert attempt Hat w.
  induction n as [|n IH]; intros attempt Hat w; simpl.
  - intros [= <- _]. by left.
  - unfold try_catch.
    destruct (Hbody w) as [[w1 ->] | (e & w1 & -> & Hr & Hn)].
    + intros [= <- _]. right. exists (now w). split; [lia | done].
    + unfold bind, console_error.
      destruct (attempt =? MAX_CACHE_RETRIES); [intros [= <- _]; by left |].
      unfold sleep. intros H.
      apply IH in H as [-> | (t & Ht & ->)]; [by left | | lia].
      simpl in *. right. exists t. rewrite Hr. split; [lia | done].
Qed.

(** X1.  Whatever the faults and whatever the key holds, a cache read
    returns: it never throws, and it changes neither the cache nor the
    table.  It reports a stake only if the key held a hash with at
    least one field at some moment of the call, and it reports a stale
    record only with a stake, for a class with stale-while-revalidate
    on.  When the round trip is answered and the key is absent or has
    expired, the result is a miss, and nothing is logged or waited
    for. *)
Theorem getCachedStake_never_throws_never_writes id config w :
  ∃ c w',
    getCachedStake id config w = (Ok c, w')
    ∧ redis w' = redis w
    ∧ db w' = db w
    ∧ now w ≤ now w'
    ∧ (is_present c = true →
       ∃ t h, now w ≤ t
              ∧ rget (redis w) t ("stake:" +:+ id) = Some (VHash h)
              ∧ h ≠ ∅)
    ∧ (isStale c = true →
       is_present c = true ∧ staleWhileRevalidate config = true)
    ∧ ((next_fault (redis_faults w)).1 = false →
       rget (redis w) (now w) ("stake:" +:+ id) = None →
       c = mkCached None false ∧ now w' = now w ∧ trace w' = trace w).
Proof.
  destruct (cache_attempts_never_throws
              (Z.to_nat (MAX_CACHE_RETRIES + 1)) 0
              "Error getting cached stake"
              "Failed to get cached stake after multiple attempts:"
              (mkCached None false)
              (let* data := redis_call (redis_hgetall ("stake:" +:+ id)) in
               let* t := Date_now in
               ret (read_cached config data t)) w) as (c & w' & Hrun).
  change (getCachedStake id config w = (Ok c, w')) in Hrun.
  exists c, w'. split; [exact Hrun |].
  pose proof (getCachedStake_respects same_redis id config w) as Hr.
  pose proof (getCachedStake_respects same_db id config w) as Hd.
  pose proof (getCachedStake_respects later id config w) as Hl.
  rewrite Hrun in Hr, Hd, Hl.
  split; [exact Hr |]. split; [exact Hd |]. split; [exact Hl |].
  assert (c = mkCached None false
          ∨ ∃ t, now w ≤ t ∧ c = cached_record config (redis w) t id) as Hread
    by (eapply (cache_attempts_read_cases _ 0); [lia | exact Hrun]).
  split.
  { intros Hp. destruct Hread as [-> | (t & Ht & ->)]; [done |].
    apply cached_record_present in Hp as (h & Hh & Hne). by exists t, h. }
  split.
  { intros Hs. destruct Hread as [-> | (t & Ht & ->)]; [done |].
    by apply cached_record_stale. }
  intros Hf Hnone. revert Hrun. unfold getCachedStake.
  change (Z.to_nat (MAX_CACHE_RETRIES + 1)) with 3%nat.
  erewrite cache_attempts_returns; cycle 1.
  { apply read_body_reply; [done |]. by rewrite Hnone. }
  unfold cached_record. rewrite Hnone. intros [= <- <-]. done.
Qed.

(* ================================================================== *)
(** * The id list of an owner *)
(* ================================================================== *)

Section ids_unique.

Implicit Types (r : Redis) (k v : string).

Lemma index_of_None v l : index_of v l = None → v ∉ l.
Proof.
  induction l as [|x l IH]; simpl; [intros _; apply not_elem_of_nil |].
  destruct (String.eqb x v) eqn:E; [done |].
  apply String.eqb_neq in E.
  destruct (index_of v l); [done |]. intros _.
  apply not_elem_of_cons. split; [congruence | by apply IH].
Qed.

Lemma index_of_Some v l i : index_of v l = Some i → v ∈ l.
Proof.
  revert i. induction l as [|x l IH]; simpl; intros i; [done |].
  destruct (String.eqb x v) eqn:E.
  - apply String.eqb_eq in E as ->. intros _. apply list_elem_of_here.
  - destruct (index_of v l) as [j|]; [| done]. intros _.
    apply list_elem_of_further. by eapply IH.
Qed.

Lemma ids_unique_rput r t k val :
  (∀ l, val = VList l → NoDup l) →
  ids_unique r → ids_unique (rput r t k val).
Proof.
  intros Hval H k' l. unfold rput; simpl. rewrite lookup_insert.
  case_decide; [intros [= ->]; by apply Hval | apply H].
Qed.

Lemma ids_unique_rdel r k : ids_unique r → ids_unique (rdel r k).
Proof.
  intros H k' l. unfold rdel; simpl. rewrite lookup_delete.
  case_decide; [done | apply H].
Qed.

Lemma ids_unique_expire r k seconds t :
  ids_unique r → ids_unique (redis_expire k seconds t r).
Proof.
  intros H. unfold redis_expire. destruct (rget r t k); [| done].
  destruct (seconds <=? 0); [by apply ids_unique_rdel | done].
Qed.

Lemma ids_unique_hset r k fields t r' :
  redis_hset k fields t r = Some r' → ids_unique r → ids_unique r'.
Proof.
  unfold redis_hset.
  destruct (rget r t k) as [[| |h]|]; intros; simplify_eq;
    by apply ids_unique_rput.
Qed.

(** The two commands that [cacheStake] queues. *)
Lemma ids_unique_put_pipeline r t k fields seconds :
  ids_unique r →
  ids_unique (run_pipeline t [HSET k fields; EXPIRE k seconds] r).1.
Proof.
  intros H. simpl. destruct (redis_hset k fields t r) as [r1|] eqn:E; simpl.
  - apply ids_unique_expire. by eapply ids_unique_hset.
  - by apply ids_unique_expire.
Qed.

(** A push that follows a lookup which did not find the value. *)
Lemma ids_unique_lpush_absent r t k v r0 a r' :
  redis_lpos k v t r = Some (None, r0) →
  redis_lpush k v t r = Some (a, r') →
  ids_unique r → ids_unique r'.
Proof.
  unfold redis_lpos, redis_lpush. intros Hpos Hpush H.
  destruct (rget r t k) as [[|l|]|] eqn:Hget; try discriminate.
  - injection Hpos as Hi _. injection Hpush as _ <-.
    apply ids_unique_rput; [| done]. intros l' [= <-].
    apply NoDup_cons. split; [by apply index_of_None |].
    apply (H k). unfold rget in Hget. by destruct (expired r t k).
  - injection Hpush as _ <-.
    apply ids_unique_rput; [| done]. intros l' [= <-].
    apply NoDup_singleton.
Qed.

End ids_unique.

Lemma redis_call_cases {A} (cmd : Z → Redis → option (A * Redis)) w :
  redis_call cmd w = (Throw RedisError, redis_tick w)
  ∨ ∃ a r', cmd (now w) (redis w) = Some (a, r')
            ∧ redis_call cmd w = (Ok a, set_redis r' (redis_tick w)).
Proof.
  unfold redis_call, redis_tick.
  destruct (next_fault (redis_faults w)) as [[] fs]; simpl; [by left |].
  destruct (cmd (now w) (redis w)) as [[a r']|]; [right | by left].
  by exists a, r'.
Qed.

Lemma cacheStake_keeps_ids_unique stake config :
  respects (keeps ids_unique) (cacheStake stake config).
Proof.
  unfold cacheStake. frame respects_cache_attempts; [done |].
  frame respects_bind; [| intros created].
  { destruct (s_createdAt stake); [frame respects_ret | frame respects_throw]. }
  frame respects_bind; [frame respects_Date_now | intros t].
  frame respects_bind; [| intros _].
  { frame respects_pipeline_exec. intros w H. simpl redis.
    by apply ids_unique_put_pipeline. }
  intros w H. unfold bind.
  destruct (redis_call_cases
              (redis_lpos ("user:" +:+ toString (s_userId stake) +:+ ":stake_ids")
                          (toString (s_id stake))) w)
    as [-> | (x & r0 & Hpos & ->)]; [done |].
  pose proof (redis_lpos_reads _ _ _ _ _ _ Hpos) as ->.
  destruct x as [i|]; [done |].
  destruct (redis_call_cases
              (redis_lpush ("user:" +:+ toString (s_userId stake) +:+ ":stake_ids")
                           (toString (s_id stake)))
              (set_redis (redis w) (redis_tick w)))
    as [-> | (a & r' & Hpush & ->)]; [done |].
  simpl in *. by eapply ids_unique_lpush_absent.
Qed.

Lemma cached_store_lists_id stake config created t r r' :
  cached_store stake config created t r = Some r' →
  ∃ l, rget r' t (user_stakes_key stake) = Some (VList l)
       ∧ toString (s_id stake) ∈ l.
Proof.
  unfold cached_store.
  destruct (run_pipeline _ _ _) as [r1 []]; [| done].
  unfold redis_lpos, redis_lpush.
  destruct (rget r1 t (user_stakes_key stake)) as [[|l|]|] eqn:Hget; [done | | done |].
  - destruct (index_of _ l) as [i|] eqn:Hi.
    + intros [= <-]. exists l. split; [done |]. by eapply index_of_Some.
    + simpl. intros [= <-]. eexists.
      rewrite rget_rput, decide_True by done. split; [done |].
      apply list_elem_of_here.
  - simpl. intros [= <-]. eexists.
    rewrite rget_rput, decide_True by done. split; [done |].
    apply list_elem_of_here.
Qed.

(** X3.  [cacheStake] looks the id up in the owner's list before it
    pushes it, so that a list without repetitions stays without them,
    whatever the faults; and once the commands are answered the list
    holds the id, exactly once. *)
Theorem cacheStake_lists_id_once stake config w :
  ids_unique (redis w) →
  let w' := (cacheStake stake config w).2 in
  ids_unique (redis w')
  ∧ (redis_faults w = no_faults →
     is_Some (s_createdAt stake) →
     hash_or_nothing (rget (redis w) (now w) (stake_key stake)) →
     list_or_nothing (rget (redis w) (now w) (user_stakes_key stake)) →
     0 < expiry_seconds config →
     ∃ l, rget (redis w') (now w) (user_stakes_key stake) = Some (VList l)
          ∧ toString (s_id stake) ∈ l
          ∧ NoDup l).
Proof.
  intros Hinv w'.
  assert (ids_unique (redis w')) as Hinv'
    by apply (cacheStake_keeps_ids_unique stake config w Hinv).
  split; [exact Hinv' |].
  intros Hf [created Hcreated] Hhash Hlist Hsec.
  destruct (cached_store_spec stake config (decimal created) (now w) (redis w)
              Hhash Hlist Hsec) as (h & r' & Hstore & _).
  pose proof (cacheStake_healthy stake config created w r' Hf Hcreated Hstore)
    as Hrun.
  subst w'. rewrite Hrun in *. simpl in *.
  destruct (cached_store_lists_id _ _ _ _ _ _ Hstore) as (l & Hl & Hin).
  exists l. split; [done |]. split; [done |].
  apply (Hinv' (user_stakes_key stake)). unfold rget in Hl.
  by destruct (expired r' (now w) _).
Qed.

Lemma cacheStake_lists_id_once_witness :
  let stake := mkStake (Some 1) (Some 1000) (Some 12) (Some 7) (Some 0) in
  let once := (cacheStake stake defaultCacheConfigs.stake initial_world).2 in
  let twice := (cacheStake stake defaultCacheConfigs.stake once).2 in
  rdata (redis once) !! "user:7:stake_ids" = Some (VList ["1"])
  ∧ ids_unique (redis twice).
Proof.
  split; [vm_compute; reflexivity |].
  refine (proj1 (cacheStake_lists_id_once
                   (mkStake (Some 1) (Some 1000) (Some 12) (Some 7) (Some 0))
                   defaultCacheConfigs.stake
                   (cacheStake
                      (mkStake (Some 1) (Some 1000) (Some 12) (Some 7) (Some 0))
                      defaultCacheConfigs.stake initial_world).2 _)).
  refine (proj1 (cacheStake_lists_id_once
                   (mkStake (Some 1) (Some 1000) (Some 12) (Some 7) (Some 0))
                   defaultCacheConfigs.stake initial_world _)).
  intros k l H. vm_compute in H. discriminate.
Defined.

(* ================================================================== *)
(** * How the service functions fail *)
(* ================================================================== *)

Lemma bind_Throw_inv {A B} (m : M A) (k : A → M B) w e w' :
  bind m k w = (Throw e, w') →
  m w = (Throw e, w')
  ∨ ∃ a w1, m w = (Ok a, w1) ∧ k a w1 = (Throw e, w').
Proof.
  unfold bind. destruct (m w) as [[a|e0] w1]; intros H.
  - right. by exists a, w1.
  - injection H as -> ->. by left.
Qed.

(** The handler of [createStake] and [getStakes]: a store error passes,
    anything else becomes the generic error. *)
Lemma service_catch_Throw_inv {A} (m : M A) (text : string) w e w' :
  try_catch m
    (λ error, if instanceof_DatabaseError error then throw error
              else throw (PlainError text)) w = (Throw e, w') →
  ∃ e0, m w = (Throw e0, w')
        ∧ e = if instanceof_DatabaseError e0 then e0 else PlainError text.
Proof.
  unfold try_catch, throw. destruct (m w) as [[a|e0] w1]; [done |].
  intros H. exists e0.
  destruct (instanceof_DatabaseError e0); injection H as <- <-; done.
Qed.

Lemma redis_call_Throw_inv {A} (cmd : Z → Redis → option (A * Redis)) w e w' :
  redis_call cmd w = (Throw e, w') →
  e = RedisError ∧ w' = redis_tick w
  ∧ ((next_fault (redis_faults w)).1 = true ∨ cmd (now w) (redis w) = None).
Proof.
  unfold redis_call, redis_tick.
  destruct (next_fault (redis_faults w)) as [[] fs]; simpl.
  - intros [= <- <-]. auto.
  - destruct (cmd (now w) (redis w)) as [[a r']|]; [done |].
    intros [= <- <-]. auto.
Qed.

(** A loop of the backing-store client that throws has used up its
    attempts: the error is the final one, and if the failed attempts
    left the stores alone so has the loop. *)
Lemma db_attempts_Throw_inv {A} n attempt what final after (body : M A) w e w' :
  (∀ w0 e0 w1, body w0 = (Throw e0, w1) →
               db w1 = db w0 ∧ redis w1 = redis w0) →
  1 ≤ attempt ≤ 3 →
  (Z.to_nat (3 - attempt) < n)%nat →
  db_attempts n attempt what final after body w = (Throw e, w') →
  e = DatabaseError final ∧ db w' = db w ∧ redis w' = redis w.
Proof.
  intros Hbody. revert attempt w.
  induction n as [|n IH]; intros attempt w Hat Hn; [lia |].
  simpl. unfold try_catch.
  destruct (body w) as [[a|e0] w1] eqn:E; [done |].
  apply Hbody in E as [Hd Hr].
  unfold bind, console_error.
  destruct (attempt =? 3) eqn:H3.
  - intros [= <- <-]. simpl. done.
  - apply Z.eqb_neq in H3. unfold sleep. intros H.
    apply IH in H as (-> & Hd' & Hr'); [| lia | lia].
    simpl in *. split; [done |]. split; congruence.
Qed.

Lemma sql_call_Throw_inv {A} (query : Z → Db → A * Db) w e w' :
  sql_call query w = (Throw e, w') → db w' = db w ∧ redis w' = redis w.
Proof.
  unfold sql_call. destruct (next_fault (db_faults w)) as [[] fs].
  - by intros [= _ <-].
  - by destruct (query (now w) (db w)).
Qed.

Lemma DbService_init_Throw_inv w e w' :
  DbService.init w = (Throw e, w') →
  e = DatabaseError "Failed to initialize database after multiple attempts"
  ∧ db w' = db w ∧ redis w' = redis w.
Proof.
  apply db_attempts_Throw_inv; [| lia | simpl; lia].
  intros w0 e0 w1 H. apply bind_Throw_inv in H as [H | (a & w2 & _ & H)].
  - by apply sql_call_Throw_inv in H.
  - done.
Qed.

Lemma DbService_createStake_Throw_inv userId amount period w e w' :
  DbService.createStake userId amount period w = (Throw e, w') →
  e = DatabaseError "Failed to create stake in database after multiple attempts"
  ∧ db w' = db w ∧ redis w' = redis w.
Proof.
  apply db_attempts_Throw_inv; [| lia | simpl; lia].
  intros w0 e0 w1 H. apply bind_Throw_inv in H as [H | (a & w2 & Hq & H)].
  - by apply sql_call_Throw_inv in H.
  - exfalso. unfold sql_call in Hq.
    destruct (next_fault (db_faults w0)) as [[] fs]; [done |].
    simpl in Hq. injection Hq as <- <-. done.
Qed.

Lemma DbService_getStakes_Throw_inv userId page limit w e w' :
  DbService.getStakes userId page limit w = (Throw e, w') →
  e = DatabaseError
        "Failed to retrieve stakes from database after multiple attempts"
  ∧ db w' = db w ∧ redis w' = redis w.
Proof.
  apply db_attempts_Throw_inv; [| lia | simpl; lia].
  intros w0 e0 w1 H. apply bind_Throw_inv in H as [H | (a & w2 & _ & H)].
  - by apply sql_call_Throw_inv in H.
  - done.
Qed.

Lemma DbService_init_same_redis : respects same_redis DbService.init.
Proof.
  unfold DbService.init. frame respects_db_attempts; [done |].
  frame respects_bind; [| intros _; frame respects_console_log].
  frame respects_sql_call. intros w. reflexivity.
Qed.

Section throws_only.

Context (P : Error → Prop).

Lemma throws_only_ret {A} (a : A) : throws_only P (ret a).
Proof. intros w e w' H. discriminate. Qed.

Lemma throws_only_bind {A B} (m : M A) (k : A → M B) :
  throws_only P m → (∀ a, throws_only P (k a)) → throws_only P (bind m k).
Proof.
  intros Hm Hk w e w' H. apply bind_Throw_inv in H as [H | (a & w1 & _ & H)].
  - by eapply Hm.
  - by eapply Hk.
Qed.

Lemma throws_only_console_log text : throws_only P (console_log text).
Proof. intros w e w' H. discriminate. Qed.

Lemma throws_only_redis_call {A} (cmd : Z → Redis → option (A * Redis)) :
  P RedisError → throws_only P (redis_call cmd).
Proof.
  intros HP w e w' H. by apply redis_call_Throw_inv in H as (-> & _).
Qed.

End throws_only.

Lemma redis_call_same_db {A} (cmd : Z → Redis → option (A * Redis)) :
  respects same_db (redis_call cmd).
Proof. frame respects_redis_call. intros w a r' _. reflexivity. Qed.

(** X7.  A write fails in one of two ways.  With a store error, when the
    table could not be set up or the row could not be inserted in three
    attempts: then neither the table nor the cache has changed.  Or with
    the generic error, when a cache command issued after the record was
    cached fails: then the row is already in the table. *)
Theorem createStake_failure_modes userId dto w e w' :
  createStake userId dto w = (Throw e, w') →
  ((e = DatabaseError "Failed to initialize database after multiple attempts"
    ∨ e = DatabaseError
            "Failed to create stake in database after multiple attempts")
   ∧ db w' = db w ∧ redis w' = redis w)
  ∨ (e = PlainError "Failed to create stake. Please try again later."
     ∧ ∃ t, now w ≤ t
            ∧ rows (db w')
              = rows (db w)
                ++ [mkRow (next_id (db w)) (dto_amount dto) (dto_period dto)
                          userId t]).
Proof.
  unfold createStake. intros H.
  apply service_catch_Throw_inv in H as (e0 & H & ->).
  pose proof (DbService_init_same_db w) as Hdb1.
  pose proof (DbService_init_same_redis w) as Hr1.
  pose proof (DbService_init_later w) as Hnow1.
  apply bind_Throw_inv in H as [H | ([] & w1 & Hinit & H)].
  { apply DbService_init_Throw_inv in H as (-> & ? & ?). left. auto. }
  rewrite Hinit in Hdb1, Hr1, Hnow1. unfold same_db, same_redis, later in *.
  simpl in Hdb1, Hr1, Hnow1.
  apply bind_Throw_inv in H as [H | (dbStake & w2 & Hinsert & H)].
  { apply DbService_createStake_Throw_inv in H as (-> & ? & ?).
    left. split; [auto |]. split; congruence. }
  apply DbService_createStake_Ok_inv in Hinsert
    as (t & Ht & -> & Hrows & _ & _).
  right.
  apply bind_Throw_inv in H as [H | ([] & w3 & Hcache & H)].
  { destruct (cacheStake_never_throws
                (stake_of_row (mkRow (next_id (db w1)) (dto_amount dto)
                                     (dto_period dto) userId t))
                defaultCacheConfigs.stake w2) as [w3 Hok].
    rewrite Hok in H. discriminate. }
  pose proof (cacheStake_same_db
                (stake_of_row (mkRow (next_id (db w1)) (dto_amount dto)
                                     (dto_period dto) userId t))
                defaultCacheConfigs.stake w2) as Hdb3.
  rewrite Hcache in Hdb3. unfold same_db in Hdb3. simpl in Hdb3.
  match type of H with
  | ?m w3 = _ =>
      assert (throws_only (eq RedisError) m) as Hthrows;
      [| assert (respects same_db m) as Hsame]
  end.
  { apply throws_only_bind; [by apply throws_only_redis_call | intros _].
    apply throws_only_bind; [by apply throws_only_redis_call | intros keys].
    apply throws_only_bind; [| intros _; apply throws_only_ret].
    destruct (0 <? _); [| apply throws_only_ret].
    apply throws_only_bind; [by apply throws_only_redis_call | intros _].
    apply throws_only_console_log. }
  { frame respects_bind; [apply redis_call_same_db | intros _].
    frame respects_bind; [apply redis_call_same_db | intros keys].
    frame respects_bind; [| intros _; frame respects_ret].
    destruct (0 <? _); [| frame respects_ret].
    frame respects_bind; [apply redis_call_same_db | intros _].
    frame respects_console_log. }
  specialize (Hsame w3). rewrite H in Hsame.
  apply Hthrows in H as <-. unfold same_db in Hsame. simpl in Hsame.
  split; [done |]. exists t. split; [lia |]. congruence.
Qed.

Lemma createStake_failure_modes_witness :
  let w := set_redis_faults always_failing initial_world in
  ∃ t, rows (db (createStake 1 (mkCreateStakeDto 1000 12) w).2)
       = [mkRow 1 1000 12 1 t].
Proof.
  destruct (createStake_failure_modes 1 (mkCreateStakeDto 1000 12)
              (set_redis_faults always_failing initial_world)
              (PlainError "Failed to create stake. Please try again later.")
              (createStake 1 (mkCreateStakeDto 1000 12)
                 (set_redis_faults always_failing initial_world)).2)
    as [([H | H] & _) | (_ & t & _ & Hrows)].
  - vm_compute. reflexivity.
  - discriminate.
  - discriminate.
  - exists t. exact Hrows.
Defined.

(** The lookup of the cached records of a page: it cannot throw, and it
    respects every frame. *)
Lemma read_page_never_throws (ids : list string) w :
  ∃ hit w',
    (if 0 <? Z.of_nat (length ids) then
       let* cachedStakes :=
         mapM (λ id, getCachedStake id defaultCacheConfigs.stake) ids in
       ret (from_cached ids cachedStakes)
     else ret None) w = (Ok hit, w').
Proof.
  destruct (0 <? _); [| by eexists _, _].
  destruct (mapM_never_throws
              (λ id, getCachedStake id defaultCacheConfigs.stake) ids w)
    as (records & w' & Hrun).
  { intros id w0.
    apply (cache_attempts_never_throws _ _ _ _ (mkCached None false)). }
  exists (from_cached ids records), w'.
  by rewrite (bind_Ok _ _ _ _ _ Hrun).
Qed.

Lemma read_page_respects R `{!Ambient R} (ids : list string) :
  respects R
    (if 0 <? Z.of_nat (length ids) then
       let* cachedStakes :=
         mapM (λ id, getCachedStake id defaultCacheConfigs.stake) ids in
       ret (from_cached ids cachedStakes)
     else ret None).
Proof.
  destruct (0 <? _); [| frame respects_ret].
  frame respects_bind; [| intros records; frame respects_ret].
  frame respects_mapM. intros id. by apply getCachedStake_respects.
Qed.

Lemma DbService_getStakes_same_redis userId page limit :
  respects same_redis (DbService.getStakes userId page limit).
Proof.
  unfold DbService.getStakes. frame respects_db_attempts; [done |].
  frame respects_bind; [| intros l; frame respects_ret].
  frame respects_sql_call. intros w. reflexivity.
Qed.

(** X10.  A read fails in one of two ways, and in both it has changed
    neither the table nor the cache.  With the generic error, when its
    first command, the lookup of the cached page, fails: then nothing
    else has been attempted.  Or with a store error, when the table
    could not be set up or queried in three attempts.  No failure of a
    later cache command makes it fail. *)
Theorem getStakes_failure_modes userId dto w e w' :
  getStakes userId dto w = (Throw e, w') →
  let page := default 1 (dto_page dto) in
  let limit := default 20 (dto_limit dto) in
  db w' = db w
  ∧ redis w' = redis w
  ∧ ((e = PlainError "Failed to retrieve stakes. Please try again later."
      ∧ w' = redis_tick w
      ∧ ((next_fault (redis_faults w)).1 = true
         ∨ redis_lrange (page_key userId page limit) 0 (limit - 1)
                        (now w) (redis w) = None))
     ∨ e = DatabaseError "Failed to initialize database after multiple attempts"
     ∨ e = DatabaseError
             "Failed to retrieve stakes from database after multiple attempts").
Proof.
  intros H page limit. unfold getStakes in H. fold page limit in H.
  apply service_catch_Throw_inv in H as (e0 & H & ->).
  apply bind_Throw_inv in H as [H | (ids & w1 & Hrange & H)].
  { apply redis_call_Throw_inv in H as (-> & -> & Hwhy).
    split; [done |]. split; [done |]. left. done. }
  apply redis_call_Ok_inv in Hrange as (r' & Hrange & ->).
  apply redis_lrange_reads in Hrange as ->.
  apply bind_Throw_inv in H as [H | (hit & w2 & Hhit & H)].
  { destruct (read_page_never_throws ids
                (set_redis (redis w)
                   (set_redis_faults (next_fault (redis_faults w)).2 w)))
      as (hit & w2 & Hok).
    rewrite Hok in H. discriminate. }
  pose proof (read_page_respects same_db ids
                (set_redis (redis w)
                   (set_redis_faults (next_fault (redis_faults w)).2 w)))
    as Hd2.
  pose proof (read_page_respects same_redis ids
                (set_redis (redis w)
                   (set_redis_faults (next_fault (redis_faults w)).2 w)))
    as Hr2.
  rewrite Hhit in Hd2, Hr2. unfold same_db, same_redis in Hd2, Hr2.
  simpl in Hd2, Hr2.
  destruct hit as [items|]; [discriminate |].
  apply bind_Throw_inv in H as [H | ([] & w3 & Hinit & H)].
  { apply DbService_init_Throw_inv in H as (-> & ? & ?).
    split; [congruence |]. split; [congruence |]. right. by left. }
  pose proof (DbService_init_same_db w2) as Hd3.
  pose proof (DbService_init_same_redis w2) as Hr3.
  rewrite Hinit in Hd3, Hr3. unfold same_db, same_redis in Hd3, Hr3.
  simpl in Hd3, Hr3.
  apply bind_Throw_inv in H as [H | (dbStakes & w4 & Hlist & H)].
  { apply DbService_getStakes_Throw_inv in H as (-> & ? & ?).
    split; [congruence |]. split; [congruence |]. right. by right. }
  apply bind_Throw_inv in H as [H | ([] & w5 & Hcache & H)]; [| discriminate].
  destruct (cacheStakes_never_throws dbStakes userId page limit
              defaultCacheConfigs.stake w4) as [w5 Hok].
  rewrite Hok in H. discriminate.
Qed.

Lemma getStakes_failure_modes_witness :
  let w := set_redis_faults always_failing initial_world in
  (getStakes 1 (mkPaginationDto None None) w).2 = redis_tick w.
Proof.
  destruct (getStakes_failure_modes 1 (mkPaginationDto None None)
              (set_redis_faults always_failing initial_world)
              (PlainError "Failed to retrieve stakes. Please try again later.")
              (getStakes 1 (mkPaginationDto None None)
                 (set_redis_faults always_failing initial_world)).2)
    as (_ & _ & [(_ & Hw & _) | [H | H]]).
  - vm_compute. reflexivity.
  - exact Hw.
  - discriminate.
  - discriminate.
Defined.

(* ================================================================== *)
(** * The keys of an owner *)
(* ================================================================== *)

Section owner_keys.

Lemma owner_key_inj u x u' y :
  owner_key u x = owner_key u' y → u = u' ∧ x = y.
Proof.
  unfold owner_key. intros H. apply append_inv_l in H.
  apply append_colon_inj in H as [H ->]; try apply no_colon_decimal.
  by apply decimal_inj in H.
Qed.

Lemma owner_key_prefix u x u' y :
  starts_with (owner_key u x) (owner_key u' y)
  = if decide (u = u') then starts_with x y else false.
Proof.
  unfold owner_key. rewrite starts_with_append_same.
  destruct (decide (u = u')) as [<-|Hne].
  - by rewrite !starts_with_append_same.
  - destruct (starts_with _ _) eqn:E; [| done].
    apply starts_with_colon in E; try apply no_colon_decimal.
    by apply decimal_inj in E.
Qed.

Lemma page_key_owner u page limit :
  page_key u page limit
  = owner_key u ("stakes:page:" +:+ decimal page +:+ ":limit:" +:+ decimal limit).
Proof. reflexivity. Qed.

Lemma page_pattern_prefix_owner u :
  page_pattern_prefix u = owner_key u "stakes:page:".
Proof. reflexivity. Qed.

Lemma counter_key_owner u : counter_key u = owner_key u "stakes".
Proof. reflexivity. Qed.

Lemma stake_ids_key_owner u : stake_ids_key u = owner_key u "stake_ids".
Proof. reflexivity. Qed.

(** The keys of two owners are apart. *)
Lemma page_prefix_other_owner u u' k rest :
  u' ≠ u → k = owner_key u' rest →
  starts_with (page_pattern_prefix u) k = false.
Proof.
  intros Hne ->. rewrite page_pattern_prefix_owner, owner_key_prefix.
  by rewrite decide_False.
Qed.

Lemma page_prefix_counter u : starts_with (page_pattern_prefix u) (counter_key u) = false.
Proof.
  rewrite page_pattern_prefix_owner, counter_key_owner, owner_key_prefix.
  by rewrite decide_True.
Qed.

Lemma page_prefix_stake_ids u :
  starts_with (page_pattern_prefix u) (stake_ids_key u) = false.
Proof.
  rewrite page_pattern_prefix_owner, stake_ids_key_owner, owner_key_prefix.
  by rewrite decide_True.
Qed.

Lemma page_prefix_stake u id :
  starts_with (page_pattern_prefix u) ("stake:" +:+ id) = false.
Proof. unfold page_pattern_prefix. by rewrite !append_cons. Qed.

Lemma owner_key_ne_other u u' x y : u' ≠ u → owner_key u' x ≠ owner_key u y.
Proof. intros Hne H. apply owner_key_inj in H as [? _]. done. Qed.

Lemma page_key_ne_counter_key u page limit u' :
  page_key u page limit ≠ counter_key u'.
Proof.
  rewrite page_key_owner, counter_key_owner. intros H.
  apply owner_key_inj in H as [_ H]. revert H. by rewrite !append_cons.
Qed.

Lemma page_key_ne_stake_ids_key u page limit u' :
  page_key u page limit ≠ stake_ids_key u'.
Proof.
  rewrite page_key_owner, stake_ids_key_owner. intros H.
  apply owner_key_inj in H as [_ H]. revert H. by rewrite !append_cons.
Qed.

Lemma counter_key_ne_stake_ids_key u u' : counter_key u ≠ stake_ids_key u'.
Proof.
  rewrite counter_key_owner, stake_ids_key_owner. intros H.
  apply owner_key_inj in H as [_ H]. discriminate H.
Qed.

Lemma counter_key_inj u u' : counter_key u = counter_key u' → u = u'.
Proof. rewrite !counter_key_owner. intros H. by apply owner_key_inj in H as [? _]. Qed.

Lemma stake_ids_key_inj u u' : stake_ids_key u = stake_ids_key u' → u = u'.
Proof. rewrite !stake_ids_key_owner. intros H. by apply owner_key_inj in H as [? _]. Qed.

Lemma page_key_owner_inj u page limit u' page' limit' :
  page_key u page limit = page_key u' page' limit' → u = u'.
Proof. rewrite !page_key_owner. intros H. by apply owner_key_inj in H as [? _]. Qed.

End owner_keys.

(* ================================================================== *)
(** * What the service functions leave alone *)
(* ================================================================== *)

Lemma redis_keys_sound prefix t r ks r' k :
  redis_keys prefix t r = Some (ks, r') →
  k ∈ ks → starts_with prefix k = true.
Proof.
  unfold redis_keys. intros [= <- <-] Hk.
  apply list_elem_of_fmap in Hk as ([k' v] & -> & Hk).
  apply elem_of_map_to_list, map_lookup_filter_Some in Hk as [_ [Hk _]].
  exact Hk.
Qed.

Section untouched.

Variable k : string.

Lemma sql_call_untouched {A} (query : Z → Db → A * Db) :
  respects (untouched k) (sql_call query).
Proof. frame respects_sql_call. intros w. unfold untouched. simpl. reflexivity. Qed.

Lemma DbService_init_untouched : respects (untouched k) DbService.init.
Proof.
  unfold DbService.init. frame respects_db_attempts; [done |].
  frame respects_bind; [| intros _; frame respects_console_log].
  apply sql_call_untouched.
Qed.

Lemma DbService_createStake_untouched userId amount period :
  respects (untouched k) (DbService.createStake userId amount period).
Proof.
  unfold DbService.createStake. frame respects_db_attempts; [done |].
  frame respects_bind; [apply sql_call_untouched | intros [|row rows]].
  - frame respects_throw.
  - frame respects_ret.
Qed.

Lemma DbService_getStakes_untouched userId page limit :
  respects (untouched k) (DbService.getStakes userId page limit).
Proof.
  unfold DbService.getStakes. frame respects_db_attempts; [done |].
  frame respects_bind; [apply sql_call_untouched | intros l].
  frame respects_ret.
Qed.

(** [cacheStake] writes the record of the stake and the id list of its
    owner. *)
Lemma cacheStake_untouched stake config :
  k ≠ stake_key stake → k ≠ user_stakes_key stake →
  respects (untouched k) (cacheStake stake config).
Proof.
  intros Hk1 Hk2. unfold cacheStake.
  fold (stake_key stake) (user_stakes_key stake).
  frame respects_cache_attempts; [done |].
  frame respects_bind; [| intros created].
  { destruct (s_createdAt stake); [frame respects_ret | frame respects_throw]. }
  frame respects_bind; [frame respects_Date_now | intros t].
  frame respects_bind; [| intros _].
  { frame respects_pipeline_exec. intros w. apply same_at_pipeline.
    repeat constructor; simpl; by rewrite list_elem_of_singleton. }
  frame respects_bind; [| intros [i|]].
  - frame respects_redis_call. intros w a r' H.
    rewrite (redis_lpos_reads _ _ _ _ _ _ H), set_redis_same. reflexivity.
  - frame respects_ret.
  - frame respects_redis_call. intros w a r' H.
    by eapply (same_at_lpush k).
Qed.

(** [cacheStakes] writes, besides, the page. *)
Lemma cacheStakes_untouched stakes userId page limit config :
  k ≠ page_key userId page limit →
  starts_with "stake:" k = false →
  is_suffix ":stake_ids" k = false →
  respects (untouched k) (cacheStakes stakes userId page limit config).
Proof.
  intros Hk1 Hk2 Hk3. unfold cacheStakes. frame respects_bind; [| intros _].
  { frame respects_mapM. intros stake. apply cacheStake_untouched.
    - intros ->. unfold stake_key in Hk2.
      by rewrite starts_with_append in Hk2.
    - intros ->. unfold user_stakes_key in Hk3.
      rewrite <- !append_assoc in Hk3. by rewrite is_suffix_append in Hk3. }
  frame respects_cache_attempts; [done |].
  frame respects_pipeline_exec. intros w. apply same_at_pipeline.
  constructor; [simpl; by rewrite list_elem_of_singleton |].
  destruct (0 <? _); repeat constructor; simpl;
    by rewrite list_elem_of_singleton.
Qed.

(** The invalidation of [createStake] deletes keys that match the
    pattern only. *)
Lemma invalidation_untouched {A} userId (rest : M A) :
  starts_with (page_pattern_prefix userId) k = false →
  respects (untouched k) rest →
  respects (untouched k)
    (let* keys := redis_call (redis_keys (page_pattern_prefix userId)) in
     (if 0 <? Z.of_nat (length keys)
      then redis_call (λ _ r, Some (tt, redis_del keys r)) ;;
           console_log ("Invalidated " +:+ decimal (Z.of_nat (length keys))
                        +:+ " cached stake lists for user " +:+ decimal userId)
      else ret tt) ;;
     rest).
Proof.
  intros Hk Hrest w. unfold bind at 1.
  destruct (redis_call_cases (redis_keys (page_pattern_prefix userId)) w)
    as [-> | (keys & r' & Hkeys & ->)];
    [apply (ambient_redis_faults (R := untouched k)) |].
  assert (k ∉ keys) as Hout.
  { intros Hin. apply (redis_keys_sound _ _ _ _ _ _ Hkeys) in Hin. congruence. }
  assert (r' = redis w) as -> by (unfold redis_keys in Hkeys; congruence).
  change (set_redis (redis w) (redis_tick w)) with (redis_tick w).
  trans (redis_tick w); [apply (ambient_redis_faults (R := untouched k)) |].
  generalize (redis_tick w). clear w Hkeys. intros w.
  revert w. change (respects (untouched k)
    ((if 0 <? Z.of_nat (length keys)
      then redis_call (λ _ r, Some (tt, redis_del keys r)) ;;
           console_log ("Invalidated " +:+ decimal (Z.of_nat (length keys))
                        +:+ " cached stake lists for user " +:+ decimal userId)
      else ret tt) ;; rest)).
  frame respects_bind; [| intros _; exact Hrest].
  destruct (0 <? _); [| frame respects_ret].
  frame respects_bind; [| intros _; frame respects_console_log].
  frame respects_redis_call. intros w a r' [= _ <-].
  unfold untouched. simpl. by apply same_at_redis_del.
Qed.

(** The world that a bound computation leaves, seen from a preorder. *)
Lemma bind_world {A B} (R : relation World) `{!PreOrder R}
    (m : M A) (f : A → M B) w :
  R w (m w).2 →
  (∀ a w1, m w = (Ok a, w1) → R w1 (f a w1).2) →
  R w (bind m f w).2.
Proof.
  intros Hm Hf. unfold bind. destruct (m w) as [[a|e] w1]; [| exact Hm].
  etrans; [exact Hm | by apply Hf].
Qed.

End untouched.

Lemma service_catch_world {A} (m : M A) (text : string) w :
  (try_catch m
     (λ error, if instanceof_DatabaseError error then throw error
               else throw (PlainError text)) w).2 = (m w).2.
Proof.
  unfold try_catch. destruct (m w) as [[a|e] w1]; [done |].
  by destruct (instanceof_DatabaseError e).
Qed.

Lemma createStake_untouched userId dto w k :
  k ≠ "stake:" +:+ decimal (next_id (db w)) →
  k ≠ stake_ids_key userId →
  k ≠ counter_key userId →
  starts_with (page_pattern_prefix userId) k = false →
  untouched k w (createStake userId dto w).2.
Proof.
  intros Hk1 Hk2 Hk3 Hk4. unfold createStake. rewrite service_catch_world.
  apply (bind_world (untouched k)); [apply DbService_init_untouched |].
  intros [] w1 Hinit.
  pose proof (DbService_init_same_db w) as Hdb. rewrite Hinit in Hdb.
  unfold same_db in Hdb. simpl in Hdb.
  apply (bind_world (untouched k)); [apply DbService_createStake_untouched |].
  intros dbStake w2 Hinsert.
  apply DbService_createStake_Ok_inv in Hinsert as (t & _ & -> & _).
  apply (bind_world (untouched k)).
  { apply cacheStake_untouched; [by rewrite Hdb | exact Hk2]. }
  intros [] w3 _. revert w3.
  match goal with
  | |- ∀ w3, untouched k w3 (?m w3).2 => change (respects (untouched k) m)
  end.
  frame respects_bind; [| intros _].
  { frame respects_redis_call. intros w0 a r' H.
    by eapply (same_at_incr k). }
  apply invalidation_untouched; [exact Hk4 | frame respects_ret].
Qed.

(** X8.  A write changes, in the cache, the record of the new stake, the
    id list and the counter of its owner, and keys that match the page
    pattern of its owner; whatever its outcome and whatever the faults,
    it leaves every other key as it was.  In particular the pages, the
    counter and the id list of another owner stay, and so does the
    record of every other stake. *)
Theorem createStake_footprint userId dto w :
  let w' := (createStake userId dto w).2 in
  (∀ k, k ≠ "stake:" +:+ decimal (next_id (db w)) →
        k ≠ stake_ids_key userId →
        k ≠ counter_key userId →
        starts_with (page_pattern_prefix userId) k = false →
        untouched k w w')
  ∧ (∀ other page limit,
       other ≠ userId →
       untouched (page_key other page limit) w w'
       ∧ untouched (counter_key other) w w'
       ∧ untouched (stake_ids_key other) w w')
  ∧ (∀ id, id ≠ decimal (next_id (db w)) →
           untouched ("stake:" +:+ id) w w').
Proof.
  intros w'. split; [| split].
  - intros k. apply createStake_untouched.
  - intros other page limit Hne. split; [| split]; apply createStake_untouched.
    + apply page_key_ne_stake_key.
    + apply page_key_ne_stake_ids_key.
    + apply page_key_ne_counter_key.
    + by eapply page_prefix_other_owner.
    + apply user_key_ne_stake_key.
    + apply counter_key_ne_stake_ids_key.
    + intros H. by apply counter_key_inj in H.
    + by eapply page_prefix_other_owner.
    + apply user_key_ne_stake_key.
    + intros H. by apply stake_ids_key_inj in H.
    + apply not_eq_sym, counter_key_ne_stake_ids_key.
    + by eapply page_prefix_other_owner.
  - intros id Hid. apply createStake_untouched.
    + intros H. by apply append_inv_l in H.
    + apply stake_key_ne_user_key.
    + apply stake_key_ne_user_key.
    + apply page_prefix_stake.
Qed.

(* ================================================================== *)
(** * Pages of the table *)
(* ================================================================== *)

Section pages.

Variables (userId : Z) (d : Db).

(** The rows of the owner, newest first: what the pages are cut from. *)
Let listing : list Row :=
  order_by_created_at_desc (filter (λ row, r_user_id row = userId) (rows d)).

Lemma sql_select_slice limit offset :
  sql_select userId limit offset d
  = take (Z.to_nat limit) (drop (Z.to_nat offset) listing).
Proof. reflexivity. Qed.

Lemma listing_elem row :
  row ∈ listing ↔ r_user_id row = userId ∧ row ∈ rows d.
Proof.
  unfold listing. rewrite order_by_created_at_desc_perm.
  by rewrite list_elem_of_filter.
Qed.

Lemma sql_select_owned limit offset row :
  row ∈ sql_select userId limit offset d → r_user_id row = userId.
Proof.
  rewrite sql_select_slice. intros H.
  apply subseteq_take, subseteq_drop, listing_elem in H. tauto.
Qed.

Lemma sql_select_length limit offset :
  (length (sql_select userId limit offset d) ≤ Z.to_nat limit)%nat.
Proof. rewrite sql_select_slice, length_take. lia. Qed.

Lemma listing_NoDup : NoDup (r_id <$> rows d) → NoDup listing.
Proof.
  intros H. apply NoDup_fmap_1 in H. unfold listing.
  rewrite order_by_created_at_desc_perm. by apply NoDup_filter.
Qed.

(** The row at position [i] of the listing is on page [i / limit + 1],
    and on no other. *)
Lemma sql_select_lookup limit page row :
  0 < limit → 1 ≤ page →
  row ∈ sql_select userId limit ((page - 1) * limit) d ↔
  ∃ i : nat, listing !! i = Some row
             ∧ (page - 1) * limit ≤ Z.of_nat i < page * limit.
Proof.
  intros Hl Hp. rewrite sql_select_slice, elem_of_take. split.
  - intros (j & Hj & Hlt). rewrite lookup_drop in Hj.
    eexists. split; [exact Hj |]. nia.
  - intros (i & Hi & Hge & Hlt).
    exists (i - Z.to_nat ((page - 1) * limit))%nat.
    rewrite lookup_drop.
    replace (Z.to_nat ((page - 1) * limit)
             + (i - Z.to_nat ((page - 1) * limit)))%nat with i by lia.
    split; [done | nia].
Qed.

End pages.

Lemma stake_of_row_inj row row' :
  stake_of_row row = stake_of_row row' → row = row'.
Proof. destruct row, row'. unfold stake_of_row; simpl. by intros [= -> -> -> -> ->]. Qed.

Lemma insert_desc_newest_first x l :
  StronglySorted (λ a b, r_created_at b ≤ r_created_at a) l →
  StronglySorted (λ a b, r_created_at b ≤ r_created_at a) (insert_desc x l).
Proof.
  induction 1 as [|y l Hl IH Hy]; simpl; [by repeat constructor |].
  destruct (r_created_at y <=? r_created_at x) eqn:Hle.
  - apply Z.leb_le in Hle. constructor; [by constructor |].
    constructor; [done |].
    eapply Forall_impl; [exact Hy |]. simpl. intros z Hz. lia.
  - apply Z.leb_gt in Hle. constructor; [done |].
    rewrite insert_desc_perm. constructor; [lia | done].
Qed.

Lemma order_by_created_at_desc_newest_first l :
  StronglySorted (λ a b, r_created_at b ≤ r_created_at a)
                 (order_by_created_at_desc l).
Proof.
  unfold order_by_created_at_desc.
  induction l as [|x l IH]; simpl; [constructor |].
  by apply insert_desc_newest_first.
Qed.

Lemma NoDup_fmap_elem_inj {A B} (f : A → B) (l : list A) x y :
  NoDup (f <$> l) → x ∈ l → y ∈ l → f x = f y → x = y.
Proof.
  induction l as [|z l IH]; simpl; [by intros _ ?%elem_of_nil |].
  rewrite NoDup_cons, !elem_of_cons.
  intros [Hz Hl] [-> | Hx] [-> | Hy] Hf; [done | | | by apply IH].
  - destruct Hz. rewrite Hf. by apply list_elem_of_fmap_2.
  - destruct Hz. rewrite <- Hf. by apply list_elem_of_fmap_2.
Qed.

(** When no two rows of the owner were created at the same time, there
    is one way only to list them newest first. *)
Lemma newest_first_unique userId d ordering :
  NoDup (r_created_at <$> filter (λ row, r_user_id row = userId) (rows d)) →
  ordering ≡ₚ filter (λ row, r_user_id row = userId) (rows d) →
  StronglySorted (λ a b, r_created_at b ≤ r_created_at a) ordering →
  ordering
  = order_by_created_at_desc (filter (λ row, r_user_id row = userId) (rows d)).
Proof.
  intros Hdistinct Hperm Hsorted.
  apply (StronglySorted_unique_strong
           (λ a b, r_created_at b ≤ r_created_at a) ordering); [| done | |].
  - intros a b Ha Hb Hab Hba.
    rewrite Hperm in Ha. rewrite order_by_created_at_desc_perm in Hb.
    eapply NoDup_fmap_elem_inj; [exact Hdistinct | done | done | lia].
  - apply order_by_created_at_desc_newest_first.
  - by rewrite order_by_created_at_desc_perm.
Qed.

(** X13.  Pages of the backing store, for an owner no two of whose rows
    were created at the same time, a positive [limit] and unique row
    ids.  A page [page >= 1] that [DbService.getStakes] returns holds at
    most [limit] stakes, all of the owner asked for; the call leaves the
    table as it was; and the page is the slice
    [(page - 1) * limit, page * limit) of the rows of the owner listed
    newest first, whichever way that listing was obtained.  The pages
    [1, 2, ...] partition the stakes of the owner: no stake is on two
    pages, and every stake is on one. *)
Theorem DbService_getStakes_pages userId limit w :
  let owned := filter (λ row, r_user_id row = userId) (rows (db w)) in
  0 < limit →
  NoDup (r_id <$> rows (db w)) →
  NoDup (r_created_at <$> owned) →
  (∀ page stakes w',
     1 ≤ page →
     DbService.getStakes userId page limit w = (Ok stakes, w') →
     (length stakes ≤ Z.to_nat limit)%nat
     ∧ Forall (λ stake, s_userId stake = Some userId) stakes
     ∧ db w' = db w
     ∧ ∀ ordering,
         ordering ≡ₚ owned →
         StronglySorted (λ a b, r_created_at b ≤ r_created_at a) ordering →
         stakes = stake_of_row
                    <$> take (Z.to_nat limit)
                          (drop (Z.to_nat ((page - 1) * limit)) ordering))
  ∧ (∀ p q a b wa wb,
       1 ≤ p → 1 ≤ q → p ≠ q →
       DbService.getStakes userId p limit w = (Ok a, wa) →
       DbService.getStakes userId q limit w = (Ok b, wb) →
       ∀ stake, stake ∈ a → stake ∉ b)
  ∧ (∀ row,
       row ∈ rows (db w) → r_user_id row = userId →
       ∃ page, 1 ≤ page
               ∧ ∀ stakes w',
                   DbService.getStakes userId page limit w = (Ok stakes, w') →
                   stake_of_row row ∈ stakes).
Proof.
  intros owned Hlimit Hids Hdistinct. split; [| split].
  - intros page stakes w' Hpage Hrun.
    pose proof (DbService_getStakes_same_db userId page limit w) as Hdb.
    rewrite Hrun in Hdb.
    apply DbService_getStakes_Ok_inv in Hrun as ->.
    split; [| split; [| split; [exact Hdb |]]].
    + rewrite length_fmap. apply sql_select_length.
    + apply Forall_fmap, Forall_forall. intros row Hrow. simpl.
      f_equal. by eapply sql_select_owned.
    + intros ordering Hperm Hsorted.
      by rewrite (newest_first_unique userId (db w) ordering).
  - intros p q a b wa wb Hp Hq Hpq Ha Hb stake Hina Hinb.
    apply DbService_getStakes_Ok_inv in Ha as ->.
    apply DbService_getStakes_Ok_inv in Hb as ->.
    apply list_elem_of_fmap in Hina as (row & -> & Hrow).
    apply list_elem_of_fmap in Hinb as (row' & Heq & Hrow').
    apply stake_of_row_inj in Heq as <-.
    apply sql_select_lookup in Hrow as (i & Hi & Hirange); [| done | done].
    apply sql_select_lookup in Hrow' as (j & Hj & Hjrange); [| done | done].
    assert (i = j) as <-.
    { eapply NoDup_lookup; [by apply listing_NoDup | exact Hi | exact Hj]. }
    nia.
  - intros row Hrow Howner.
    assert (row ∈ order_by_created_at_desc owned)
      as Hin by (by apply listing_elem).
    apply list_elem_of_lookup in Hin as [i Hi].
    exists (Z.of_nat i / limit + 1).
    pose proof (Z.div_pos (Z.of_nat i) limit ltac:(lia) Hlimit) as Hdiv.
    split; [lia |]. intros stakes w' Hrun.
    apply DbService_getStakes_Ok_inv in Hrun as ->.
    apply list_elem_of_fmap. exists row. split; [done |].
    apply sql_select_lookup; [done | lia |].
    exists i. split; [exact Hi |].
    pose proof (Z.mul_div_le (Z.of_nat i) limit Hlimit).
    pose proof (Z.mul_succ_div_gt (Z.of_nat i) limit Hlimit).
    lia.
Qed.

Lemma DbService_getStakes_pages_witness :
  let table :=
    mkDb [mkRow 1 100 1 7 10; mkRow 2 200 3 7 20; mkRow 3 300 6 7 30] 4 in
  let w := set_db table initial_world in
  ∃ page,
    1 ≤ page
    ∧ ∀ stakes w',
        DbService.getStakes 7 page 2 w = (Ok stakes, w') →
        mkStake (Some 1) (Some 100) (Some 1) (Some 7) (Some 10) ∈ stakes.
Proof.
  intros table w.
  refine (proj2 (proj2 (DbService_getStakes_pages 7 2 w _ _ _))
                (mkRow 1 100 1 7 10) _ _).
  - reflexivity.
  - apply (bool_decide_unpack _). vm_compute. exact I.
  - apply (bool_decide_unpack _). vm_compute. exact I.
  - apply list_elem_of_here.
  - reflexivity.
Defined.

(* ================================================================== *)
(** * What a read leaves alone *)
(* ================================================================== *)

Lemma mapM_world (R : relation World) `{!PreOrder R} {A B}
    (f : A → M B) xs w :
  (∀ x w0, x ∈ xs → R w0 (f x w0).2) → R w (mapM f xs w).2.
Proof.
  revert w. induction xs as [|x xs IH]; intros w Hf; simpl; [reflexivity |].
  apply (bind_world R); [apply Hf, list_elem_of_here |].
  intros y w1 _. apply (bind_world R).
  - apply IH. intros x' w0 Hx'. by apply Hf, list_elem_of_further.
  - intros ys w2 _. reflexivity.
Qed.

Lemma cacheStakes_untouched_for k stakes userId page limit config w :
  k ≠ page_key userId page limit →
  (∀ stake, stake ∈ stakes → k ≠ stake_key stake ∧ k ≠ user_stakes_key stake) →
  untouched k w (cacheStakes stakes userId page limit config w).2.
Proof.
  intros Hk Hstakes. unfold cacheStakes.
  apply (bind_world (untouched k)).
  { apply (mapM_world (untouched k)). intros stake w0 Hin.
    destruct (Hstakes stake Hin). by apply cacheStake_untouched. }
  intros _ w1 _. revert w1.
  match goal with
  | |- ∀ w1, untouched k w1 (?m w1).2 => change (respects (untouched k) m)
  end.
  frame respects_cache_attempts; [done |].
  frame respects_pipeline_exec. intros w0. apply same_at_pipeline.
  constructor; [simpl; by rewrite list_elem_of_singleton |].
  destruct (0 <? _); repeat constructor; simpl;
    by rewrite list_elem_of_singleton.
Qed.

Lemma getStakes_untouched userId dto w k :
  k ≠ page_key userId (default 1 (dto_page dto)) (default 20 (dto_limit dto)) →
  k ≠ stake_ids_key userId →
  starts_with "stake:" k = false →
  untouched k w (getStakes userId dto w).2.
Proof.
  intros Hk1 Hk2 Hk3. unfold getStakes. rewrite service_catch_world.
  apply (bind_world (untouched k)).
  { frame respects_redis_call. intros w0 a r' H.
    rewrite (redis_lrange_reads _ _ _ _ _ _ _ H), set_redis_same. reflexivity. }
  intros ids w1 _.
  apply (bind_world (untouched k));
    [apply (read_page_respects (untouched k) ids w1) |].
  intros [items|] w2 _; [reflexivity |].
  apply (bind_world (untouched k)); [apply DbService_init_untouched |].
  intros [] w3 _.
  apply (bind_world (untouched k)); [apply DbService_getStakes_untouched |].
  intros dbStakes w4 Hlist.
  apply DbService_getStakes_Ok_inv in Hlist as ->.
  apply (bind_world (untouched k)); [| intros [] w5 _; reflexivity].
  apply cacheStakes_untouched_for; [done |].
  intros stake Hin. apply list_elem_of_fmap in Hin as (row & -> & Hrow).
  apply sql_select_owned in Hrow. split.
  - intros ->. unfold stake_key in Hk3. by rewrite starts_with_append in Hk3.
  - unfold user_stakes_key. simpl. by rewrite Hrow.
Qed.

Lemma page_key_inj u page limit u' page' limit' :
  page_key u page limit = page_key u' page' limit' →
  u = u' ∧ page = page' ∧ limit = limit'.
Proof.
  rewrite !page_key_owner. intros H. apply owner_key_inj in H as [-> H].
  apply append_inv_l in H.
  apply append_colon_inj in H as [Hp H]; try apply no_colon_decimal.
  apply decimal_inj in Hp as ->.
  apply (append_inv_l "limit:") in H. by apply decimal_inj in H as ->.
Qed.

Lemma getStakes_same_db userId dto : respects same_db (getStakes userId dto).
Proof.
  unfold getStakes. frame respects_try_catch; cycle 1.
  { intros e. destruct (instanceof_DatabaseError e); frame respects_throw. }
  frame respects_bind; [apply redis_call_same_db | intros ids].
  frame respects_bind; [apply (read_page_respects same_db ids) | intros [items|]].
  { frame respects_ret. }
  frame respects_bind; [apply DbService_init_same_db | intros _].
  frame respects_bind; [apply DbService_getStakes_same_db | intros dbStakes].
  frame respects_bind; [apply cacheStakes_same_db | intros _].
  frame respects_ret.
Qed.

(** X11.  A read never changes the table.  In the cache it writes the
    page it was asked for, the records of stakes and the id list of the
    owner, and nothing else, whatever its outcome and whatever the
    faults: the other pages, of this owner and of others, the stake
    counters and the counters of the rate limiter stay as they were. *)
Theorem getStakes_footprint userId dto w :
  let page := default 1 (dto_page dto) in
  let limit := default 20 (dto_limit dto) in
  let w' := (getStakes userId dto w).2 in
  db w' = db w
  ∧ (∀ k, k ≠ page_key userId page limit →
          k ≠ stake_ids_key userId →
          starts_with "stake:" k = false →
          untouched k w w')
  ∧ (∀ other page' limit',
       (other, page', limit') ≠ (userId, page, limit) →
       untouched (page_key other page' limit') w w')
  ∧ (∀ other, untouched (counter_key other) w w')
  ∧ (∀ ip uid c, untouched (rate_limit_key ip uid (defaultRateLimits c)) w w').
Proof.
  intros page limit w'. split; [| split; [| split; [| split]]].
  - apply getStakes_same_db.
  - intros k. apply getStakes_untouched.
  - intros other page' limit' Hne. apply getStakes_untouched.
    + intros H. apply page_key_inj in H as (-> & -> & ->). done.
    + apply page_key_ne_stake_ids_key.
    + unfold page_key. by rewrite !append_cons.
  - intros other. apply getStakes_untouched.
    + apply not_eq_sym, page_key_ne_counter_key.
    + apply counter_key_ne_stake_ids_key.
    + unfold counter_key. by rewrite !append_cons.
  - intros ip uid c. rewrite rate_limit_key_subject.
    apply getStakes_untouched.
    + unfold page_key. rewrite !append_cons. discriminate.
    + unfold stake_ids_key. rewrite !append_cons. discriminate.
    + by rewrite !append_cons.
Qed.

(* ================================================================== *)
(** * The stake counter of an owner *)
(* ================================================================== *)

Lemma rget_no_deadline r t k : rexp r !! k = None → rget r t k = rdata r !! k.
Proof. intros H. unfold rget, expired. by rewrite H. Qed.

Lemma redis_incr_no_deadline k t r n r' :
  rexp r !! k = None →
  redis_incr k t r = Some (n, r') →
  rexp r' !! k = None
  ∧ rdata r' !! k = Some (VInt (observed_count r t k + 1)).
Proof.
  intros Hexp. unfold redis_incr, observed_count.
  destruct (rget r t k) as [[c| |]|] eqn:Hget; intros [= <- <-];
    unfold rput; simpl; rewrite lookup_insert_eq;
    (split; [| done]);
    by destruct (expired r t k); rewrite ?lookup_delete_eq.
Qed.

(** X9.  A write that returns has raised the stake counter of its owner
    by exactly one, whatever faults it met on the way, and the
    invalidation of the cached pages has left the counter in place. *)
Theorem createStake_counts_stakes userId dto w res w' :
  createStake userId dto w = (Ok res, w') →
  rexp (redis w) !! counter_key userId = None →
  rexp (redis w') !! counter_key userId = None
  ∧ ∀ t t',
      observed_count (redis w') t' (counter_key userId)
      = observed_count (redis w) t (counter_key userId) + 1.
Proof.
  unfold createStake. intros H Hexp. apply service_catch_Ok_inv in H.
  fold (counter_key userId) in H. set (ck := counter_key userId) in *.
  apply bind_Ok_inv in H as ([] & w1 & Hinit & H).
  apply bind_Ok_inv in H as (dbStake & w2 & Hinsert & H).
  apply bind_Ok_inv in H as ([] & w3 & Hcache & H).
  apply bind_Ok_inv in H as (count & w4 & Hincr & H).
  pose proof (DbService_init_untouched ck w) as H1. rewrite Hinit in H1.
  pose proof (DbService_createStake_untouched ck userId (dto_amount dto)
                (dto_period dto) w1) as H2.
  rewrite Hinsert in H2.
  apply DbService_createStake_Ok_inv in Hinsert as (t0 & _ & -> & _).
  pose proof (cacheStake_untouched ck
                (stake_of_row (mkRow (next_id (db w1)) (dto_amount dto)
                                     (dto_period dto) userId t0))
                defaultCacheConfigs.stake
                (user_key_ne_stake_key _ _)
                (counter_key_ne_stake_ids_key userId userId) w2) as H3.
  rewrite Hcache in H3.
  assert (untouched ck w w3) as [Hd3 He3] by (etrans; [| exact H3]; by etrans).
  simpl in Hd3, He3.
  apply redis_call_Ok_inv in Hincr as (r4 & Hincr & ->).
  apply redis_incr_no_deadline in Hincr as [He4 Hd4]; [| congruence].
  match type of H with
  | ?m ?w4 = _ =>
      pose proof (invalidation_untouched ck userId
                    (ret (mkCreateResult true
                            (s_id (stake_of_row
                                     (mkRow (next_id (db w1)) (dto_amount dto)
                                        (dto_period dto) userId t0)))))
                    (page_prefix_counter userId)
                    (respects_ret (untouched ck) _) w4) as H5
  end.
  rewrite H in H5. destruct H5 as [Hd5 He5]. simpl in Hd5, He5.
  split; [congruence |]. intros t t'.
  unfold observed_count at 1 2.
  rewrite !rget_no_deadline by congruence.
  rewrite Hd5, Hd4. unfold observed_count.
  rewrite rget_no_deadline by congruence. by rewrite Hd3.
Qed.

Lemma createStake_counts_stakes_witness :
  let w' := (createStake 7 (mkCreateStakeDto 1000 12) world_with_cached_page).2 in
  observed_count (redis world_with_cached_page) 0 "user:7:stakes" = 1
  ∧ observed_count (redis w') 0 "user:7:stakes" = 2.
Proof.
  intros w'. split; [vm_compute; reflexivity |].
  refine (proj2 (createStake_counts_stakes 7 (mkCreateStakeDto 1000 12)
                   world_with_cached_page
                   (mkCreateResult true (Some 2)) w' _ _) 0 0).
  - vm_compute. reflexivity.
  - vm_compute. reflexivity.
Defined.

(* ================================================================== *)
(** * Validation *)
(* ================================================================== *)

Lemma check_nil ok message : check ok message = [] ↔ ok = true.
Proof. destruct ok; simpl; split; congruence. Qed.

Lemma z_number_inr required invalid refinements v n :
  z_number required invalid refinements v = inr n ↔
  v = Some (JNumber n) ∧ refinements n = [].
Proof.
  unfold z_number. destruct v as [[| |m| | |]|]; try (split; [done | intros [? _]; done]).
  destruct (refinements m) eqn:E; split.
  - by intros [= <-].
  - by intros [[= <-] _].
  - done.
  - intros [[= <-] ?]. congruence.
Qed.

Lemma z_number_issues required invalid refinements v found :
  z_number required invalid refinements v = inl found → found ≠ [].
Proof.
  unfold z_number. destruct v as [[| |m| | |]|]; try (by intros [= <-]).
  destruct (refinements m) eqn:E; [done |]. by intros [= <-].
Qed.

Lemma createStakeSchema_parse_inr data amount period :
  createStakeSchema_parse data = inr (mkCreateStakeDto amount period) ↔
  ∃ fields, data = JObject fields
            ∧ fields !! "amount" = Some (JNumber amount)
            ∧ fields !! "period" = Some (JNumber period)
            ∧ 0 < amount
            ∧ period ∈ [1; 3; 6; 12].
Proof.
  unfold createStakeSchema_parse.
  destruct data as [| | | | |fields];
    try (split; [done | intros (? & ? & _); done]).
  set (za := z_number _ _ _ (fields !! "amount")).
  set (zp := z_number _ _ _ (fields !! "period")).
  assert (∀ a, za = inr a ↔ fields !! "amount" = Some (JNumber a) ∧ 0 < a) as Ha.
  { intros a. unfold za. rewrite z_number_inr, check_nil, Z.ltb_lt. done. }
  assert (∀ p, zp = inr p ↔
               fields !! "period" = Some (JNumber p) ∧ p ∈ [1; 3; 6; 12]) as Hp.
  { intros p. unfold zp.
    rewrite z_number_inr, check_nil, bool_decide_eq_true. done. }
  clearbody za zp. split.
  - destruct za as [ia|a], zp as [ip|p]; try done.
    intros [= -> ->].
    destruct (proj1 (Ha amount) eq_refl), (proj1 (Hp period) eq_refl).
    by exists fields.
  - intros (f & [= <-] & H1 & H2 & H3 & H4).
    rewrite (proj2 (Ha amount)), (proj2 (Hp period)) by done. done.
Qed.

Lemma createStakeSchema_parse_inl data found :
  createStakeSchema_parse data = inl found → found ≠ [].
Proof.
  unfold createStakeSchema_parse.
  destruct data as [| | | | |fields]; try (by intros [= <-]).
  destruct (z_number _ _ _ (fields !! "amount")) as [ia|a] eqn:Ea;
  destruct (z_number _ _ _ (fields !! "period")) as [ip|p] eqn:Ep;
    intros [= <-]; simpl.
  - apply z_number_issues in Ea. by destruct ia.
  - apply z_number_issues in Ea. by rewrite app_nil_r.
  - by apply z_number_issues in Ep.
Qed.

(** X14.  The body of a request to create a stake is accepted exactly
    when it is an object whose [amount] is a positive number and whose
    [period] is one of 1, 3, 6 and 12; the validated data are these two
    fields and nothing else.  Anything else is refused with a validation
    error that names at least one problem. *)
Theorem validateCreateStakeRequest_accepts data :
  (∀ dto,
     validateCreateStakeRequest data = inr dto ↔
     ∃ fields, data = JObject fields
               ∧ fields !! "amount" = Some (JNumber (dto_amount dto))
               ∧ fields !! "period" = Some (JNumber (dto_period dto))
               ∧ 0 < dto_amount dto
               ∧ dto_period dto ∈ [1; 3; 6; 12])
  ∧ (∀ error,
       validateCreateStakeRequest data = inl error →
       ∃ errors, error = ValidationError "Validation failed" errors
                 ∧ errors ≠ []).
Proof.
  unfold validateCreateStakeRequest. split.
  - intros [amount period]. simpl.
    rewrite <- createStakeSchema_parse_inr.
    destruct (createStakeSchema_parse data) as [found|[a p]]; simpl;
      split; congruence.
  - intros error.
    destruct (createStakeSchema_parse data) as [found|validated] eqn:E;
      [| done].
    intros [= <-]. exists found. split; [done |].
    by eapply createStakeSchema_parse_inl.
Qed.

Section pagination.

Context `{Host}.

Lemma z_coerce_number_inr invalid int_message positive_message max default v z :
  z_coerce_number invalid int_message positive_message max default v = inr z →
  match v with
  | None => z = default
  | Some s => Number_ s = Integer z
  end
  ∧ 0 < z
  ∧ match max with Some (bound, _) => z ≤ bound | None => True end.
Proof.
  unfold z_coerce_number.
  set (x := match v with None => Integer default | Some s => Number_ s end).
  assert (x = Integer z →
          match v with None => z = default | Some s => Number_ s = Integer z end)
    as Hx.
  { unfold x. destruct v; [done | congruence]. }
  clearbody x. destruct x as [|n|f|neg]; try done.
  - destruct (_ ++ _) as [|i found] eqn:E; [| done].
    intros [= ->]. split; [by apply Hx |].
    apply app_eq_nil in E as [_ E]. apply app_eq_nil in E as [E1 E2].
    apply check_nil in E1. simpl in E1. apply Z.ltb_lt in E1.
    split; [done |]. destruct max as [[bound message]|]; [| done].
    apply check_nil in E2. simpl in E2. by apply Z.leb_le in E2.
Qed.

Lemma z_coerce_number_inl invalid int_message positive_message max default v
    found :
  z_coerce_number invalid int_message positive_message max default v
  = inl found → found ≠ [].
Proof.
  unfold z_coerce_number.
  destruct (match v with None => Integer default | Some s => Number_ s end)
    as [|n|f|neg]; simpl.
  - by intros [= <-].
  - destruct (_ ++ _) as [|i l] eqn:E; [done |]. by intros [= <-].
  - by intros [= <-].
  - by intros [= <-].
Qed.

Lemma paginationSchema_parse_inr page limit validated :
  paginationSchema_parse page limit = inr validated →
  (match page with
   | None => params_page validated = 1
   | Some s => Number_ s = Integer (params_page validated)
   end ∧ 0 < params_page validated)
  ∧ (match limit with
     | None => params_limit validated = 20
     | Some s => Number_ s = Integer (params_limit validated)
     end ∧ 0 < params_limit validated ≤ 100).
Proof.
  unfold paginationSchema_parse.
  destruct (z_coerce_number _ _ _ None 1 _) as [ip|p] eqn:Ep;
  destruct (z_coerce_number _ _ _ (Some _) 20 _) as [il|l] eqn:El;
    try done.
  intros [= <-]. simpl.
  apply z_coerce_number_inr in Ep as (Hp & Hp0 & _).
  apply z_coerce_number_inr in El as (Hl & Hl0 & Hl100).
  done.
Qed.

Lemma paginationSchema_parse_inl page limit found :
  paginationSchema_parse page limit = inl found → found ≠ [].
Proof.
  unfold paginationSchema_parse.
  destruct (z_coerce_number _ _ _ None 1 _) as [ip|p] eqn:Ep;
  destruct (z_coerce_number _ _ _ (Some _) 20 _) as [il|l] eqn:El;
    intros [= <-]; simpl.
  - apply z_coerce_number_inl in Ep. by destruct ip.
  - apply z_coerce_number_inl in Ep. by rewrite app_nil_r.
  - by apply z_coerce_number_inl in El.
Qed.

(** What the route handler needs of validated parameters. *)
Lemma validatePaginationParams_limit params validated :
  validatePaginationParams params = inr validated →
  1 ≤ params_limit validated ≤ 100.
Proof.
  unfold validatePaginationParams.
  destruct (paginationSchema_parse _ _) as [found|v] eqn:E; [done |].
  intros [= <-]. apply paginationSchema_parse_inr in E as (_ & _ & ?). lia.
Qed.

(** X15.  Validated pagination parameters are integers with [1 ≤ page]
    and [1 ≤ limit ≤ 100], so that the offset computed from them is
    never negative.  A parameter that is missing or empty stands for its
    default, 1 for the page and 20 for the limit; one that is given is
    the number that the host reads in it.  Anything else is refused with
    a validation error that names at least one problem. *)
Theorem validatePaginationParams_bounds params :
  match validatePaginationParams params with
  | inr validated =>
      1 ≤ params_page validated
      ∧ 1 ≤ params_limit validated ≤ 100
      ∧ 0 ≤ (params_page validated - 1) * params_limit validated
      ∧ match or_undefined (params !! "page") with
        | None => params_page validated = 1
        | Some s => Number_ s = Integer (params_page validated)
        end
      ∧ match or_undefined (params !! "limit") with
        | None => params_limit validated = 20
        | Some s => Number_ s = Integer (params_limit validated)
        end
  | inl error =>
      ∃ errors, error = ValidationError "Validation failed" errors
                ∧ errors ≠ []
  end.
Proof.
  unfold validatePaginationParams.
  destruct (paginationSchema_parse _ _) as [found|validated] eqn:E.
  - apply paginationSchema_parse_inl in E. by exists found.
  - apply paginationSchema_parse_inr in E as ((Hpage & Hp) & Hlimit & Hl).
    split; [lia |]. split; [lia |]. split; [nia |]. done.
Qed.

End pagination.

(* ================================================================== *)
(** * The route handlers *)
(* ================================================================== *)

Lemma checkRateLimit_same_db ip userId config :
  respects same_db (checkRateLimit ip userId config).
Proof.
  unfold checkRateLimit. frame respects_try_catch.
  - frame respects_bind; [apply redis_call_same_db | intros a].
    destruct (a.2 =? 1); [frame respects_throw | frame respects_ret].
  - intros e. destruct (instanceof_RateLimitError e);
      [frame respects_throw | frame respects_console_error].
Qed.

Lemma applyRateLimit_same_db request userId configKey :
  respects same_db (applyRateLimit request userId configKey).
Proof.
  unfold applyRateLimit.
  frame respects_bind; [apply checkRateLimit_same_db | intros _].
  apply checkRateLimit_same_db.
Qed.

Lemma applyRateLimit_Throw_inv request userId configKey w e w' :
  applyRateLimit request userId configKey w = (Throw e, w') →
  ∃ message, e = RateLimitError message.
Proof.
  unfold applyRateLimit. intros H.
  apply bind_Throw_inv in H as [H | (a & w1 & _ & H)];
    apply checkRateLimit_throws_only_exceeded in H; by eexists.
Qed.

Lemma service_catch_throws {A} (m : M A) (text : string) w e w' :
  try_catch m
    (λ error, if instanceof_DatabaseError error then throw error
              else throw (PlainError text)) w = (Throw e, w') →
  (∃ message, e = DatabaseError message) ∨ e = PlainError text.
Proof.
  intros H. apply service_catch_Throw_inv in H as (e0 & _ & ->).
  destruct e0; simpl; eauto.
Qed.

Lemma validateCreateStakeRequest_inl data error :
  validateCreateStakeRequest data = inl error →
  ∃ errors, error = ValidationError "Validation failed" errors.
Proof.
  unfold validateCreateStakeRequest.
  destruct (createStakeSchema_parse data); [| done].
  intros [= <-]. by eexists.
Qed.

(** ** Reading the outcome of a handler backwards *)

Section route_inversion.

Context {A B : Type}.

Lemma andThen_Done_inv (m : Route A) (k : A → Route B) w b w' :
  andThen m k w = (Done b, w') →
  ∃ a w1, m w = (Done a, w1) ∧ k a w1 = (Done b, w').
Proof.
  unfold andThen. destruct (m w) as [[a|f] w1]; [| done]. by exists a, w1.
Qed.

Lemma andThen_Failed_inv (m : Route A) (k : A → Route B) w f w' :
  andThen m k w = (Failed f, w') →
  m w = (Failed f, w')
  ∨ ∃ a w1, m w = (Done a, w1) ∧ k a w1 = (Failed f, w').
Proof.
  unfold andThen. destruct (m w) as [[a|f0] w1]; intros Hrun.
  - right. by exists a, w1.
  - injection Hrun as -> ->. by left.
Qed.

Lemma await_Done_inv (m : M A) w a w' :
  await m w = (Done a, w') → m w = (Ok a, w').
Proof. unfold await. destruct (m w) as [[a0|e] w1]; by intros [= -> ->]. Qed.

Lemma await_Failed_inv (m : M A) w f w' :
  await m w = (Failed f, w') → ∃ e, f = Raised e ∧ m w = (Throw e, w').
Proof.
  unfold await. destruct (m w) as [[a0|e] w1]; [done |].
  intros [= <- <-]. by exists e.
Qed.

Lemma call_Done_inv (r : Failure + A) w a w' :
  call r w = (Done a, w') → r = inr a ∧ w' = w.
Proof. destruct r; by intros [= -> ->]. Qed.

Lemma call_Failed_inv (r : Failure + A) w f w' :
  call r w = (Failed f, w') → r = inl f ∧ w' = w.
Proof. destruct r; by intros [= -> ->]. Qed.

End route_inversion.

Lemma require_method_Done_inv request expected w u w' :
  require_method request expected w = (Done u, w') →
  method request = expected ∧ w' = w.
Proof.
  unfold require_method. destruct (String.eqb _ _) eqn:E; [| done].
  apply String.eqb_eq in E. by intros [= _ ->].
Qed.

Lemma require_method_Failed_inv request expected w f w' :
  require_method request expected w = (Failed f, w') →
  method request ≠ expected
  ∧ f = MethodNotAllowedError "Method not allowed" ∧ w' = w.
Proof.
  unfold require_method. destruct (String.eqb _ _) eqn:E; [done |].
  apply String.eqb_neq in E. by intros [= <- <-].
Qed.

Lemma request_json_Done_inv request w data w' :
  request_json request w = (Done data, w') →
  json request = inr data ∧ w' = w.
Proof. unfold request_json. destruct (json request); by intros [= -> ->]. Qed.

Lemma request_json_Failed_inv request w f w' :
  request_json request w = (Failed f, w') →
  (∃ message, json request = inl message ∧ f = SyntaxError message) ∧ w' = w.
Proof.
  unfold request_json. destruct (json request) as [message|]; [| done].
  intros [= <- <-]. split; [by eexists | done].
Qed.

(** The table before and after a rate-limit check whose outcome is [Hrun]. *)
Ltac limit_keeps_table Hrun Hdb :=
  match type of Hrun with
  | applyRateLimit ?request ?userId ?configKey ?w0 = _ =>
      pose proof (applyRateLimit_same_db request userId configKey w0) as Hdb;
      rewrite Hrun in Hdb; unfold same_db in Hdb; simpl in Hdb
  end.

Ltac in_list :=
  repeat first [apply list_elem_of_here | apply list_elem_of_further].

(** The four parts of the statement about a response, for a request
    that was not served. *)
Ltac not_served :=
  split; [in_list |];
  split; [intros ?; first [done | by repeat split] |];
  split; [intros ? ?; first [done | simpl in *; congruence] |];
  intros ?; done.

Section handlers.

Context `{Host}.

(** X16.  A request to create a stake is answered with one of five
    statuses.  With 405, when its method is not POST: then nothing has
    been counted or written.  With 429, 400 or 405 the table is as it
    was.  With 200 exactly one row has been added, with the validated
    fields of the body and the id that the response reports. *)
Theorem handleStakePost_responses request user w :
  let '(response, w') := handleStakePost request user w in
  status response ∈ [200; 400; 405; 429; 500]
  ∧ (method request ≠ "POST" →
     status response = 405 ∧ redis w' = redis w ∧ db w' = db w)
  ∧ (status response ≠ 200 → status response ≠ 500 → db w' = db w)
  ∧ (status response = 200 →
     ∃ data dto t,
       json request = inr data
       ∧ validateCreateStakeRequest data = inr dto
       ∧ rows (db w')
         = rows (db w)
           ++ [mkRow (next_id (db w)) (dto_amount dto) (dto_period dto)
                     (user_id user) t]
       ∧ body response
         = CreatedBody (mkCreateResult true (Some (next_id (db w))))).
Proof.
  unfold handleStakePost.
  match goal with
  | |- context [andThen ?m ?k w] =>
      destruct (andThen m k w) as [[response|error] w'] eqn:Hrun
  end.
  - apply andThen_Done_inv in Hrun as ([] & w0 & Hlog & Hrun).
    apply await_Done_inv in Hlog. injection Hlog as <-.
    apply andThen_Done_inv in Hrun as ([] & w1 & Hmethod & Hrun).
    apply require_method_Done_inv in Hmethod as [Hmethod ->].
    apply andThen_Done_inv in Hrun as ([] & w2 & Hlimit & Hrun).
    apply await_Done_inv in Hlimit.
    apply andThen_Done_inv in Hrun as (data & w3 & Hjson & Hrun).
    apply request_json_Done_inv in Hjson as [Hjson ->].
    apply andThen_Done_inv in Hrun as (dto & w4 & Hvalid & Hrun).
    apply call_Done_inv in Hvalid as [Hvalid ->].
    apply andThen_Done_inv in Hrun as (result & w5 & Hcreate & Hrun).
    apply await_Done_inv in Hcreate. injection Hrun as <- <-.
    limit_keeps_table Hlimit Hdb.
    apply createStake_Ok_inv in Hcreate as (t & _ & -> & Hrows & _).
    simpl. split; [in_list |]. split; [done |]. split; [done |].
    intros _. exists data, dto, t. rewrite Hrows, Hdb. done.
  - apply andThen_Failed_inv in Hrun as [Hrun | ([] & w0 & Hlog & Hrun)].
    { apply await_Failed_inv in Hrun as (e & _ & Hrun). done. }
    apply await_Done_inv in Hlog. injection Hlog as <-.
    apply andThen_Failed_inv in Hrun as [Hrun | ([] & w1 & Hmethod & Hrun)].
    { apply require_method_Failed_inv in Hrun as (Hmethod & -> & ->).
      simpl. not_served. }
    apply require_method_Done_inv in Hmethod as [Hmethod ->].
    apply andThen_Failed_inv in Hrun as [Hrun | ([] & w2 & Hlimit & Hrun)].
    { apply await_Failed_inv in Hrun as (e & -> & Hrun).
      limit_keeps_table Hrun Hdb.
      apply applyRateLimit_Throw_inv in Hrun as [message ->].
      simpl. not_served. }
    apply await_Done_inv in Hlimit.
    limit_keeps_table Hlimit Hdb.
    apply andThen_Failed_inv in Hrun as [Hrun | (data & w3 & Hjson & Hrun)].
    { apply request_json_Failed_inv in Hrun as [(message & _ & ->) ->].
      simpl. not_served. }
    apply request_json_Done_inv in Hjson as [Hjson ->].
    apply andThen_Failed_inv in Hrun as [Hrun | (dto & w4 & Hvalid & Hrun)].
    { apply call_Failed_inv in Hrun as [Hvalid ->].
      apply validateCreateStakeRequest_inl in Hvalid as [errors ->].
      simpl. not_served. }
    apply call_Done_inv in Hvalid as [Hvalid ->].
    apply andThen_Failed_inv in Hrun as [Hrun | (result & w5 & _ & Hrun)];
      [| done].
    apply await_Failed_inv in Hrun as (e & -> & Hrun).
    unfold createStake in Hrun.
    apply service_catch_throws in Hrun as [[message ->] | ->]; simpl;
      not_served.
Qed.

Lemma validatePaginationParams_inl params error :
  validatePaginationParams params = inl error →
  ∃ errors, error = ValidationError "Validation failed" errors.
Proof.
  unfold validatePaginationParams.
  destruct (paginationSchema_parse _ _); [| done].
  intros [= <-]. by eexists.
Qed.

Lemma lrange_list_length l limit :
  1 ≤ limit →
  (length (lrange_list l 0 (limit - 1)) ≤ Z.to_nat limit)%nat.
Proof.
  intros Hlimit. unfold lrange_list. simpl.
  rewrite (proj2 (Z.ltb_ge (limit - 1) 0)) by lia.
  destruct (_ <? 0); [simpl; lia |].
  rewrite length_take. lia.
Qed.

(** A page that [getStakes] returns holds at most [limit] items,
    whether it comes from the cache or from the table. *)
Lemma getStakes_items_length userId page limit w result w' :
  1 ≤ limit →
  getStakes userId (mkPaginationDto (Some page) (Some limit)) w
  = (Ok result, w') →
  (length (items result) ≤ Z.to_nat limit)%nat.
Proof.
  intros Hlimit Hrun. apply getStakes_Ok_inv in Hrun.
  destruct (fromCache result).
  - destruct Hrun as (_ & -> & _). rewrite length_fmap.
    etrans; [apply omap_present_length |]. rewrite length_fmap.
    unfold cached_page. destruct (rget _ _ _) as [[|l|]|]; simpl; try lia.
    by apply lrange_list_length.
  - rewrite Hrun, !length_fmap. apply sql_select_length.
Qed.

(** X17.  A request to list stakes never changes the table.  It is
    answered with one of five statuses: with 405, when its method is not
    GET, and then the cache is as it was too; with 200, and then its
    parameters were valid and the page in the body has at most [limit]
    items, with [limit] at most 100. *)
Theorem handleStakeGet_responses request user w :
  let '(response, w') := handleStakeGet request user w in
  db w' = db w
  ∧ status response ∈ [200; 400; 405; 429; 500]
  ∧ (method request ≠ "GET" → status response = 405 ∧ redis w' = redis w)
  ∧ (status response = 200 →
     ∃ validated result,
       validatePaginationParams (fromEntries (searchParams request))
       = inr validated
       ∧ body response = StakesBody result
       ∧ (length (items result) ≤ Z.to_nat (params_limit validated))%nat
       ∧ params_limit validated ≤ 100).
Proof.
  unfold handleStakeGet.
  match goal with
  | |- context [andThen ?m ?k w] =>
      destruct (andThen m k w) as [[response|error] w'] eqn:Hrun
  end.
  - apply andThen_Done_inv in Hrun as ([] & w0 & Hlog & Hrun).
    apply await_Done_inv in Hlog. injection Hlog as <-.
    apply andThen_Done_inv in Hrun as ([] & w1 & Hmethod & Hrun).
    apply require_method_Done_inv in Hmethod as [Hmethod ->].
    apply andThen_Done_inv in Hrun as ([] & w2 & Hlimit & Hrun).
    apply await_Done_inv in Hlimit. limit_keeps_table Hlimit Hdb.
    apply andThen_Done_inv in Hrun as (validated & w3 & Hvalid & Hrun).
    apply call_Done_inv in Hvalid as [Hvalid ->].
    apply andThen_Done_inv in Hrun as (result & w4 & Hlist & Hrun).
    apply await_Done_inv in Hlist. injection Hrun as <- <-.
    pose proof (getStakes_same_db (user_id user)
                  (mkPaginationDto (Some (params_page validated))
                                   (Some (params_limit validated))) w2) as Hdb'.
    rewrite Hlist in Hdb'. unfold same_db in Hdb'. simpl in Hdb'.
    pose proof (validatePaginationParams_limit _ _ Hvalid) as [Hl1 Hl100].
    simpl. split; [congruence |]. split; [in_list |]. split; [done |].
    intros _. exists validated, result. split; [done |]. split; [done |].
    split; [| done]. by eapply getStakes_items_length.
  - apply andThen_Failed_inv in Hrun as [Hrun | ([] & w0 & Hlog & Hrun)].
    { apply await_Failed_inv in Hrun as (e & _ & Hrun). done. }
    apply await_Done_inv in Hlog. injection Hlog as <-.
    apply andThen_Failed_inv in Hrun as [Hrun | ([] & w1 & Hmethod & Hrun)].
    { apply require_method_Failed_inv in Hrun as (Hmethod & -> & ->).
      simpl. split; [done |]. split; [in_list |]. done. }
    apply require_method_Done_inv in Hmethod as [Hmethod ->].
    apply andThen_Failed_inv in Hrun as [Hrun | ([] & w2 & Hlimit & Hrun)].
    { apply await_Failed_inv in Hrun as (e & -> & Hrun).
      limit_keeps_table Hrun Hdb.
      apply applyRateLimit_Throw_inv in Hrun as [message ->].
      simpl. split; [done |]. split; [in_list |]. done. }
    apply await_Done_inv in Hlimit. limit_keeps_table Hlimit Hdb.
    apply andThen_Failed_inv in Hrun as [Hrun | (validated & w3 & Hvalid & Hrun)].
    { apply call_Failed_inv in Hrun as [Hvalid ->].
      apply validatePaginationParams_inl in Hvalid as [errors ->].
      simpl. split; [done |]. split; [in_list |]. done. }
    apply call_Done_inv in Hvalid as [Hvalid ->].
    apply andThen_Failed_inv in Hrun as [Hrun | (result & w4 & _ & Hrun)];
      [| done].
    apply await_Failed_inv in Hrun as (e & -> & Hrun).
    pose proof (getStakes_same_db (user_id user)
                  (mkPaginationDto (Some (params_page validated))
                                   (Some (params_limit validated))) w2) as Hdb'.
    rewrite Hrun in Hdb'. unfold same_db in Hdb'. simpl in Hdb'.
    unfold getStakes in Hrun.
    apply service_catch_throws in Hrun as [[message ->] | ->]; simpl;
      (split; [congruence |]); (split; [in_list |]); done.
Qed.

End handlers.

(* ================================================================== *)
(** * Authentication *)
(* ================================================================== *)

Lemma split_no_space s : no_space s = true → split " " s = [s].
Proof.
  induction s as [|c s IH]; [done |]. cbn [no_space split].
  intros [Hc Hs]%andb_prop. apply negb_true_iff in Hc. rewrite Hc.
  by rewrite IH.
Qed.

Lemma split_at_space a rest :
  no_space a = true →
  split " " (a +:+ " " +:+ rest) = a :: split " " rest.
Proof.
  induction a as [|c a IH]; [done |].
  rewrite append_cons. cbn [no_space split].
  intros [Hc Hs]%andb_prop. apply negb_true_iff in Hc. rewrite Hc.
  by rewrite IH.
Qed.

Section authentication.

Context `{Host}.

Lemma findUserById_Some id user :
  findUserById id = Some user ↔ id = Some (JNumber 1) ∧ user = mkUser 1 "testuser".
Proof.
  unfold findUserById, users. cbn [List.find user_id].
  destruct id as [[| |n| | |]|]; try (split; [done | intros [? _]; done]).
  destruct (1 =? n) eqn:E.
  - apply Z.eqb_eq in E. subst n. split.
    + by intros [= <-].
    + intros [_ Hu]. by subst user.
  - apply Z.eqb_neq in E. split; [done |]. intros [[= Hn] _]. by subst n.
Qed.

Lemma authenticate_inr request env user :
  authenticate request env = inr user ↔
  user = mkUser 1 "testuser"
  ∧ ∃ header token fields,
      Authorization request = Some header
      ∧ starts_with "Bearer " header = true
      ∧ split " " header !! 1%nat = Some token
      ∧ jwt_verify token (JWT_SECRET env) = Some (JObject fields)
      ∧ fields !! "sub" = Some (JNumber 1).
Proof.
  unfold authenticate, verifyToken. split.
  - destruct (Authorization request) as [header|]; [| done].
    destruct (truthy_string header); [| done].
    destruct (starts_with "Bearer " header) eqn:Hstart; [| done]. simpl.
    destruct (split " " header !! 1%nat) as [token|] eqn:Htoken; [| done].
    simpl. destruct (jwt_verify token (JWT_SECRET env)) as [payload|] eqn:Hv;
      [| done].
    destruct (truthy_Json payload); [| done].
    destruct (findUserById _) as [user'|] eqn:Hfind; [| done].
    intros [= <-]. apply findUserById_Some in Hfind as [Hsub ->].
    split; [done |].
    destruct payload as [| | | | |fields]; try done.
    by exists header, token, fields.
  - intros (-> & header & token & fields & -> & Hstart & -> & Hv & Hsub).
    assert (truthy_string header = true) as ->.
    { destruct header; [done | done]. }
    rewrite Hstart. simpl. rewrite Hv. simpl. rewrite Hsub. done.
Qed.

Lemma authenticate_inl request env error :
  authenticate request env = inl error → statusCode error = Some 401.
Proof.
  unfold authenticate.
  destruct (Authorization request) as [header|]; [| by intros [= <-]].
  destruct (_ && _); [| by intros [= <-]].
  destruct (verifyToken _ _) as [payload|]; [| by intros [= <-]].
  destruct (truthy_Json payload); [| by intros [= <-]].
  destruct (findUserById _); [done | by intros [= <-]].
Qed.

(** X19.  A request is authenticated exactly when its [Authorization]
    header starts with [Bearer ], the text between the first space and
    the next is a token that verifies against the secret, and the token
    names the one user of the repository; the result is then that user.
    Every refusal is an authentication error, answered with 401.  What
    follows a second space in the header is not looked at. *)
Theorem authenticate_accepts request env :
  (∀ user,
     authenticate request env = inr user ↔
     user = mkUser 1 "testuser"
     ∧ ∃ header token fields,
         Authorization request = Some header
         ∧ starts_with "Bearer " header = true
         ∧ split " " header !! 1%nat = Some token
         ∧ jwt_verify token (JWT_SECRET env) = Some (JObject fields)
         ∧ fields !! "sub" = Some (JNumber 1))
  ∧ (∀ error, authenticate request env = inl error →
              statusCode error = Some 401)
  ∧ (∀ token rest,
       no_space token = true →
       split " " ("Bearer " +:+ token) !! 1%nat = Some token
       ∧ split " " ("Bearer " +:+ token +:+ " " +:+ rest) !! 1%nat
         = Some token).
Proof.
  split; [apply authenticate_inr |]. split; [apply authenticate_inl |].
  intros token rest Htoken.
  change ("Bearer " +:+ token) with ("Bearer" +:+ " " +:+ token).
  change ("Bearer " +:+ token +:+ " " +:+ rest)
    with ("Bearer" +:+ " " +:+ token +:+ " " +:+ rest).
  rewrite !split_at_space by done. by rewrite split_no_space.
Qed.

End authentication.

(* ================================================================== *)
(** * Signing in *)
(* ================================================================== *)

Lemma z_string_min_inr required invalid n message v s :
  z_string_min required invalid n message v = inr s ↔
  v = Some (JString s) ∧ (n ≤ js_length s)%nat.
Proof.
  unfold z_string_min.
  destruct v as [[| | |s'| |]|]; try (split; [done | intros [? _]; done]).
  destruct (js_length s' <? n)%nat eqn:E.
  - apply Nat.ltb_lt in E. split; [done |]. intros [[= ->] ?]. lia.
  - apply Nat.ltb_ge in E. split; [by intros [= ->] | by intros [[= ->] _]].
Qed.

Lemma validateAuthRequest_inr data credentials :
  validateAuthRequest data = inr credentials ↔
  ∃ fields,
    data = JObject fields
    ∧ fields !! "username" = Some (JString (auth_username credentials))
    ∧ fields !! "password" = Some (JString (auth_password credentials))
    ∧ (3 ≤ js_length (auth_username credentials))%nat
    ∧ (6 ≤ js_length (auth_password credentials))%nat.
Proof.
  unfold validateAuthRequest, authSchema_parse. destruct credentials as [u p].
  simpl.
  destruct data as [| | | | |fields];
    try (split; [done | intros (? & ? & _); done]).
  set (zu := z_string_min _ _ _ _ (fields !! "username")).
  set (zp := z_string_min _ _ _ _ (fields !! "password")).
  pose proof (λ s, z_string_min_inr "Username is required"
                     "Username must be a string" 3
                     "Username must be at least 3 characters long"
                     (fields !! "username") s) as Hu.
  pose proof (λ s, z_string_min_inr "Password is required"
                     "Password must be a string" 6
                     "Password must be at least 6 characters long"
                     (fields !! "password") s) as Hp.
  fold zu in Hu. fold zp in Hp. clearbody zu zp. split.
  - destruct zu as [iu|u'], zp as [ip|p']; try done. intros [= -> ->].
    destruct (proj1 (Hu u) eq_refl), (proj1 (Hp p) eq_refl).
    by exists fields.
  - intros (f & [= <-] & H1 & H2 & H3 & H4).
    by rewrite (proj2 (Hu u)), (proj2 (Hp p)).
Qed.

Lemma validateAuthRequest_inl data error :
  validateAuthRequest data = inl error →
  ∃ errors, error = ValidationError "Validation failed" errors.
Proof.
  unfold validateAuthRequest. destruct (authSchema_parse data); [| done].
  intros [= <-]. by eexists.
Qed.

Section sign_in.

Context `{Host}.

(** X18.  A request to sign in is answered with 200 exactly when its
    method is POST, the rate limiter admits it, its body is an object
    with a [username] of at least 3 characters and a [password] of at
    least 6, counted in UTF-16 code units, and the library signs a
    token for the user [testuser] with the secret of the environment.
    The token in the answer is then that one, whatever the credentials
    were.  When all holds but the signing, which throws (on an empty
    secret, for one), the answer is 500.  The table is never
    touched. *)
Theorem handleAuth_issues_token request env w :
  let '(response, w') := handleAuth request env w in
  let admitted :=
    method request = "POST"
    ∧ (applyRateLimit (origin request) None auth w).1 = Ok tt
    ∧ ∃ fields username password,
        json request = inr (JObject fields)
        ∧ fields !! "username" = Some (JString username)
        ∧ fields !! "password" = Some (JString password)
        ∧ (3 ≤ js_length username)%nat
        ∧ (6 ≤ js_length password)%nat in
  db w' = db w
  ∧ status response ∈ [200; 400; 405; 429; 500]
  ∧ (status response = 200 ↔
     admitted
     ∧ ∃ token, jwt_sign 1 "testuser" (JWT_SECRET env) = inr token)
  ∧ (status response = 200 →
     ∃ token, jwt_sign 1 "testuser" (JWT_SECRET env) = inr token
              ∧ body response = TokenBody token)
  ∧ (admitted →
     ∀ message, jwt_sign 1 "testuser" (JWT_SECRET env) = inl message →
                status response = 500).
Proof.
  unfold handleAuth.
  match goal with
  | |- context [andThen ?m ?k w] =>
      destruct (andThen m k w) as [[response|error] w'] eqn:Hrun
  end.
  - apply andThen_Done_inv in Hrun as ([] & w1 & Hmethod & Hrun).
    apply require_method_Done_inv in Hmethod as [Hmethod ->].
    apply andThen_Done_inv in Hrun as ([] & w2 & Hlimit & Hrun).
    apply await_Done_inv in Hlimit. limit_keeps_table Hlimit Hdb.
    apply andThen_Done_inv in Hrun as (data & w3 & Hjson & Hrun).
    apply request_json_Done_inv in Hjson as [Hjson ->].
    apply andThen_Done_inv in Hrun as (credentials & w4 & Hvalid & Hrun).
    apply call_Done_inv in Hvalid as [Hvalid ->].
    change (findUserByUsername "testuser")
      with (Some (mkUser 1 "testuser")) in Hrun.
    cbv iota beta in Hrun.
    apply andThen_Done_inv in Hrun as (token & w5 & Htoken & Hrun).
    apply call_Done_inv in Htoken as [Htoken ->].
    unfold generateToken in Htoken. cbn [user_id username] in Htoken.
    destruct (jwt_sign 1 "testuser" (JWT_SECRET env)) as [message|token']
      eqn:Hsign; [done |].
    injection Htoken as ->. injection Hrun as <- <-. simpl.
    apply validateAuthRequest_inr in Hvalid
      as (fields & -> & Hu & Hp & Hlu & Hlp).
    assert (method request = "POST"
            ∧ (applyRateLimit (origin request) None auth w).1 = Ok tt
            ∧ ∃ fields username password,
                json request = inr (JObject fields)
                ∧ fields !! "username" = Some (JString username)
                ∧ fields !! "password" = Some (JString password)
                ∧ (3 ≤ js_length username)%nat
                ∧ (6 ≤ js_length password)%nat) as Hadmitted.
    { split; [done |]. split; [by rewrite Hlimit |].
      by exists fields, (auth_username credentials),
                (auth_password credentials). }
    split; [done |]. split; [in_list |].
    split; [split; [intros _; split; [exact Hadmitted | by exists token] | done] |].
    split; [intros _; by exists token |].
    intros _ message [=].
  - assert (∀ (code : Z) (P : Prop), code ≠ 200 → ¬ P → (code = 200 ↔ P))
      as Hnot by (intros code P ? ?; tauto).
    apply andThen_Failed_inv in Hrun as [Hrun | ([] & w1 & Hmethod & Hrun)].
    { apply require_method_Failed_inv in Hrun as (Hmethod & -> & ->).
      simpl. split; [done |]. split; [in_list |].
      split; [apply Hnot; [done |]; intros ((? & _) & _); done |].
      split; [done |]. intros (? & _). done. }
    apply require_method_Done_inv in Hmethod as [Hmethod ->].
    apply andThen_Failed_inv in Hrun as [Hrun | ([] & w2 & Hlimit & Hrun)].
    { apply await_Failed_inv in Hrun as (e & -> & Hrun).
      limit_keeps_table Hrun Hdb. pose proof Hrun as Hthrow.
      apply applyRateLimit_Throw_inv in Hthrow as [message ->].
      simpl. rewrite Hrun. simpl. split; [done |]. split; [in_list |].
      split; [apply Hnot; [done |]; intros ((_ & ? & _) & _); done |].
      split; [done |]. intros (_ & ? & _). done. }
    apply await_Done_inv in Hlimit. limit_keeps_table Hlimit Hdb.
    apply andThen_Failed_inv in Hrun as [Hrun | (data & w3 & Hjson & Hrun)].
    { apply request_json_Failed_inv in Hrun as [(message & Hjson & ->) ->].
      simpl. split; [done |]. split; [in_list |].
      assert (¬ ∃ (fields : gmap string Json) (u p : string),
                json request = inr (JObject fields)
                ∧ fields !! "username" = Some (JString u)
                ∧ fields !! "password" = Some (JString p)
                ∧ (3 ≤ js_length u)%nat ∧ (6 ≤ js_length p)%nat) as Hno.
      { intros (fields & u & p & Hj & _). congruence. }
      split; [apply Hnot; [done |]; intros ((_ & _ & ?) & _); done |].
      split; [done |]. intros (_ & _ & ?). done. }
    apply request_json_Done_inv in Hjson as [Hjson ->].
    apply andThen_Failed_inv in Hrun
      as [Hrun | (credentials & w4 & Hvalid & Hrun)].
    { apply call_Failed_inv in Hrun as [Hvalid ->].
      pose proof Hvalid as Herr.
      apply validateAuthRequest_inl in Herr as [errors ->].
      simpl. split; [done |]. split; [in_list |].
      assert (¬ ∃ (fields : gmap string Json) (u p : string),
                json request = inr (JObject fields)
                ∧ fields !! "username" = Some (JString u)
                ∧ fields !! "password" = Some (JString p)
                ∧ (3 ≤ js_length u)%nat ∧ (6 ≤ js_length p)%nat) as Hno.
      { intros (fields & u & p & Hj & Hu & Hp & Hlu & Hlp).
        assert (validateAuthRequest data = inr (mkAuthRequest u p)) as Hok.
        { apply validateAuthRequest_inr. exists fields.
          split; [congruence | done]. }
        congruence. }
      split; [apply Hnot; [done |]; intros ((_ & _ & ?) & _); done |].
      split; [done |]. intros (_ & _ & ?). done. }
    apply call_Done_inv in Hvalid as [Hvalid ->].
    change (findUserByUsername "testuser")
      with (Some (mkUser 1 "testuser")) in Hrun.
    cbv iota beta in Hrun.
    apply andThen_Failed_inv in Hrun as [Hrun | (token & w5 & _ & Hrun)];
      [| done].
    apply call_Failed_inv in Hrun as [Hgen ->].
    unfold generateToken in Hgen. cbn [user_id username] in Hgen.
    destruct (jwt_sign 1 "testuser" (JWT_SECRET env)) as [message|token]
      eqn:Hsign; [| done].
    injection Hgen as <-. simpl.
    split; [done |]. split; [in_list |].
    split; [apply Hnot; [done |]; intros (_ & ? & [=]) |].
    split; [done |]. done.
Qed.

End sign_in.

(* ================================================================== *)
(** * How old a served page can be *)
(* ================================================================== *)

Lemma fresh_read_cached config h t :
  fresh (read_cached config h t) = true →
  h ≠ ∅
  ∧ (staleWhileRevalidate config = true →
     ∀ cachedAt,
       h !! "_cached_at" = Some (decimal cachedAt) →
       cachedAt ≠ 0 →
       t - nearest_double cachedAt ≤ ttl config * 1000).
Proof.
  unfold read_cached, fresh, is_present.
  destruct (decide (h = ∅)) as [->|Hne]; [done |]. simpl.
  intros Hfresh. split; [done |].
  intros Hswr cachedAt Hat Hnonzero.
  rewrite Hat, Hswr in Hfresh. simpl in Hfresh.
  rewrite truthy_deserialize_decimal, String_deserialize, parseInt_decimal
    in Hfresh.
  assert ((if isSafeInteger cachedAt then truthy_Z cachedAt else true) = true)
    as Htruthy.
  { destruct (isSafeInteger cachedAt); [| done].
    unfold truthy_Z. by rewrite (proj2 (Z.eqb_neq _ _) Hnonzero). }
  rewrite Htruthy in Hfresh. simpl in Hfresh.
  apply negb_true_iff, Z.ltb_ge in Hfresh. lia.
Qed.

(** X12.  A page that is served from the cache is at most five minutes
    old: every id of the cached page resolves to a record, and a record
    whose [_cached_at] field is the numeral of a time other than zero,
    which is what [cacheStake] writes, was cached no more than 300
    seconds before the read began.  The time is the number that the
    read makes of the numeral.  (A record whose [_cached_at] reads as
    the number zero is never judged by its age.) *)
Theorem getStakes_serves_fresh_records userId page limit w result w' :
  getStakes userId (mkPaginationDto (Some page) (Some limit)) w
  = (Ok result, w') →
  fromCache result = true →
  ∀ id, id ∈ cached_page (redis w) (now w) userId page limit →
    ∃ h, rget (redis w) (now w) ("stake:" +:+ id) = Some (VHash h)
         ∧ h ≠ ∅
         ∧ ∀ cachedAt,
             h !! "_cached_at" = Some (decimal cachedAt) →
             cachedAt ≠ 0 →
             now w - nearest_double cachedAt ≤ 300000.
Proof.
  intros Hrun Hhit id Hid. apply getStakes_Ok_inv in Hrun.
  rewrite Hhit in Hrun. destruct Hrun as (Hpage & _).
  unfold page_hit in Hpage. apply andb_prop in Hpage as [_ Hall].
  rewrite forallb_forall in Hall. specialize (Hall id).
  rewrite <- list_elem_of_In in Hall. specialize (Hall Hid).
  unfold cached_record in Hall.
  destruct (rget (redis w) (now w) ("stake:" +:+ id)) as [[| |h]|]; try done.
  apply fresh_read_cached in Hall as [Hne Hage].
  exists h. split; [done |]. split; [done |].
  intros cachedAt. by apply Hage.
Qed.

Lemma getStakes_serves_fresh_records_witness :
  ∃ h, rget (redis world_with_cached_page) 1010 "stake:1" = Some (VHash h)
       ∧ h !! "_cached_at" = Some "1000"
       ∧ now world_with_cached_page - nearest_double 1000 ≤ 300000.
Proof.
  destruct (getStakes_serves_fresh_records 7 1 20 world_with_cached_page
              (mkStakesResult [mkItem (Some 1) (Some 500) (Some 3)] true)
              world_with_cached_page) with (id := "1")
    as (h & Hh & _ & Hage).
  - vm_compute. reflexivity.
  - reflexivity.
  - vm_compute. apply list_elem_of_here.
  - exists h. split; [exact Hh |].
    vm_compute in Hh. injection Hh as <-.
    split; [vm_compute; reflexivity |].
    apply (Hage 1000); [vm_compute; reflexivity | lia].
Defined.

(* ================================================================== *)
(** * The record of a new stake *)
(* ================================================================== *)

(** The loops of the backing-store client leave the schedule of the
    key-value service alone. *)
Lemma db_attempts_redis_faults {A} n attempt what final after (body : M A) w :
  (∀ w0, redis_faults (body w0).2 = redis_faults w0) →
  redis_faults (db_attempts n attempt what final after body w).2
  = redis_faults w.
Proof.
  intros Hbody. revert attempt w.
  induction n as [|n IH]; intros attempt w; simpl; [done |].
  unfold try_catch. specialize (Hbody w).
  destruct (body w) as [[a|e] w1]; [done |]. simpl in Hbody.
  unfold bind, console_error. destruct (attempt =? 3); [done |].
  unfold sleep. rewrite IH. done.
Qed.

Lemma sql_call_redis_faults {A} (query : Z → Db → A * Db) w :
  redis_faults (sql_call query w).2 = redis_faults w.
Proof.
  unfold sql_call. destruct (next_fault (db_faults w)) as [[] fs]; [done |].
  by destruct (query (now w) (db w)).
Qed.

Lemma DbService_init_redis_faults w :
  redis_faults (DbService.init w).2 = redis_faults w.
Proof.
  apply db_attempts_redis_faults. intros w0. unfold bind.
  pose proof (sql_call_redis_faults (λ (_ : Z) (d : Db), (tt, d)) w0) as Hq.
  destruct (sql_call _ w0) as [[a|e] w1]; done.
Qed.

Lemma DbService_createStake_redis_faults userId amount period w :
  redis_faults (DbService.createStake userId amount period w).2
  = redis_faults w.
Proof.
  apply db_attempts_redis_faults. intros w0. unfold bind.
  pose proof (sql_call_redis_faults (sql_insert amount period userId) w0) as Hq.
  destruct (sql_call _ w0) as [[[|row rows]|e] w1]; done.
Qed.

Lemma redis_call_Ok_clock {A} (cmd : Z → Redis → option (A * Redis)) w a w' :
  redis_call cmd w = (Ok a, w') → now w' = now w.
Proof. intros H. by apply redis_call_Ok_inv in H as (r' & _ & ->). Qed.

Lemma hash_or_nothing_rget r t k :
  hash_or_nothing (rdata r !! k) → hash_or_nothing (rget r t k).
Proof. unfold rget. by destruct (expired r t k). Qed.

Lemma list_or_nothing_rget r t k :
  list_or_nothing (rdata r !! k) → list_or_nothing (rget r t k).
Proof. unfold rget. by destruct (expired r t k). Qed.

(** X20.  With a key-value service that answers, and a clock that
    reads a safe integer when the write returns, a write that returns
    has left the record of the new stake in the cache: a cache read of
    the id that the write reports finds a stake, and finds it fresh.
    The stake found has each number of the stake written as the read
    makes it of its numeral, which is the number itself when it is a
    safe integer; an id beyond 2^53 comes back rounded. *)
Theorem createStake_caches_new_stake userId dto w res w' :
  createStake userId dto w = (Ok res, w') →
  redis_faults w = no_faults →
  hash_or_nothing
    (rdata (redis w) !! ("stake:" +:+ decimal (next_id (db w)))) →
  list_or_nothing (rdata (redis w) !! stake_ids_key userId) →
  isSafeInteger (now w') = true →
  stakeId res = Some (next_id (db w))
  ∧ ∃ created,
      let stake :=
        mkStake (Some (next_id (db w))) (Some (dto_amount dto))
                (Some (dto_period dto)) (Some userId) (Some created) in
      let found :=
        cached_record defaultCacheConfigs.stake (redis w') (now w')
                      (decimal (next_id (db w))) in
      found = mkCached (Some (read_back stake)) false
      ∧ (exact_stake stake = true → found = mkCached (Some stake) false).
Proof.
  unfold createStake. intros H Hf Hhash Hlist Hsafe.
  apply service_catch_Ok_inv in H.
  apply bind_Ok_inv in H as ([] & w1 & Hinit & H).
  apply bind_Ok_inv in H as (dbStake & w2 & Hinsert & H).
  apply bind_Ok_inv in H as ([] & w3 & Hcache & H).
  apply bind_Ok_inv in H as (count & w4 & Hincr & H).
  pose proof (DbService_init_same_db w) as Hdb1.
  pose proof (DbService_init_same_redis w) as Hr1.
  pose proof (DbService_init_redis_faults w) as Hf1.
  rewrite Hinit in Hdb1, Hr1, Hf1.
  unfold same_db, same_redis in Hdb1, Hr1. simpl in Hdb1, Hr1, Hf1.
  pose proof (DbService_createStake_redis_faults userId (dto_amount dto)
                (dto_period dto) w1) as Hf2.
  rewrite Hinsert in Hf2. simpl in Hf2.
  apply DbService_createStake_Ok_inv in Hinsert
    as (t & _ & -> & _ & Hr2 & Hnow2).
  rewrite Hdb1 in *. set (id := next_id (db w)) in *.
  set (stake := stake_of_row (mkRow id (dto_amount dto) (dto_period dto)
                                    userId t)) in *.
  (* the record as [cacheStake] leaves it *)
  destruct (cached_store_spec stake defaultCacheConfigs.stake (decimal t)
              (now w2) (redis w2)) as (h & r3 & Hstore & Hd3 & He3 & _).
  { apply hash_or_nothing_rget. by rewrite Hr2, Hr1. }
  { apply list_or_nothing_rget. by rewrite Hr2, Hr1. }
  { done. }
  rewrite (cacheStake_healthy stake defaultCacheConfigs.stake t w2 r3)
    in Hcache by (done || congruence).
  injection Hcache as <-.
  (* the rest of the write leaves the record and the clock alone *)
  match type of H with
  | ?m ?w4 = _ =>
      pose proof (invalidation_untouched (stake_key stake) userId
                    (ret (mkCreateResult true (s_id stake)))
                    (page_prefix_stake userId _)
                    (respects_ret (untouched (stake_key stake)) _) w4) as H5
  end.
  rewrite H in H5. simpl in H5.
  assert (now w' = now w4) as Hnow5.
  { apply bind_Ok_inv in H as (keys & w5 & Hkeys & H).
    apply redis_call_Ok_clock in Hkeys.
    apply bind_Ok_inv in H as ([] & w6 & Hdel & H).
    injection H as _ <-. destruct (0 <? _).
    - apply bind_Ok_inv in Hdel as ([] & w7 & Hdel & Hlog).
      apply redis_call_Ok_clock in Hdel. injection Hlog as <-. simpl.
      congruence.
    - injection Hdel as <-. done. }
  assert (res = mkCreateResult true (Some id)) as ->.
  { apply bind_Ok_inv in H as (keys & w5 & _ & H).
    apply bind_Ok_inv in H as ([] & w6 & _ & H).
    by injection H as <- _. }
  split; [done |]. exists t.
  pose proof (redis_call_Ok_clock _ _ _ _ Hincr) as Hnow4. simpl in Hnow4.
  apply redis_call_Ok_inv in Hincr as (r4 & Hincr & ->).
  apply (same_at_incr (stake_key stake)) in Hincr as [Hd4 He4];
    [| apply stake_key_ne_user_key].
  destruct H5 as [Hd5 He5]. simpl in *.
  unfold cached_record, rget, expired.
  change ("stake:" +:+ decimal id) with (stake_key stake).
  clear Hnow4. rewrite Hd5, He5, Hd4, He4, Hd3, He3, Hnow5.
  replace (_ <? _) with false
    by (symmetry; apply Z.ltb_ge; unfold expiry_seconds; simpl; lia).
  rewrite Hnow5 in Hsafe.
  rewrite (read_cached_put stake t (now w2)) by done.
  rewrite nearest_double_safe, Z.sub_diag, andb_false_r by exact Hsafe.
  split; [reflexivity |]. intros Hexact. by rewrite read_back_exact.
Qed.

Lemma createStake_caches_new_stake_witness :
  let w' := (createStake 7 (mkCreateStakeDto 1000 12) world_with_cached_page).2 in
  ∃ created,
    cached_record defaultCacheConfigs.stake (redis w') (now w') "2"
    = mkCached (Some (mkStake (Some 2) (Some 1000) (Some 12) (Some 7)
                              (Some created))) false.
Proof.
  intros w'.
  destruct (createStake_caches_new_stake 7 (mkCreateStakeDto 1000 12)
              world_with_cached_page (mkCreateResult true (Some 2)) w')
    as [_ (created & _ & Hexact)].
  - vm_compute. reflexivity.
  - reflexivity.
  - vm_compute. exact I.
  - vm_compute. exact I.
  - vm_compute. reflexivity.
  - exists created. apply Hexact. reflexivity.
Defined.

(* ================================================================== *)
(** * The two paths of a read *)
(* ================================================================== *)

(** X21.  The two paths of a read whose round trips are all answered,
    for a first or later page of at least one item, with cache keys
    that hold values of the right kind, cached records whose numbers
    are numerals of integers, a clock that reads a safe integer, and an
    owner no two of whose rows were created at the same time.  When the
    page key holds ids and every one of them resolves to a record that
    is present and not stale, [getStakes] returns those records with
    [fromCache = true] and touches nothing.  In every other case (no
    cached page, a missing record, a stale record) it returns the rows
    of the table with [fromCache = false], and afterwards the page key
    holds the ids of those rows, in order, unless there are none, and
    each of them is in the record cache, fresh, with its numbers as a
    read makes them of their numerals. *)
Theorem getStakes_hit_or_miss userId page limit w :
  healthy w →
  isSafeInteger (now w) = true →
  1 ≤ page →
  1 ≤ limit →
  list_or_nothing (rget (redis w) (now w) (page_key userId page limit)) →
  cache_well_typed (redis w) →
  cache_holds_integers (redis w) →
  NoDup (r_id <$> rows (db w)) →
  NoDup (r_created_at
           <$> filter (λ row, r_user_id row = userId) (rows (db w))) →
  let dto := mkPaginationDto (Some page) (Some limit) in
  let records :=
    cached_record defaultCacheConfigs.stake (redis w) (now w)
      <$> cached_page (redis w) (now w) userId page limit in
  let dbStakes :=
    stake_of_row <$> sql_select userId limit ((page - 1) * limit) (db w) in
  let '(outcome, w') := getStakes userId dto w in
  if page_hit (redis w) (now w) userId page limit
  then outcome
       = Ok (mkStakesResult (format_item <$> omap c_stake records) true)
       ∧ w' = w
  else outcome = Ok (mkStakesResult (format_item <$> dbStakes) false)
       ∧ db w' = db w
       ∧ now w' = now w
       ∧ rget (redis w') (now w') (page_key userId page limit)
         = (if decide (dbStakes = []) then None
            else Some (VList ((λ stake, toString (s_id stake)) <$> dbStakes)))
       ∧ ∀ stake, stake ∈ dbStakes →
           cached_record defaultCacheConfigs.stake (redis w') (now w')
                         (toString (s_id stake))
           = mkCached (Some (read_back stake)) false.
Proof.
  intros Hhealthy Hclock _ _ Hpage Htyped%(cache_well_typed_records _ (now w))
         _ Hkey _ dto records dbStakes.
  unfold dto. rewrite getStakes_healthy by (done || apply Htyped).
  fold records dbStakes.
  destruct (page_hit _ _ _ _ _); [done |].
  set (w1 := emit (ConsoleLog "Database initialized successfully") w).
  destruct (cacheStakes_healthy dbStakes userId page limit
              defaultCacheConfigs.stake w1)
    as (r' & -> & Hlist & Hrecs).
  - apply Hhealthy.
  - exact Htyped.
  - done.
  - by apply sql_select_stake_keys.
  - apply Forall_fmap, Forall_forall. by eexists.
  - simpl. split; [done |]. split; [done |]. split; [done |]. split; [done |].
    intros stake Hin.
    destruct (Hrecs stake Hin) as (h & created & Hc & Hrec).
    unfold cached_record. fold (stake_key stake). simpl in Hrec. rewrite Hrec.
    rewrite (read_cached_put _ created) by done.
    rewrite nearest_double_safe, Z.sub_diag by done.
    by rewrite andb_false_r.
Qed.

Lemma getStakes_hit_or_miss_witness :
  (getStakes 7 (mkPaginationDto (Some 1) (Some 20)) world_with_cached_page).1
  = Ok (mkStakesResult [mkItem (Some 1) (Some 500) (Some 3)] true)
  ∧ (getStakes 7 (mkPaginationDto (Some 1) (Some 20))
               (advance 300000 world_with_cached_page)).1
    = Ok (mkStakesResult [mkItem (Some 1) (Some 500) (Some 3)] false).
Proof.
  split.
  - pose proof (getStakes_hit_or_miss 7 1 20 world_with_cached_page) as H.
    cbv zeta in H.
    destruct (getStakes 7 _ world_with_cached_page) as [outcome w'].
    replace (page_hit _ _ _ _ _) with true in H by (vm_compute; reflexivity).
    destruct H as [-> _].
    + split; vm_compute; reflexivity.
    + vm_compute. reflexivity.
    + lia.
    + lia.
    + vm_compute. exact I.
    + unfold cache_well_typed. apply (bool_decide_unpack _). vm_compute. exact I.
    + unfold cache_holds_integers. apply (bool_decide_unpack _).
      vm_compute. exact I.
    + apply (bool_decide_unpack _). vm_compute. exact I.
    + apply (bool_decide_unpack _). vm_compute. exact I.
    + vm_compute. reflexivity.
  - pose proof (getStakes_hit_or_miss 7 1 20
                  (advance 300000 world_with_cached_page)) as H.
    cbv zeta in H.
    destruct (getStakes 7 _ (advance 300000 world_with_cached_page))
      as [outcome w'].
    replace (page_hit _ _ _ _ _) with false in H by (vm_compute; reflexivity).
    destruct H as [-> _].
    + split; vm_compute; reflexivity.
    + vm_compute. reflexivity.
    + lia.
    + lia.
    + vm_compute. exact I.
    + unfold cache_well_typed. apply (bool_decide_unpack _). vm_compute. exact I.
    + unfold cache_holds_integers. apply (bool_decide_unpack _).
      vm_compute. exact I.
    + apply (bool_decide_unpack _). vm_compute. exact I.
    + apply (bool_decide_unpack _). vm_compute. exact I.
    + vm_compute. reflexivity.
Defined.
